(** * ElfReader

    A shallow embedding of [Source/Core/Core/Boot/ElfReader.cpp]: the ELF32
    loader that normalises the byte order of a borrowed image, copies its
    loadable segments into emulated memory, extracts symbols and guesses the
    console variant.

    The image is a list of bytes.  The C++ code casts offsets of that buffer
    to structures; here a structure is *loaded* from the bytes at an offset
    and *stored* back, so that in-place mutation and aliasing between the
    header and the tables are kept.  The host is little endian (the build
    targets of the emulator), and [Common::swap16]/[Common::swap32] reverse
    bytes unconditionally. *)

From Stdlib Require Import ZArith List Lia Bool.
From Stdlib.Strings Require Import Byte.
Import ListNotations.
Local Open Scope Z_scope.

(** ** Outcomes of a computation over the borrowed buffer *)

(** [Fault] stands for an access outside the byte buffer (or through a null
    pointer), which C++ leaves undefined.  [OutOfFuel] is the exhausted
    budget of a loop whose bound is re-read from mutable memory. *)
Inductive res (A : Type) : Type :=
| Ok (a : A)
| Fault
| OutOfFuel.

Arguments Ok {A} a.
Arguments Fault {A}.
Arguments OutOfFuel {A}.

Definition bind {A B : Type} (m : res A) (k : A -> res B) : res B :=
  match m with
  | Ok a => k a
  | Fault => Fault
  | OutOfFuel => OutOfFuel
  end.

Notation "x <- m ;; k" := (bind m (fun x => k))
  (at level 61, m at next level, right associativity).

(** ** Fixed-width integers *)

Definition b2z (b : byte) : Z := Z.of_N (Byte.to_N b).

Definition z2b (z : Z) : byte :=
  match Byte.of_N (Z.to_N (z mod 256)) with
  | Some b => b
  | None => x00
  end.

(** Conversion of a 32-bit pattern to [int] and back to [u32]. *)
Definition to_int32 (x : Z) : Z :=
  let y := x mod 4294967296 in
  if y <? 2147483648 then y else y - 4294967296.

Definition to_u32 (x : Z) : Z := x mod 4294967296.

(** Modelled from the spec: [Common::swap16] and [Common::swap32]
    ([Common/Swap.h] is not under src/), the endian normaliser's primitive:
    the bytes of the word in reverse order. *)
Definition swap16 (data : Z) : Z :=
  Z.lor (Z.shiftr data 8) (Z.land (Z.shiftl data 8) 0xFFFF).

Definition swap32 (data : Z) : Z :=
  Z.lor (Z.shiftl (swap16 (Z.land data 0xFFFF)) 16) (swap16 (Z.shiftr data 16)).

(** ** The byte buffer *)

Definition buffer := list byte.

Definition blen (buf : buffer) : Z := Z.of_nat (length buf).

(** [n] bytes at offset [off]. *)
Definition slice (buf : buffer) (off n : Z) : res (list byte) :=
  if (0 <=? off) && (0 <=? n) && (off + n <=? blen buf)
  then Ok (firstn (Z.to_nat n) (skipn (Z.to_nat off) buf))
  else Fault.

(** Overwrite the bytes at offset [off] by [bs]. *)
Definition splice (buf : buffer) (off : Z) (bs : list byte) : res buffer :=
  if (0 <=? off) && (off + blen bs <=? blen buf)
  then Ok (firstn (Z.to_nat off) buf ++ bs
           ++ skipn (Z.to_nat off + length bs) buf)
  else Fault.

(** The bytes that a copy of [n] bytes from offset [off] reads: a copy of
    no byte reads nothing, wherever its source points. *)
Definition copy_source (buf : buffer) (off n : Z) : res (list byte) :=
  if n =? 0 then Ok [] else slice buf off n.

(** Host-order (little-endian) fields of a structure laid out in [bs]. *)
Definition u8_at (bs : list byte) (k : nat) : Z := b2z (nth k bs x00).

Definition u16_at (bs : list byte) (k : nat) : Z :=
  u8_at bs k + 256 * u8_at bs (k + 1).

Definition u32_at (bs : list byte) (k : nat) : Z :=
  u8_at bs k + 256 * u8_at bs (k + 1)
  + 65536 * u8_at bs (k + 2) + 16777216 * u8_at bs (k + 3).

Definition enc16 (v : Z) : list byte := [z2b v; z2b (v / 256)].

Definition enc32 (v : Z) : list byte :=
  [z2b v; z2b (v / 256); z2b (v / 65536); z2b (v / 16777216)].

Definition get8 (buf : buffer) (off : Z) : res byte :=
  bs <- slice buf off 1 ;; Ok (nth 0 bs x00).

Definition get32 (buf : buffer) (off : Z) : res Z :=
  bs <- slice buf off 4 ;; Ok (u32_at bs 0).

(** The characters of the NUL-terminated string that starts [bs]. *)
Fixpoint take_cstr (bs : list byte) : option (list byte) :=
  match bs with
  | [] => None
  | b :: rest =>
      if Byte.eqb b x00 then Some []
      else match take_cstr rest with
           | Some s => Some (b :: s)
           | None => None
           end
  end.

(** Reading a C string at [off], as the [std::string(const char* )]
    conversion does. *)
Definition cstring (buf : buffer) (off : Z) : res (list byte) :=
  if (0 <=? off) && (off <? blen buf)
  then match take_cstr (skipn (Z.to_nat off) buf) with
       | Some s => Ok s
       | None => Fault
       end
  else Fault.

(** [strcmp(name, buf + off) == 0]: both strings are read in step, up to the
    first difference or the terminator.  [name] holds the characters of the
    first argument; a NUL inside it ends it. *)
Fixpoint strcmp_eq (name : list byte) (buf : buffer) (off : Z) : res bool :=
  b <- get8 buf off ;;
  match name with
  | [] => Ok (Byte.eqb b x00)
  | c :: name' =>
      if Byte.eqb c x00 then Ok (Byte.eqb b x00)
      else if Byte.eqb b c then strcmp_eq name' buf (off + 1)
      else Ok false
  end.

(** ** ELF32 structures *)

(** Modelled from the spec: the structures and constants of
    [Core/Boot/ElfTypes.h], which is not under src/.  Layouts and values are
    those of the ELF32 format (section 6 of the specification lists the
    fields in order). *)
Record Elf32_Ehdr : Type := {
  e_ident : list byte;
  e_type : Z;
  e_machine : Z;
  e_version : Z;
  e_entry : Z;
  e_phoff : Z;
  e_shoff : Z;
  e_flags : Z;
  e_ehsize : Z;
  e_phentsize : Z;
  e_phnum : Z;
  e_shentsize : Z;
  e_shnum : Z;
  e_shstrndx : Z
}.

Record Elf32_Phdr : Type := {
  p_type : Z;
  p_offset : Z;
  p_vaddr : Z;
  p_paddr : Z;
  p_filesz : Z;
  p_memsz : Z;
  p_flags : Z;
  p_align : Z
}.

Record Elf32_Shdr : Type := {
  sh_name : Z;
  sh_type : Z;
  sh_flags : Z;
  sh_addr : Z;
  sh_offset : Z;
  sh_size : Z;
  sh_link : Z;
  sh_info : Z;
  sh_addralign : Z;
  sh_entsize : Z
}.

Record Elf32_Sym : Type := {
  st_name : Z;
  st_value : Z;
  st_size : Z;
  st_info : Z;
  st_other : Z;
  st_shndx : Z
}.

Definition EI_NIDENT : Z := 16.
Definition sizeof_Ehdr : Z := 52.
Definition sizeof_Phdr : Z := 32.
Definition sizeof_Shdr : Z := 40.
Definition sizeof_Sym : Z := 16.

Definition ET_EXEC : Z := 2.
Definition EV_CURRENT : Z := 1.
Definition ELFCLASS32 : byte := x01.
Definition PT_LOAD : Z := 1.
Definition PF_X : Z := 1.
Definition SHT_NULL : Z := 0.
Definition STT_OBJECT : Z := 1.
Definition STT_FUNC : Z := 2.

Definition decode_Ehdr (bs : list byte) : Elf32_Ehdr :=
  {| e_ident := firstn 16 bs;
     e_type := u16_at bs 16;
     e_machine := u16_at bs 18;
     e_version := u32_at bs 20;
     e_entry := u32_at bs 24;
     e_phoff := u32_at bs 28;
     e_shoff := u32_at bs 32;
     e_flags := u32_at bs 36;
     e_ehsize := u16_at bs 40;
     e_phentsize := u16_at bs 42;
     e_phnum := u16_at bs 44;
     e_shentsize := u16_at bs 46;
     e_shnum := u16_at bs 48;
     e_shstrndx := u16_at bs 50 |}.

Definition encode_Ehdr_fields (h : Elf32_Ehdr) : list byte :=
  enc16 (e_type h) ++ enc16 (e_machine h) ++ enc32 (e_version h)
  ++ enc32 (e_entry h) ++ enc32 (e_phoff h) ++ enc32 (e_shoff h)
  ++ enc32 (e_flags h) ++ enc16 (e_ehsize h) ++ enc16 (e_phentsize h)
  ++ enc16 (e_phnum h) ++ enc16 (e_shentsize h) ++ enc16 (e_shnum h)
  ++ enc16 (e_shstrndx h).

Definition encode_Ehdr (h : Elf32_Ehdr) : list byte :=
  e_ident h ++ encode_Ehdr_fields h.

Definition decode_Phdr (bs : list byte) : Elf32_Phdr :=
  {| p_type := u32_at bs 0;
     p_offset := u32_at bs 4;
     p_vaddr := u32_at bs 8;
     p_paddr := u32_at bs 12;
     p_filesz := u32_at bs 16;
     p_memsz := u32_at bs 20;
     p_flags := u32_at bs 24;
     p_align := u32_at bs 28 |}.

Definition encode_Phdr (p : Elf32_Phdr) : list byte :=
  enc32 (p_type p) ++ enc32 (p_offset p) ++ enc32 (p_vaddr p)
  ++ enc32 (p_paddr p) ++ enc32 (p_filesz p) ++ enc32 (p_memsz p)
  ++ enc32 (p_flags p) ++ enc32 (p_align p).

Definition decode_Shdr (bs : list byte) : Elf32_Shdr :=
  {| sh_name := u32_at bs 0;
     sh_type := u32_at bs 4;
     sh_flags := u32_at bs 8;
     sh_addr := u32_at bs 12;
     sh_offset := u32_at bs 16;
     sh_size := u32_at bs 20;
     sh_link := u32_at bs 24;
     sh_info := u32_at bs 28;
     sh_addralign := u32_at bs 32;
     sh_entsize := u32_at bs 36 |}.

Definition encode_Shdr (s : Elf32_Shdr) : list byte :=
  enc32 (sh_name s) ++ enc32 (sh_type s) ++ enc32 (sh_flags s)
  ++ enc32 (sh_addr s) ++ enc32 (sh_offset s) ++ enc32 (sh_size s)
  ++ enc32 (sh_link s) ++ enc32 (sh_info s) ++ enc32 (sh_addralign s)
  ++ enc32 (sh_entsize s).

Definition decode_Sym (bs : list byte) : Elf32_Sym :=
  {| st_name := u32_at bs 0;
     st_value := u32_at bs 4;
     st_size := u32_at bs 8;
     st_info := u8_at bs 12;
     st_other := u8_at bs 13;
     st_shndx := u16_at bs 14 |}.

(** A structure seen through a pointer into the buffer. *)
Definition load_Ehdr (buf : buffer) (off : Z) : res Elf32_Ehdr :=
  bs <- slice buf off sizeof_Ehdr ;; Ok (decode_Ehdr bs).

Definition store_Ehdr (buf : buffer) (off : Z) (h : Elf32_Ehdr) : res buffer :=
  splice buf off (encode_Ehdr h).

Definition load_Phdr (buf : buffer) (off : Z) : res Elf32_Phdr :=
  bs <- slice buf off sizeof_Phdr ;; Ok (decode_Phdr bs).

Definition store_Phdr (buf : buffer) (off : Z) (p : Elf32_Phdr) : res buffer :=
  splice buf off (encode_Phdr p).

Definition load_Shdr (buf : buffer) (off : Z) : res Elf32_Shdr :=
  bs <- slice buf off sizeof_Shdr ;; Ok (decode_Shdr bs).

Definition store_Shdr (buf : buffer) (off : Z) (s : Elf32_Shdr) : res buffer :=
  splice buf off (encode_Shdr s).

Definition load_Sym (buf : buffer) (off : Z) : res Elf32_Sym :=
  bs <- slice buf off sizeof_Sym ;; Ok (decode_Sym bs).

(** ** Endian normalisation *)

Definition byteswapHeader (ELF_H : Elf32_Ehdr) : Elf32_Ehdr :=
  {| e_ident := e_ident ELF_H;
     e_type := swap16 (e_type ELF_H);
     e_machine := swap16 (e_machine ELF_H);
     e_version := swap32 (e_version ELF_H);
     e_entry := swap32 (e_entry ELF_H);
     e_phoff := swap32 (e_phoff ELF_H);
     e_shoff := swap32 (e_shoff ELF_H);
     e_flags := swap32 (e_flags ELF_H);
     e_ehsize := swap16 (e_ehsize ELF_H);
     e_phentsize := swap16 (e_phentsize ELF_H);
     e_phnum := swap16 (e_phnum ELF_H);
     e_shentsize := swap16 (e_shentsize ELF_H);
     e_shnum := swap16 (e_shnum ELF_H);
     e_shstrndx := swap16 (e_shstrndx ELF_H) |}.

Definition byteswapSegment (sec : Elf32_Phdr) : Elf32_Phdr :=
  {| p_type := swap32 (p_type sec);
     p_offset := swap32 (p_offset sec);
     p_vaddr := swap32 (p_vaddr sec);
     p_paddr := swap32 (p_paddr sec);
     p_filesz := swap32 (p_filesz sec);
     p_memsz := swap32 (p_memsz sec);
     p_flags := swap32 (p_flags sec);
     p_align := swap32 (p_align sec) |}.

Definition byteswapSection (sec : Elf32_Shdr) : Elf32_Shdr :=
  {| sh_name := swap32 (sh_name sec);
     sh_type := swap32 (sh_type sec);
     sh_flags := swap32 (sh_flags sec);
     sh_addr := swap32 (sh_addr sec);
     sh_offset := swap32 (sh_offset sec);
     sh_size := swap32 (sh_size sec);
     sh_link := swap32 (sh_link sec);
     sh_info := swap32 (sh_info sec);
     sh_addralign := swap32 (sh_addralign sec);
     sh_entsize := swap32 (sh_entsize sec) |}.

(** ** The emulated memory *)

(** Modelled from the spec: the target memory image of [Core/HW/Memmap.h]
    (not under src/), a collaborator exposing a byte copy and a fill over a
    32-bit address space.  The image also records the calls it receives, as
    a spy memory does. *)
Module Memory.

Inductive call : Type :=
| Copy (address : Z) (src : list byte)
| Fill (address value size : Z).

Record image : Type := { cells : Z -> byte; calls : list call }.

Definition wrap (a : Z) : Z := a mod 4294967296.

Definition read (m : image) (address : Z) : byte := cells m (wrap address).

Definition CopyToEmu (address : Z) (src : list byte) (m : image) : image :=
  {| cells := fun a =>
       let k := wrap (a - address) in
       if k <? blen src then nth (Z.to_nat k) src x00 else cells m a;
     calls := calls m ++ [Copy address src] |}.

Definition Memset (address value size : Z) (m : image) : image :=
  {| cells := fun a =>
       if wrap (a - address) <? size then z2b value else cells m a;
     calls := calls m ++ [Fill address value size] |}.

End Memory.

(** ** The symbol database *)

(** Modelled from the spec: the sink [g_symbolDB] of
    [Core/PowerPC/PPCSymbolDB.h] (not under src/), kept as the sequence of
    calls it received.  A symbol is added with its address and size, both
    unsigned 32-bit, its name and its classification. *)
Inductive SymbolType : Type := Data | Function.

Inductive db_call : Type :=
| AddKnownSymbol (startAddr size : Z) (name : list byte) (type : SymbolType)
| Index.

Definition PPCSymbolDB := list db_call.

(** ** The reader *)

(** [base] and [header] point to offset 0 of [m_bytes]; [segments] and
    [sections] are kept as byte offsets from [base]. *)
Record ElfReader : Type := {
  m_bytes : buffer;
  segments : Z;
  sections : Z;
  entryPoint : Z;
  bRelocate : bool
}.

(** What [ElfReader.cpp] uses from headers that are not under src/ and that
    the specification leaves open: the end of the primary memory region, the
    per-section base-address table, the pointer to a section's data ([None]
    is the null pointer) and the test for a code segment. *)
Class Declarations : Type := {
  REALRAM_SIZE : Z;
  sectionAddrs : Z -> res Z;
  GetSectionDataPtr : ElfReader -> Z -> res (option Z);
  IsCodeSegment : ElfReader -> Z -> res bool
}.

(** State that survives a fault: the writes made so far stay made. *)
Definition with_res {S A B : Type}
    (x : res A) (s : S) (k : A -> res B * S) : res B * S :=
  match x with
  | Ok a => k a
  | Fault => (Fault, s)
  | OutOfFuel => (OutOfFuel, s)
  end.

Definition header (r : ElfReader) : res Elf32_Ehdr := load_Ehdr (m_bytes r) 0.

Definition segment (r : ElfReader) (i : Z) : res Elf32_Phdr :=
  load_Phdr (m_bytes r) (segments r + sizeof_Phdr * i).

Definition section (r : ElfReader) (i : Z) : res Elf32_Shdr :=
  load_Shdr (m_bytes r) (sections r + sizeof_Shdr * i).

(** Modelled from the spec: the accessors of [Core/Boot/ElfReader.h] (not
    under src/): the table counts are those declared in the header, a
    segment's bytes start at its file offset and are as many as its file
    size. *)
Definition GetNumSegments (r : ElfReader) : res Z :=
  h <- header r ;; Ok (e_phnum h).

Definition GetNumSections (r : ElfReader) : res Z :=
  h <- header r ;; Ok (e_shnum h).

Definition GetSegmentPtr (r : ElfReader) (i : Z) : res Z :=
  p <- segment r i ;; Ok (p_offset p).

Definition GetSegmentSize (r : ElfReader) (i : Z) : res Z :=
  p <- segment r i ;; Ok (p_filesz p).

(** *** Initialize *)

(** The counts are 16-bit, so a loop over [int i] below a count runs at most
    65536 times, however the count changes while the tables are swapped in
    place. *)
Definition loop_budget : nat := Z.to_nat 65536.

Fixpoint swap_segments (fuel : nat) (i : Z) (segs : Z) (buf : buffer)
  : res buffer :=
  h <- load_Ehdr buf 0 ;;
  if i <? e_phnum h then
    match fuel with
    | O => OutOfFuel
    | S fuel' =>
        p <- load_Phdr buf (segs + sizeof_Phdr * i) ;;
        buf' <- store_Phdr buf (segs + sizeof_Phdr * i) (byteswapSegment p) ;;
        swap_segments fuel' (i + 1) segs buf'
    end
  else Ok buf.

Fixpoint swap_sections (fuel : nat) (i : Z) (secs : Z) (buf : buffer)
  : res buffer :=
  h <- load_Ehdr buf 0 ;;
  if i <? e_shnum h then
    match fuel with
    | O => OutOfFuel
    | S fuel' =>
        s <- load_Shdr buf (secs + sizeof_Shdr * i) ;;
        buf' <- store_Shdr buf (secs + sizeof_Shdr * i) (byteswapSection s) ;;
        swap_sections fuel' (i + 1) secs buf'
    end
  else Ok buf.

Definition Initialize (ptr : buffer) : res ElfReader :=
  h0 <- load_Ehdr ptr 0 ;;
  buf1 <- store_Ehdr ptr 0 (byteswapHeader h0) ;;
  h1 <- load_Ehdr buf1 0 ;;
  let segs := e_phoff h1 in
  let secs := e_shoff h1 in
  buf2 <- swap_segments loop_budget 0 segs buf1 ;;
  buf3 <- swap_sections loop_budget 0 secs buf2 ;;
  h3 <- load_Ehdr buf3 0 ;;
  Ok {| m_bytes := buf3;
        segments := segs;
        sections := secs;
        entryPoint := e_entry h3;
        bRelocate := negb (e_type h3 =? ET_EXEC) |}.

Section Operations.

Context {D : Declarations}.

(** *** GetSectionName *)

(** The result is the offset of the name in the buffer, [None] for the
    null pointer. *)
Definition GetSectionName (r : ElfReader) (sec : Z) : res (option Z) :=
  s <- section r sec ;;
  if sh_type s =? SHT_NULL then Ok None
  else
    let nameOffset := to_int32 (sh_name s) in
    h <- header r ;;
    ptr <- GetSectionDataPtr r (e_shstrndx h) ;;
    match ptr with
    | Some p => Ok (Some (p + nameOffset))
    | None => Ok None
    end.

(** *** LoadIntoMemory *)

Definition load_segment (r : ElfReader) (only_in_mem1 : bool) (i : Z)
    (m : Memory.image) : res unit * Memory.image :=
  with_res (segment r i) m (fun p =>
    if p_type p =? PT_LOAD then
      let writeAddr := p_vaddr p in
      with_res (GetSegmentPtr r i) m (fun src =>
        let srcSize := p_filesz p in
        let dstSize := p_memsz p in
        if only_in_mem1 && (REALRAM_SIZE <=? p_vaddr p) then (Ok tt, m)
        else
          with_res (copy_source (m_bytes r) src srcSize) m (fun bytes =>
            let m1 := Memory.CopyToEmu writeAddr bytes m in
            (Ok tt,
             if srcSize <? dstSize
             then Memory.Memset (to_u32 (writeAddr + srcSize)) 0
                    (dstSize - srcSize) m1
             else m1)))
    else (Ok tt, m)).

Fixpoint load_segments (r : ElfReader) (only_in_mem1 : bool)
    (n : nat) (i : Z) (m : Memory.image) : res unit * Memory.image :=
  match n with
  | O => (Ok tt, m)
  | S n' =>
      match load_segment r only_in_mem1 i m with
      | (Ok _, m') => load_segments r only_in_mem1 n' (i + 1) m'
      | (Fault, m') => (Fault, m')
      | (OutOfFuel, m') => (OutOfFuel, m')
      end
  end.

(** The buffer is not written here, so the bound [header->e_phnum] is the
    same at every iteration. *)
Definition LoadIntoMemory (r : ElfReader) (only_in_mem1 : bool)
    (m : Memory.image) : res bool * Memory.image :=
  if bRelocate r then (Ok false, m)
  else
    with_res (header r) m (fun h =>
      match load_segments r only_in_mem1 (Z.to_nat (e_phnum h)) 0 m with
      | (Ok _, m') => (Ok true, m')
      | (Fault, m') => (Fault, m')
      | (OutOfFuel, m') => (OutOfFuel, m')
      end).

(** *** GetSectionByName *)

Fixpoint section_scan (r : ElfReader) (name : list byte)
    (n : nat) (i : Z) : res Z :=
  match n with
  | O => Ok (-1)
  | S n' =>
      secname <- GetSectionName r i ;;
      match secname with
      | Some p =>
          same <- strcmp_eq name (m_bytes r) p ;;
          if same then Ok i else section_scan r name n' (i + 1)
      | None => section_scan r name n' (i + 1)
      end
  end.

(** The bound [header->e_shnum] does not change during the scan. *)
Definition GetSectionByName (r : ElfReader) (name : list byte)
    (firstSection : Z) : res Z :=
  h <- header r ;;
  section_scan r name (Z.to_nat (e_shnum h - firstSection)) firstSection.

(** *** LoadSymbols *)

(** ".symtab" *)
Definition symtab_name : list byte := [x2e; x73; x79; x6d; x74; x61; x62].

(** One turn of the loop over the symbol table: the call it makes on the
    database, if any. *)
Definition symbol_entry (r : ElfReader) (stringBase symtab : option Z)
    (sym : Z) : res (option db_call) :=
  match symtab with
  | None => Fault
  | Some tab =>
      s <- load_Sym (m_bytes r) (tab + sizeof_Sym * sym) ;;
      let size := to_int32 (swap32 (st_size s)) in
      if size =? 0 then Ok None
      else
        let type := Z.land (st_info s) 0xF in
        let sectionIndex := swap16 (st_shndx s) in
        let value := to_int32 (swap32 (st_value s)) in
        let name :=
          match stringBase with
          | Some b => Some (b + swap32 (st_name s))
          | None => None
          end in
        value' <- (if bRelocate r
                   then a <- sectionAddrs sectionIndex ;;
                        Ok (to_int32 (value + a))
                   else Ok value) ;;
        let emit (symtype : SymbolType) :=
          match name with
          | Some p =>
              str <- cstring (m_bytes r) p ;;
              Ok (Some (AddKnownSymbol (to_u32 value') (to_u32 size) str
                  symtype))
          | None => Fault
          end in
        if type =? STT_OBJECT then emit Data
        else if type =? STT_FUNC then emit Function
        else Ok None
  end.

Fixpoint symbol_loop (r : ElfReader) (stringBase symtab : option Z)
    (n : nat) (sym : Z) (db : PPCSymbolDB) (hasSymbols : bool)
  : res bool * PPCSymbolDB :=
  match n with
  | O => (Ok hasSymbols, db)
  | S n' =>
      with_res (symbol_entry r stringBase symtab sym) db (fun c =>
        match c with
        | Some add =>
            symbol_loop r stringBase symtab n' (sym + 1) (db ++ [add]) true
        | None =>
            symbol_loop r stringBase symtab n' (sym + 1) db hasSymbols
        end)
  end.

Definition LoadSymbols (r : ElfReader) (db : PPCSymbolDB)
  : res bool * PPCSymbolDB :=
  with_res (GetSectionByName r symtab_name 0) db (fun sec =>
    if sec =? -1 then (Ok false, db ++ [Index])
    else
      with_res (section r sec) db (fun s =>
        let stringSection := to_int32 (sh_link s) in
        with_res (GetSectionDataPtr r stringSection) db (fun stringBase =>
          with_res (GetSectionDataPtr r sec) db (fun symtab =>
            let numSymbols := sh_size s / sizeof_Sym in
            match symbol_loop r stringBase symtab (Z.to_nat numSymbols)
                    0 db false with
            | (Ok hasSymbols, db') => (Ok hasSymbols, db' ++ [Index])
            | (Fault, db') => (Fault, db')
            | (OutOfFuel, db') => (OutOfFuel, db')
            end)))).

(** *** IsWii *)

Definition HID4_pattern : Z := swap32 0x7c13fba6.
Definition HID4_mask : Z := swap32 0xfc1fffff.

Definition hid4_match (w : Z) : bool := Z.land w HID4_mask =? HID4_pattern.

Fixpoint scan_words (buf : buffer) (code : Z) (n : nat) (j : Z) : res bool :=
  match n with
  | O => Ok false
  | S n' =>
      w <- get32 buf (code + 4 * j) ;;
      if hid4_match w then Ok true else scan_words buf code n' (j + 1)
  end.

Fixpoint scan_segments (r : ElfReader) (n : nat) (i : Z) : res bool :=
  match n with
  | O => Ok false
  | S n' =>
      c <- IsCodeSegment r i ;;
      if c then
        code <- GetSegmentPtr r i ;;
        size <- GetSegmentSize r i ;;
        hit <- scan_words (m_bytes r) code (Z.to_nat (size / 4)) 0 ;;
        if hit then Ok true else scan_segments r n' (i + 1)
      else scan_segments r n' (i + 1)
  end.

Definition IsWii (r : ElfReader) : res bool :=
  n <- GetNumSegments r ;;
  scan_segments r (Z.to_nat n) 0.

End Operations.

(** ** A reference choice of the open declarations *)

(** Modelled from the spec: a section's data are the bytes at its offset,
    and a section whose index is outside the table is unreadable; a code
    segment is a [LOAD] segment marked executable; the base-address table is
    never populated; the primary region ends at 24 MiB. *)
Definition reference_GetSectionDataPtr (r : ElfReader) (sec : Z)
  : res (option Z) :=
  h <- header r ;;
  if (sec <? 0) || (e_shnum h <=? sec) then Ok None
  else s <- section r sec ;; Ok (Some (sh_offset s)).

Definition reference_IsCodeSegment (r : ElfReader) (i : Z) : res bool :=
  p <- segment r i ;;
  Ok ((p_type p =? PT_LOAD) && negb (Z.land (p_flags p) PF_X =? 0)).

#[global] Instance reference_declarations : Declarations :=
  {| REALRAM_SIZE := 0x01800000;
     sectionAddrs := fun _ => Fault;
     GetSectionDataPtr := reference_GetSectionDataPtr;
     IsCodeSegment := reference_IsCodeSegment |}.

(** ** Well-formed and valid structures *)

Definition is_u16 (v : Z) : Prop := 0 <= v < 65536.
Definition is_u32 (v : Z) : Prop := 0 <= v < 4294967296.

Definition halfwords_Ehdr (h : Elf32_Ehdr) : list Z :=
  [e_type h; e_machine h; e_ehsize h; e_phentsize h; e_phnum h;
   e_shentsize h; e_shnum h; e_shstrndx h].

Definition words_Ehdr (h : Elf32_Ehdr) : list Z :=
  [e_version h; e_entry h; e_phoff h; e_shoff h; e_flags h].

(** The fields fit their C types and the identification has its sixteen
    bytes. *)
Definition wf_Ehdr (h : Elf32_Ehdr) : Prop :=
  length (e_ident h) = 16%nat
  /\ Forall is_u16 (halfwords_Ehdr h)
  /\ Forall is_u32 (words_Ehdr h).

(** A valid ELF32 header, in host order: the signature and the class in the
    identification bytes and, as the format prescribes, the current version
    and the size of this very structure. *)
Definition valid_elf32_header (h : Elf32_Ehdr) : Prop :=
  firstn 4 (e_ident h) = [x7f; x45; x4c; x46]
  /\ nth 4 (e_ident h) x00 = ELFCLASS32
  /\ e_version h = EV_CURRENT
  /\ e_ehsize h = sizeof_Ehdr.

(** The identification bytes of ELF32: the signature and the class. *)
Definition has_elf32_ident (ptr : buffer) : Prop :=
  firstn 4 ptr = [x7f; x45; x4c; x46] /\ nth 4 ptr x00 = ELFCLASS32.

(** A table of [count] entries of [entry_size] bytes at [off] that lies in a
    buffer of [len] bytes, past the header. *)
Definition table_in_buffer (off count entry_size len : Z) : Prop :=
  count = 0 \/ (sizeof_Ehdr <= off /\ off + entry_size * count <= len).

(** ** Section names, as the specification words them *)

(** The name of a section: none for a section of type null, none when the
    section-header string table is unreadable, and otherwise the
    NUL-terminated string found in the string table's data at the stored
    name offset. *)
Definition resolved_name {D : Declarations} (r : ElfReader) (i : Z)
  : res (option (list byte)) :=
  s <- section r i ;;
  if sh_type s =? SHT_NULL then Ok None
  else
    h <- header r ;;
    table <- GetSectionDataPtr r (e_shstrndx h) ;;
    match table with
    | Some t =>
        str <- cstring (m_bytes r) (t + to_int32 (sh_name s)) ;;
        Ok (Some str)
    | None => Ok None
    end.

(** ** What loading a segment means *)

(** A program header that the loop of [LoadIntoMemory] writes to memory: a
    [LOAD] entry that the restriction to the primary region does not skip. *)
Definition segment_skipped {D : Declarations}
    (only_in_mem1 : bool) (p : Elf32_Phdr) : bool :=
  only_in_mem1 && (REALRAM_SIZE <=? p_vaddr p).

Definition segment_loaded {D : Declarations}
    (only_in_mem1 : bool) (p : Elf32_Phdr) : bool :=
  (p_type p =? PT_LOAD) && negb (segment_skipped only_in_mem1 p).

(** The calls that loading [p] makes, [bytes] being its file-resident
    bytes. *)
Definition segment_calls (p : Elf32_Phdr) (bytes : list byte)
  : list Memory.call :=
  Memory.Copy (p_vaddr p) bytes
  :: (if p_filesz p <? p_memsz p
      then [Memory.Fill (to_u32 (p_vaddr p + p_filesz p)) 0
              (p_memsz p - p_filesz p)]
      else []).

(** The memory that loading [p] leaves. *)
Definition segment_written (p : Elf32_Phdr) (bytes : list byte)
    (m : Memory.image) : Memory.image :=
  let m1 := Memory.CopyToEmu (p_vaddr p) bytes m in
  if p_filesz p <? p_memsz p
  then Memory.Memset (to_u32 (p_vaddr p + p_filesz p)) 0
         (p_memsz p - p_filesz p) m1
  else m1.

(** The memory holds the image of [p]: the file bytes over [[0, filesz)]
    and zero over [[filesz, memsz)], from the virtual address on. *)
Definition segment_image (p : Elf32_Phdr) (bytes : list byte)
    (m : Memory.image) : Prop :=
  (forall k, 0 <= k < p_filesz p ->
             Memory.read m (p_vaddr p + k) = nth (Z.to_nat k) bytes x00)
  /\ (forall k, p_filesz p <= k < p_memsz p ->
                Memory.read m (p_vaddr p + k) = x00).

(** The addresses that loading [p] writes. *)
Definition segment_writes {D : Declarations}
    (only_in_mem1 : bool) (p : Elf32_Phdr) (a : Z) : Prop :=
  segment_loaded only_in_mem1 p = true
  /\ exists k, 0 <= k < Z.max (p_filesz p) (p_memsz p)
               /\ Memory.wrap a = Memory.wrap (p_vaddr p + k).

(** The memory once the first [n] program headers have been gone through. *)
Definition memory_after {D : Declarations}
    (r : ElfReader) (only_in_mem1 : bool) (n : Z) (m : Memory.image)
  : Memory.image :=
  snd (load_segments r only_in_mem1 (Z.to_nat n) 0 m).

(** The file extent of a segment that is to be loaded lies in the buffer. *)
Definition segment_in_file {D : Declarations}
    (r : ElfReader) (only_in_mem1 : bool) (i : Z) : Prop :=
  exists p, segment r i = Ok p
            /\ (segment_loaded only_in_mem1 p = true ->
                p_offset p + p_filesz p <= blen (m_bytes r)).

(** ** What the symbol database may receive *)

(** A call made for a symbol-table record of the image: the size is not
    zero and the low nibble of [st_info] is [STT_OBJECT] or [STT_FUNC],
    classified accordingly. *)
Definition emitted_from (r : ElfReader) (c : db_call) : Prop :=
  match c with
  | AddKnownSymbol value size name type =>
      size <> 0
      /\ exists off s,
           load_Sym (m_bytes r) off = Ok s
           /\ size = swap32 (st_size s)
           /\ ((Z.land (st_info s) 0xF = STT_OBJECT /\ type = Data)
               \/ (Z.land (st_info s) 0xF = STT_FUNC /\ type = Function))
  | Index => False
  end.

Definition is_Index (c : db_call) : bool :=
  match c with
  | Index => true
  | AddKnownSymbol _ _ _ _ => false
  end.

(** How many times the database was asked to index. *)
Definition index_calls (l : list db_call) : nat :=
  length (filter is_Index l).

(** ** Scanning for the instruction *)

(** Segment [i] can be scanned: the test for code answers and, for a code
    segment, the words of its file bytes lie in the buffer. *)
Definition scannable {D : Declarations} (r : ElfReader) (i : Z) : Prop :=
  exists c,
    IsCodeSegment r i = Ok c
    /\ (c = true ->
        exists p, segment r i = Ok p
                  /\ p_offset p + 4 * (p_filesz p / 4) <= blen (m_bytes r)).

(** Word [j] of code segment [i] matches the pattern under the mask. *)
Definition matching_word {D : Declarations} (r : ElfReader) (i j : Z)
  : Prop :=
  exists p w,
    IsCodeSegment r i = Ok true
    /\ segment r i = Ok p
    /\ 0 <= j < p_filesz p / 4
    /\ get32 (m_bytes r) (p_offset p + 4 * j) = Ok w
    /\ hid4_match w = true.

(** The test of the heuristic on an instruction word as the file stores it
    (most significant byte first): the pattern [0x7c13fba6] under the mask
    [0xfc1fffff], the constants that [IsWii] swaps once. *)
Definition instruction_matches (insn : Z) : bool :=
  Z.land insn 0xfc1fffff =? 0x7c13fba6.

(** ** Fixture images *)

(** Files are big endian: the fields are written most significant byte
    first. *)
Definition be16 (v : Z) : list byte := rev (enc16 v).
Definition be32 (v : Z) : list byte := rev (enc32 v).

Definition elf_ident : list byte :=
  [x7f; x45; x4c; x46; x01; x02; x01; x00;
   x00; x00; x00; x00; x00; x00; x00; x00].

Definition mk_ehdr (ident : list byte)
    (type entry phoff shoff phnum shnum shstrndx : Z) : list byte :=
  ident ++ be16 type ++ be16 20 ++ be32 1 ++ be32 entry ++ be32 phoff
  ++ be32 shoff ++ be32 0 ++ be16 52 ++ be16 32 ++ be16 phnum ++ be16 40
  ++ be16 shnum ++ be16 shstrndx.

Definition mk_phdr (type offset vaddr filesz memsz flags : Z) : list byte :=
  be32 type ++ be32 offset ++ be32 vaddr ++ be32 vaddr ++ be32 filesz
  ++ be32 memsz ++ be32 flags ++ be32 4.

Definition mk_shdr (name type offset size link entsize : Z) : list byte :=
  be32 name ++ be32 type ++ be32 0 ++ be32 0 ++ be32 offset ++ be32 size
  ++ be32 link ++ be32 0 ++ be32 1 ++ be32 entsize.

Definition mk_sym (name value size info shndx : Z) : list byte :=
  be32 name ++ be32 value ++ be32 size ++ [z2b info; x00] ++ be16 shndx.

Definition blank_memory : Memory.image :=
  {| Memory.cells := fun _ => x00; Memory.calls := [] |}.

(** The reader that [Initialize] builds over a fixture, and its normalised
    header. *)
Definition reader_of (ptr : buffer) : ElfReader :=
  match Initialize ptr with
  | Ok r => r
  | _ => {| m_bytes := ptr; segments := 0; sections := 0;
            entryPoint := 0; bRelocate := true |}
  end.

Definition header_of (r : ElfReader) : Elf32_Ehdr :=
  match header r with
  | Ok h => h
  | _ => decode_Ehdr []
  end.

Definition segment_of (r : ElfReader) (i : Z) : Elf32_Phdr :=
  match segment r i with
  | Ok p => p
  | _ => decode_Phdr []
  end.

(** Two program headers, the first a [LOAD] segment of sixteen bytes [0xAA]
    with a memory size of thirty-two, the second not loadable. *)
Definition fixture_bss : buffer :=
  mk_ehdr elf_ident 2 0x80004000 52 0 2 0 0
  ++ mk_phdr 1 116 0x80004000 16 32 5
  ++ mk_phdr 4 0 0 0 0 0
  ++ repeat xaa 16.

(** A relocatable object ([ET_REL]) with one loadable segment. *)
Definition fixture_rel : buffer :=
  mk_ehdr elf_ident 1 0 52 0 1 0 0
  ++ mk_phdr 1 84 0x80004000 4 4 5
  ++ [xde; xad; xbe; xef].


(** An image whose identification bytes are all zero: neither the signature
    nor the class of ELF32. *)
Definition fixture_bad_ident : buffer :=
  mk_ehdr (repeat x00 16) 2 0x80004000 52 0 1 0 0
  ++ mk_phdr 1 84 0x80004000 4 4 5
  ++ [xde; xad; xbe; xef].

(** An executable with a symbol table.  Sections: the null section,
    [.symtab] (linked to section 2), [.strtab] and [.shstrtab].  Symbols:
    the null symbol, the function [main] (32 bytes), the object [data]
    (4 bytes), a section symbol [sect] (8 bytes) and a function [zero] of
    size zero. *)
Definition fixture_shstrtab : list byte :=
  [x00; x2e; x73; x79; x6d; x74; x61; x62; x00;
   x2e; x73; x74; x72; x74; x61; x62; x00;
   x2e; x73; x68; x73; x74; x72; x74; x61; x62; x00].

Definition fixture_strtab : list byte :=
  [x00; x6d; x61; x69; x6e; x00; x64; x61; x74; x61; x00;
   x73; x65; x63; x74; x00; x7a; x65; x72; x6f; x00].

Definition fixture_symtab : list byte :=
  mk_sym 0 0 0 0 0
  ++ mk_sym 1 0x80004000 32 0x12 1
  ++ mk_sym 6 0x80005000 4 0x11 2
  ++ mk_sym 11 0 8 0x03 1
  ++ mk_sym 16 0x80004020 0 0x12 1.

Definition fixture_symbols : buffer :=
  mk_ehdr elf_ident 2 0x80004000 0 180 0 4 3
  ++ fixture_shstrtab ++ fixture_strtab ++ fixture_symtab
  ++ mk_shdr 0 0 0 0 0 0
  ++ mk_shdr 1 2 100 80 2 16
  ++ mk_shdr 9 3 79 21 0 0
  ++ mk_shdr 17 3 52 27 0 0.

(** An executable with one code segment of three instruction words, the
    second being [word]; with [0x7c13fba6] it is the access to HID4 that
    [IsWii] looks for. *)
Definition wii_image (word : Z) : buffer :=
  mk_ehdr elf_ident 2 0x80004000 52 0 1 0 0
  ++ mk_phdr 1 84 0x80004000 12 12 5
  ++ be32 0x60000000 ++ be32 word ++ be32 0x4e800020.

Definition fixture_wii : buffer := wii_image 0x7c13fba6.

(** The same image with bit 21 of that word flipped, a bit of the register
    field, which the mask [0xfc1fffff] leaves out. *)
Definition fixture_wii_flipped : buffer :=
  wii_image (Z.lxor 0x7c13fba6 (2 ^ 21)).

(** The same image with bit 0 of that word flipped, a bit of the mask. *)
Definition fixture_wii_broken : buffer :=
  wii_image (Z.lxor 0x7c13fba6 (2 ^ 0)).

(** ** The structures as the file stores them *)

(** Fields read most significant byte first, the byte order of the images
    this loader is given. *)
Definition be16_at (bs : list byte) (k : nat) : Z :=
  256 * u8_at bs k + u8_at bs (k + 1).

Definition be32_at (bs : list byte) (k : nat) : Z :=
  16777216 * u8_at bs k + 65536 * u8_at bs (k + 1)
  + 256 * u8_at bs (k + 2) + u8_at bs (k + 3).

Definition file_Ehdr (bs : list byte) : Elf32_Ehdr :=
  {| e_ident := firstn 16 bs;
     e_type := be16_at bs 16;
     e_machine := be16_at bs 18;
     e_version := be32_at bs 20;
     e_entry := be32_at bs 24;
     e_phoff := be32_at bs 28;
     e_shoff := be32_at bs 32;
     e_flags := be32_at bs 36;
     e_ehsize := be16_at bs 40;
     e_phentsize := be16_at bs 42;
     e_phnum := be16_at bs 44;
     e_shentsize := be16_at bs 46;
     e_shnum := be16_at bs 48;
     e_shstrndx := be16_at bs 50 |}.

Definition file_Phdr (bs : list byte) : Elf32_Phdr :=
  {| p_type := be32_at bs 0;
     p_offset := be32_at bs 4;
     p_vaddr := be32_at bs 8;
     p_paddr := be32_at bs 12;
     p_filesz := be32_at bs 16;
     p_memsz := be32_at bs 20;
     p_flags := be32_at bs 24;
     p_align := be32_at bs 28 |}.

Definition file_Shdr (bs : list byte) : Elf32_Shdr :=
  {| sh_name := be32_at bs 0;
     sh_type := be32_at bs 4;
     sh_flags := be32_at bs 8;
     sh_addr := be32_at bs 12;
     sh_offset := be32_at bs 16;
     sh_size := be32_at bs 20;
     sh_link := be32_at bs 24;
     sh_info := be32_at bs 28;
     sh_addralign := be32_at bs 32;
     sh_entsize := be32_at bs 36 |}.

(** The bytes of a structure of [size] bytes at [off], empty when they do
    not lie in the buffer. *)
Definition bytes_at (buf : buffer) (off size : Z) : list byte :=
  match slice buf off size with
  | Ok bs => bs
  | _ => []
  end.

Definition words_Phdr (p : Elf32_Phdr) : list Z :=
  [p_type p; p_offset p; p_vaddr p; p_paddr p; p_filesz p; p_memsz p;
   p_flags p; p_align p].

Definition words_Shdr (s : Elf32_Shdr) : list Z :=
  [sh_name s; sh_type s; sh_flags s; sh_addr s; sh_offset s; sh_size s;
   sh_link s; sh_info s; sh_addralign s; sh_entsize s].

(** The region of [n] bytes at [off] does not meet a table of [count]
    entries of [entry_size] bytes at [toff]. *)
Definition outside_table (off n toff count entry_size : Z) : Prop :=
  count = 0 \/ off + n <= toff \/ toff + entry_size * count <= off.

(** An executable with a program header, four bytes of code, a string
    table and two section headers. *)
Definition fixture_full : buffer :=
  mk_ehdr elf_ident 2 0x80004000 52 99 1 2 1
  ++ mk_phdr 1 84 0x80004000 4 4 5
  ++ [xde; xad; xbe; xef]
  ++ [x00; x2e; x73; x68; x73; x74; x72; x74; x61; x62; x00]
  ++ mk_shdr 0 0 0 0 0 0
  ++ mk_shdr 1 3 88 11 0 0.

(** The header of an image, read in the byte order of the file. *)
Definition file_header (ptr : buffer) : Elf32_Ehdr :=
  file_Ehdr (bytes_at ptr 0 sizeof_Ehdr).

(** The image holds its header, and the two tables that the header declares
    lie in the image past the header. *)
Definition tables_in_image (ptr : buffer) : Prop :=
  sizeof_Ehdr <= blen ptr
  /\ table_in_buffer (e_phoff (file_header ptr)) (e_phnum (file_header ptr))
       sizeof_Phdr (blen ptr)
  /\ table_in_buffer (e_shoff (file_header ptr)) (e_shnum (file_header ptr))
       sizeof_Shdr (blen ptr).

(** The program-header table and the section-header table do not overlap. *)
Definition tables_apart (ptr : buffer) : Prop :=
  e_phnum (file_header ptr) = 0
  \/ outside_table (e_phoff (file_header ptr))
       (sizeof_Phdr * e_phnum (file_header ptr))
       (e_shoff (file_header ptr)) (e_shnum (file_header ptr)) sizeof_Shdr.

(** An image whose program-header table starts inside the header, at
    offset 41: the first word of its only entry covers the count
    [e_phnum]. *)
Definition fixture_overlap : buffer :=
  mk_ehdr elf_ident 2 0x80004000 41 0 1 0 0 ++ repeat x00 32.

(** The image of [fixture_symbols] with a string-table index that names no
    section. *)
Definition fixture_nameless : buffer :=
  mk_ehdr elf_ident 2 0x80004000 0 180 0 4 9 ++ skipn 52 fixture_symbols.

(** Two loadable segments that overlap in memory, and a third that is not
    loaded. *)
Definition fixture_overlay : buffer :=
  mk_ehdr elf_ident 2 0x80004000 52 0 3 0 0
  ++ mk_phdr 1 148 0x00004000 8 16 5
  ++ mk_phdr 1 156 0x00004004 4 4 6
  ++ mk_phdr 4 0 0 0 0 0
  ++ [x11; x22; x33; x44; x55; x66; x77; x88]
  ++ [xaa; xbb; xcc; xdd].

(** ** The symbols of the table *)

(** Record [sym] of the symbol table at [symtab], whose names are found
    from [stringBase], is the one that the call [c] adds to the database:
    its size is not zero, its type nibble is [STT_OBJECT] or [STT_FUNC], the
    name is the C string at [stringBase + swap32 st_name], and the address
    is [swap32 st_value], to which a relocatable image adds the base address
    of the symbol's section, in 32 bits. *)
Definition symbol_of {D : Declarations} (r : ElfReader)
    (stringBase symtab sym : Z) (c : db_call) : Prop :=
  exists s,
    load_Sym (m_bytes r) (symtab + sizeof_Sym * sym) = Ok s
    /\ match c with
       | AddKnownSymbol value size name type =>
           size = swap32 (st_size s)
           /\ size <> 0
           /\ ((Z.land (st_info s) 0xF = STT_OBJECT /\ type = Data)
               \/ (Z.land (st_info s) 0xF = STT_FUNC /\ type = Function))
           /\ cstring (m_bytes r) (stringBase + swap32 (st_name s)) = Ok name
           /\ (if bRelocate r
               then exists a,
                      sectionAddrs (swap16 (st_shndx s)) = Ok a
                      /\ value = (swap32 (st_value s) + a) mod 4294967296
               else value = swap32 (st_value s))
       | Index => False
       end.

(** Indices in strictly increasing order, none below [lo]. *)
Fixpoint ascending_from (lo : Z) (l : list Z) : Prop :=
  match l with
  | [] => True
  | k :: l' => lo <= k /\ ascending_from (k + 1) l'
  end.

(** A code segment that declares sixteen words of which the file holds only
    the first two, the second being the access to HID4, followed by a code
    segment whose bytes would lie far past the end of the file. *)
Definition fixture_wii_cut : buffer :=
  mk_ehdr elf_ident 2 0x80004000 52 0 2 0 0
  ++ mk_phdr 1 116 0x80004000 64 64 5
  ++ mk_phdr 1 4096 0x80005000 64 64 5
  ++ be32 0x60000000 ++ be32 0x7c13fba6.

(** The same image without the access to HID4. *)
Definition fixture_wii_cut_plain : buffer :=
  mk_ehdr elf_ident 2 0x80004000 52 0 2 0 0
  ++ mk_phdr 1 116 0x80004000 64 64 5
  ++ mk_phdr 1 4096 0x80005000 64 64 5
  ++ be32 0x60000000 ++ be32 0x4e800020.

(** A loadable segment without file bytes, eight bytes to zero, whose file
    offset points far past the end of the file, followed by a segment of
    four bytes. *)
Definition fixture_empty_segment : buffer :=
  mk_ehdr elf_ident 2 0x80004000 52 0 2 0 0
  ++ mk_phdr 1 4096 0x00004000 0 8 6
  ++ mk_phdr 1 116 0x00005000 4 4 5
  ++ [xde; xad; xbe; xef].

(** An image whose program-header table starts at offset 0, over the
    identification bytes. *)
Definition fixture_table_over_ident : buffer :=
  mk_ehdr elf_ident 2 0x80004000 0 0 1 0 0.

(** * Properties *)

(** ** Bytes and words *)

Lemma b2z_range (b : byte) : 0 <= b2z b < 256.
Proof.
  unfold b2z. pose proof (Byte.to_N_bounded b). lia.
Qed.

Lemma b2z_z2b (z : Z) : b2z (z2b z) = z mod 256.
Proof.
  unfold b2z, z2b.
  assert (Hz : 0 <= z mod 256 < 256) by (apply Z.mod_pos_bound; lia).
  destruct (Byte.of_N (Z.to_N (z mod 256))) as [b|] eqn:E.
  - apply Byte.to_of_N in E. rewrite E. lia.
  - exfalso.
    pose proof (Byte.to_of_N_option_map (Z.to_N (z mod 256))) as H.
    rewrite E in H. simpl in H.
    destruct (N.leb_spec (Z.to_N (z mod 256)) 255); [discriminate | lia].
Qed.

Lemma z2b_b2z (b : byte) : z2b (b2z b) = b.
Proof.
  unfold z2b. pose proof (b2z_range b) as Hb.
  rewrite Z.mod_small by lia. unfold b2z. rewrite N2Z.id.
  now rewrite Byte.of_to_N.
Qed.

Lemma u8_at_range bs k : 0 <= u8_at bs k < 256.
Proof. apply b2z_range. Qed.

Lemma u16_at_range bs k : 0 <= u16_at bs k < 65536.
Proof.
  unfold u16_at.
  pose proof (u8_at_range bs k). pose proof (u8_at_range bs (k + 1)). lia.
Qed.

Lemma u32_at_range bs k : 0 <= u32_at bs k < 4294967296.
Proof.
  unfold u32_at.
  pose proof (u8_at_range bs k). pose proof (u8_at_range bs (k + 1)).
  pose proof (u8_at_range bs (k + 2)). pose proof (u8_at_range bs (k + 3)).
  lia.
Qed.

Lemma lor_disjoint_add a b k :
  0 <= k -> 0 <= a < 2 ^ k -> Z.lor a (b * 2 ^ k) = a + b * 2 ^ k.
Proof.
  intros Hk Ha.
  rewrite <- Z.shiftl_mul_pow2 by lia.
  assert (Hl : Z.land a (Z.shiftl b k) = 0).
  { apply Z.bits_inj'. intros n Hn. rewrite Z.land_spec, Z.bits_0.
    destruct (Z_lt_le_dec n k).
    - rewrite Z.shiftl_spec_low by lia. apply andb_false_r.
    - destruct (Z.eq_dec a 0) as [->|]; [now rewrite Z.bits_0|].
      rewrite (Z.bits_above_log2 a n); [reflexivity|lia|].
      assert (Z.log2 a < k) by (apply Z.log2_lt_pow2; lia). lia. }
  rewrite <- Z.lxor_lor by exact Hl.
  symmetry. apply Z.add_nocarry_lxor. exact Hl.
Qed.

Lemma swap16_arith x :
  0 <= x < 65536 -> swap16 x = x / 256 + (x mod 256) * 256.
Proof.
  intros Hx. unfold swap16.
  rewrite Z.shiftr_div_pow2, Z.shiftl_mul_pow2 by lia.
  change 0xFFFF with (Z.ones 16). rewrite Z.land_ones by lia.
  change (2 ^ 8) with 256. change (2 ^ 16) with 65536.
  replace ((x * 256) mod 65536) with ((x mod 256) * 2 ^ 8).
  - apply lor_disjoint_add; [lia|]. change (2 ^ 8) with 256.
    Z.div_mod_to_equations; lia.
  - change (2 ^ 8) with 256. Z.div_mod_to_equations; lia.
Qed.

Lemma swap16_range x : 0 <= x < 65536 -> 0 <= swap16 x < 65536.
Proof.
  intros Hx. rewrite swap16_arith by lia. Z.div_mod_to_equations; lia.
Qed.

Lemma swap16_involutive x : 0 <= x < 65536 -> swap16 (swap16 x) = x.
Proof.
  intros Hx. rewrite (swap16_arith (swap16 x)) by (apply swap16_range; lia).
  rewrite swap16_arith by lia. Z.div_mod_to_equations; lia.
Qed.

Lemma swap32_arith x :
  0 <= x < 4294967296 ->
  swap32 x = swap16 (x mod 65536) * 65536 + swap16 (x / 65536).
Proof.
  intros Hx. unfold swap32.
  change 0xFFFF with (Z.ones 16). rewrite Z.land_ones by lia.
  rewrite Z.shiftr_div_pow2, Z.shiftl_mul_pow2 by lia.
  rewrite Z.lor_comm, lor_disjoint_add.
  - change (2 ^ 16) with 65536. lia.
  - lia.
  - change (2 ^ 16) with 65536.
    apply swap16_range. Z.div_mod_to_equations; lia.
Qed.

Lemma swap32_range x : 0 <= x < 4294967296 -> 0 <= swap32 x < 4294967296.
Proof.
  intros Hx. rewrite swap32_arith by lia.
  assert (0 <= swap16 (x mod 65536) < 65536)
    by (apply swap16_range; Z.div_mod_to_equations; lia).
  assert (0 <= swap16 (x / 65536) < 65536)
    by (apply swap16_range; Z.div_mod_to_equations; lia).
  lia.
Qed.

Lemma swap32_involutive x : 0 <= x < 4294967296 -> swap32 (swap32 x) = x.
Proof.
  intros Hx. rewrite (swap32_arith (swap32 x)) by (apply swap32_range; lia).
  rewrite swap32_arith by lia.
  assert (H1 : 0 <= swap16 (x mod 65536) < 65536)
    by (apply swap16_range; Z.div_mod_to_equations; lia).
  assert (H2 : 0 <= swap16 (x / 65536) < 65536)
    by (apply swap16_range; Z.div_mod_to_equations; lia).
  replace ((swap16 (x mod 65536) * 65536 + swap16 (x / 65536)) mod 65536)
    with (swap16 (x / 65536)) by (Z.div_mod_to_equations; lia).
  replace ((swap16 (x mod 65536) * 65536 + swap16 (x / 65536)) / 65536)
    with (swap16 (x mod 65536)) by (Z.div_mod_to_equations; lia).
  rewrite !swap16_involutive by (Z.div_mod_to_equations; lia).
  Z.div_mod_to_equations; lia.
Qed.

(** ** Slices of the buffer *)

Lemma slice_ok buf off n :
  0 <= off -> 0 <= n -> off + n <= blen buf ->
  slice buf off n = Ok (firstn (Z.to_nat n) (skipn (Z.to_nat off) buf)).
Proof.
  intros H1 H2 H3. unfold slice.
  destruct (Z.leb_spec 0 off); [|lia].
  destruct (Z.leb_spec 0 n); [|lia].
  destruct (Z.leb_spec (off + n) (blen buf)); [|lia].
  reflexivity.
Qed.

Lemma slice_inv buf off n bs :
  slice buf off n = Ok bs ->
  0 <= off /\ 0 <= n /\ off + n <= blen buf
  /\ bs = firstn (Z.to_nat n) (skipn (Z.to_nat off) buf).
Proof.
  unfold slice.
  destruct (Z.leb_spec 0 off); [|discriminate].
  destruct (Z.leb_spec 0 n); [|discriminate].
  destruct (Z.leb_spec (off + n) (blen buf)); [|discriminate].
  simpl. intros [= <-]. auto.
Qed.

Lemma slice_fault buf off n :
  off < 0 \/ n < 0 \/ blen buf < off + n -> slice buf off n = Fault.
Proof.
  intros H. unfold slice.
  destruct (Z.leb_spec 0 off); simpl; [|reflexivity].
  destruct (Z.leb_spec 0 n); simpl; [|reflexivity].
  destruct (Z.leb_spec (off + n) (blen buf)); [lia|reflexivity].
Qed.

Lemma slice_length buf off n bs :
  slice buf off n = Ok bs -> length bs = Z.to_nat n.
Proof.
  intros H. apply slice_inv in H. destruct H as (H1 & H2 & H3 & ->).
  unfold blen in H3.
  rewrite length_firstn, length_skipn. lia.
Qed.

Lemma copy_source_slice buf off n bs :
  slice buf off n = Ok bs -> copy_source buf off n = Ok bs.
Proof.
  unfold copy_source. destruct (Z.eqb_spec n 0) as [->|]; [|auto].
  intros H. apply slice_inv in H. destruct H as (_ & _ & _ & ->).
  reflexivity.
Qed.

Lemma copy_source_inv buf off n bs :
  copy_source buf off n = Ok bs ->
  (n = 0 /\ bs = []) \/ (n <> 0 /\ slice buf off n = Ok bs).
Proof.
  unfold copy_source. destruct (Z.eqb_spec n 0) as [->|Hn].
  - intros H. left. injection H as <-. auto.
  - intros H. right. auto.
Qed.

Lemma copy_source_blen buf off n bs :
  copy_source buf off n = Ok bs -> blen bs = n.
Proof.
  intros H. destruct (copy_source_inv _ _ _ _ H) as [[-> ->]|[_ Hs]].
  - reflexivity.
  - pose proof (slice_length _ _ _ _ Hs) as Hl.
    apply slice_inv in Hs. unfold blen. lia.
Qed.


Lemma slice_nth buf off n bs (k : nat) :
  slice buf off n = Ok bs -> (k < Z.to_nat n)%nat ->
  nth k bs x00 = nth (Z.to_nat off + k) buf x00.
Proof.
  intros H Hk. apply slice_inv in H. destruct H as (H1 & H2 & H3 & ->).
  rewrite nth_firstn.
  destruct (Nat.ltb_spec k (Z.to_nat n)); [|lia].
  apply nth_skipn.
Qed.

Lemma slice_ext buf buf' off n :
  blen buf' = blen buf ->
  (forall k : nat, Z.to_nat off <= k < Z.to_nat (off + n) ->
                   nth k buf' x00 = nth k buf x00)%nat ->
  slice buf' off n = slice buf off n.
Proof.
  intros Hlen Hnth.
  destruct (Z_lt_le_dec off 0);
    [rewrite !slice_fault by lia; reflexivity|].
  destruct (Z_lt_le_dec n 0);
    [rewrite !slice_fault by lia; reflexivity|].
  destruct (Z_lt_le_dec (blen buf) (off + n));
    [rewrite !slice_fault by lia; reflexivity|].
  rewrite !slice_ok by lia. f_equal.
  unfold blen in *.
  apply nth_ext with (d := x00) (d' := x00).
  - rewrite !length_firstn, !length_skipn. lia.
  - intros k Hk. rewrite length_firstn, length_skipn in Hk.
    rewrite !nth_firstn.
    destruct (Nat.ltb_spec k (Z.to_nat n)); [|reflexivity].
    rewrite !nth_skipn. apply Hnth. lia.
Qed.

Lemma splice_inv buf off bs buf' :
  splice buf off bs = Ok buf' ->
  0 <= off /\ off + blen bs <= blen buf
  /\ buf' = firstn (Z.to_nat off) buf ++ bs
            ++ skipn (Z.to_nat off + length bs) buf.
Proof.
  unfold splice.
  destruct (Z.leb_spec 0 off); [|discriminate].
  destruct (Z.leb_spec (off + blen bs) (blen buf)); [|discriminate].
  simpl. intros [= <-]. auto.
Qed.

Lemma splice_ok buf off bs :
  0 <= off -> off + blen bs <= blen buf ->
  exists buf', splice buf off bs = Ok buf'.
Proof.
  intros H1 H2. unfold splice.
  destruct (Z.leb_spec 0 off); [|lia].
  destruct (Z.leb_spec (off + blen bs) (blen buf)); [|lia].
  simpl. eauto.
Qed.

Lemma splice_blen buf off bs buf' :
  splice buf off bs = Ok buf' -> blen buf' = blen buf.
Proof.
  intros H. apply splice_inv in H. destruct H as (H1 & H2 & ->).
  unfold blen in *.
  rewrite !length_app, length_firstn, length_skipn. lia.
Qed.

Lemma splice_nth buf off bs buf' (k : nat) :
  splice buf off bs = Ok buf' ->
  nth k buf' x00 =
  if (Z.to_nat off <=? k)%nat && (k <? Z.to_nat off + length bs)%nat
  then nth (k - Z.to_nat off) bs x00
  else nth k buf x00.
Proof.
  intros H. apply splice_inv in H. destruct H as (H1 & H2 & ->).
  unfold blen in *.
  assert (Hf : length (firstn (Z.to_nat off) buf) = Z.to_nat off)
    by (rewrite length_firstn; lia).
  destruct (Nat.leb_spec (Z.to_nat off) k); simpl.
  - rewrite app_nth2 by lia. rewrite Hf.
    destruct (Nat.ltb_spec k (Z.to_nat off + length bs)).
    + apply app_nth1. lia.
    + rewrite app_nth2 by lia. rewrite nth_skipn. f_equal. lia.
  - rewrite app_nth1 by lia. rewrite nth_firstn.
    destruct (Nat.ltb_spec k (Z.to_nat off)); [reflexivity|lia].
Qed.

Lemma slice_splice_same buf off bs buf' :
  splice buf off bs = Ok buf' -> slice buf' off (blen bs) = Ok bs.
Proof.
  intros H. pose proof (splice_blen _ _ _ _ H) as Hlen.
  pose proof (splice_inv _ _ _ _ H) as (H1 & H2 & _).
  unfold blen in *.
  rewrite slice_ok by (unfold blen; lia). f_equal.
  apply nth_ext with (d := x00) (d' := x00).
  - rewrite length_firstn, length_skipn. lia.
  - intros k Hk. rewrite length_firstn, length_skipn in Hk.
    rewrite nth_firstn.
    destruct (Nat.ltb_spec k (Z.to_nat (Z.of_nat (length bs)))); [|lia].
    rewrite nth_skipn, (splice_nth _ _ _ _ _ H).
    destruct (Nat.leb_spec (Z.to_nat off) (Z.to_nat off + k)); [|lia].
    destruct (Nat.ltb_spec (Z.to_nat off + k) (Z.to_nat off + length bs));
      [|lia].
    simpl. f_equal. lia.
Qed.

Lemma slice_splice_frame buf off bs buf' off' n :
  splice buf off bs = Ok buf' ->
  off' + n <= off \/ off + blen bs <= off' ->
  slice buf' off' n = slice buf off' n.
Proof.
  intros H Hd. apply slice_ext.
  - eapply splice_blen; eauto.
  - intros k Hk. rewrite (splice_nth _ _ _ _ _ H).
    pose proof (splice_inv _ _ _ _ H) as (H1 & H2 & _).
    unfold blen in *.
    destruct (Nat.leb_spec (Z.to_nat off) k); simpl; [|reflexivity].
    destruct (Nat.ltb_spec k (Z.to_nat off + length bs)); [|reflexivity].
    lia.
Qed.

(** ** Inversion of sequenced computations *)

Lemma bind_Ok {A B : Type} (m : res A) (k : A -> res B) (b : B) :
  (x <- m ;; k x) = Ok b -> exists a, m = Ok a /\ k a = Ok b.
Proof.
  destruct m as [a| |]; simpl; intros H; try discriminate. eauto.
Qed.

Ltac bind_inv H :=
  let a := fresh "a" in
  let E := fresh "E" in
  apply bind_Ok in H; destruct H as (a & E & H).

Lemma Ok_inj {A : Type} (a b : A) : Ok a = Ok b -> a = b.
Proof. intros H. injection H as ->. reflexivity. Qed.

(** ** Relocatable images are refused *)

Lemma Initialize_bRelocate ptr r h :
  Initialize ptr = Ok r -> header r = Ok h ->
  bRelocate r = negb (e_type h =? ET_EXEC).
Proof.
  unfold Initialize. intros H Hh.
  bind_inv H. bind_inv H. bind_inv H. bind_inv H. bind_inv H. bind_inv H.
  injection H as <-. unfold header in Hh. cbn [m_bytes bRelocate] in *.
  congruence.
Qed.

(** C1.  An image that [Initialize] classified as relocatable (the type of
    its normalised header is not [ET_EXEC]) is refused by [LoadIntoMemory]:
    the call returns [false] and hands back the memory image as it received
    it, so neither [CopyToEmu] nor [Memset] was called, whatever the flag and
    the segment table are. *)
Theorem LoadIntoMemory_refuses_relocatable
    {D : Declarations} (ptr : buffer) (r : ElfReader) (h : Elf32_Ehdr)
    (only_in_mem1 : bool) (m : Memory.image) :
  Initialize ptr = Ok r ->
  header r = Ok h ->
  e_type h <> ET_EXEC ->
  LoadIntoMemory r only_in_mem1 m = (Ok false, m)
  /\ Memory.calls (snd (LoadIntoMemory r only_in_mem1 m)) = Memory.calls m.
Proof.
  intros Hinit Hh Hty.
  assert (Hrel : bRelocate r = true).
  { rewrite (Initialize_bRelocate _ _ _ Hinit Hh).
    destruct (Z.eqb_spec (e_type h) ET_EXEC); [contradiction | reflexivity]. }
  unfold LoadIntoMemory. rewrite Hrel. split; reflexivity.
Qed.

Lemma LoadIntoMemory_refuses_relocatable_witness :
  LoadIntoMemory (reader_of fixture_rel) false blank_memory
  = (Ok false, blank_memory)
  /\ Memory.calls
       (snd (LoadIntoMemory (reader_of fixture_rel) false blank_memory))
     = Memory.calls blank_memory.
Proof.
  apply (LoadIntoMemory_refuses_relocatable
           fixture_rel (reader_of fixture_rel)
           (header_of (reader_of fixture_rel)) false blank_memory).
  - vm_compute. reflexivity.
  - vm_compute. reflexivity.
  - vm_compute. discriminate.
Defined.

(** ** Endian normalisation of the header *)

Lemma load_Ehdr_wf buf off h : load_Ehdr buf off = Ok h -> wf_Ehdr h.
Proof.
  unfold load_Ehdr. intros H. bind_inv H. injection H as <-.
  pose proof (slice_length _ _ _ _ E) as Hl.
  unfold wf_Ehdr, decode_Ehdr, halfwords_Ehdr, words_Ehdr; cbn [e_ident e_type
    e_machine e_version e_entry e_phoff e_shoff e_flags e_ehsize e_phentsize
    e_phnum e_shentsize e_shnum e_shstrndx].
  split; [|split].
  - rewrite length_firstn, Hl. reflexivity.
  - repeat constructor; apply u16_at_range.
  - repeat constructor; apply u32_at_range.
Qed.

Lemma byteswapHeader_wf h : wf_Ehdr h -> wf_Ehdr (byteswapHeader h).
Proof.
  intros (Hi & H16 & H32). unfold wf_Ehdr. split; [exact Hi|].
  unfold halfwords_Ehdr, words_Ehdr in *. destruct h; cbn in *.
  repeat match goal with
         | H : Forall _ (_ :: _) |- _ => inversion H; subst; clear H
         end.
  split; repeat constructor;
    first [apply swap16_range | apply swap32_range]; assumption.
Qed.

Lemma byteswapHeader_involutive h :
  wf_Ehdr h -> byteswapHeader (byteswapHeader h) = h.
Proof.
  intros (Hi & H16 & H32).
  unfold halfwords_Ehdr, words_Ehdr in *. destruct h; cbn in *.
  repeat match goal with
         | H : Forall _ (_ :: _) |- _ => inversion H; subst; clear H
         end.
  unfold byteswapHeader; cbn.
  rewrite !swap16_involutive, !swap32_involutive by assumption.
  reflexivity.
Qed.

(** A second pass leaves a header as the first pass made it only if the
    first pass changed nothing, that is, if every field reads the same in
    both byte orders. *)
Lemma byteswapHeader_idempotent_iff h :
  wf_Ehdr h ->
  byteswapHeader (byteswapHeader h) = byteswapHeader h
  <-> byteswapHeader h = h.
Proof.
  intros Hwf. rewrite byteswapHeader_involutive by exact Hwf.
  split; intros H; symmetry; exact H.
Qed.

(** C9.  Normalising the header of a valid ELF32 image a second time does
    not leave the once-normalised header fixed: the second pass yields a
    different header (it undoes the first and gives back the raw, foreign
    order fields), so [byteswapHeader] is not idempotent there. *)
Theorem byteswapHeader_not_idempotent (ptr : buffer) (raw : Elf32_Ehdr) :
  load_Ehdr ptr 0 = Ok raw ->
  valid_elf32_header (byteswapHeader raw) ->
  byteswapHeader (byteswapHeader raw) <> byteswapHeader raw
  /\ byteswapHeader (byteswapHeader raw) = raw.
Proof.
  intros Hload (_ & _ & Hver & _).
  split.
  - intros Heq. apply (f_equal e_version) in Heq.
    cbn [byteswapHeader e_version] in Heq, Hver. rewrite Hver in Heq.
    vm_compute in Heq. discriminate.
  - apply byteswapHeader_involutive. eapply load_Ehdr_wf; eauto.
Qed.

Lemma byteswapHeader_not_idempotent_witness :
  byteswapHeader (byteswapHeader (decode_Ehdr (firstn 52 fixture_bss)))
  <> byteswapHeader (decode_Ehdr (firstn 52 fixture_bss))
  /\ byteswapHeader (byteswapHeader (decode_Ehdr (firstn 52 fixture_bss)))
     = decode_Ehdr (firstn 52 fixture_bss).
Proof.
  apply (byteswapHeader_not_idempotent fixture_bss).
  - vm_compute. reflexivity.
  - vm_compute. repeat split; reflexivity.
Defined.

(** ** Symbol extraction *)

Lemma to_u32_to_int32 x : to_u32 (to_int32 x) = x mod 4294967296.
Proof.
  unfold to_u32, to_int32.
  destruct (Z.ltb_spec (x mod 4294967296) 2147483648);
    Z.div_mod_to_equations; lia.
Qed.

Lemma load_Sym_size_range buf off s :
  load_Sym buf off = Ok s -> 0 <= st_size s < 4294967296.
Proof.
  unfold load_Sym. intros H. bind_inv H. injection H as <-.
  apply u32_at_range.
Qed.

Section SymbolExtraction.

Context {D : Declarations}.
Variable r : ElfReader.

Lemma symbol_entry_emits stringBase symtab sym c :
  symbol_entry r stringBase symtab sym = Ok (Some c) -> emitted_from r c.
Proof.
  unfold symbol_entry. destruct symtab as [tab|]; [|discriminate].
  intros H. bind_inv H. rename a into s.
  pose proof (swap32_range _ (load_Sym_size_range _ _ _ E)) as Hsz.
  destruct (Z.eqb_spec (to_int32 (swap32 (st_size s))) 0) as [|Hnz];
    [discriminate|].
  bind_inv H. rename a into value'.
  assert (Hsize : to_u32 (to_int32 (swap32 (st_size s))) = swap32 (st_size s))
    by (rewrite to_u32_to_int32; apply Z.mod_small; exact Hsz).
  assert (Hne : swap32 (st_size s) <> 0).
  { intros H0. apply Hnz. rewrite H0. reflexivity. }
  destruct (Z.eqb_spec (Z.land (st_info s) 15) STT_OBJECT) as [Hobj|Hnobj].
  - destruct stringBase as [b|]; [|discriminate].
    bind_inv H. injection H as <-. cbn [emitted_from]. rewrite Hsize.
    split; [exact Hne|]. exists (tab + sizeof_Sym * sym), s. auto.
  - destruct (Z.eqb_spec (Z.land (st_info s) 15) STT_FUNC) as [Hfun|Hnfun];
      [|discriminate].
    destruct stringBase as [b|]; [|discriminate].
    bind_inv H. injection H as <-. cbn [emitted_from]. rewrite Hsize.
    split; [exact Hne|]. exists (tab + sizeof_Sym * sym), s. auto.
Qed.

Lemma symbol_loop_shape stringBase symtab n :
  forall sym db hasSymbols,
  exists added,
    Forall (emitted_from r) added
    /\ snd (symbol_loop r stringBase symtab n sym db hasSymbols) = db ++ added
    /\ forall b,
         fst (symbol_loop r stringBase symtab n sym db hasSymbols) = Ok b ->
         b = hasSymbols || negb (Nat.eqb (length added) 0).
Proof.
  induction n as [|n IH]; intros sym db hasSymbols; cbn [symbol_loop].
  - exists []. rewrite app_nil_r. cbn. repeat split; auto.
    intros b [= <-]. now rewrite orb_false_r.
  - destruct (symbol_entry r stringBase symtab sym) as [[c|]| |] eqn:E;
      cbn [with_res].
    + destruct (IH (sym + 1) (db ++ [c]) true) as (added & Hall & Hdb & Hb).
      exists (c :: added). repeat split.
      * constructor; [eapply symbol_entry_emits; eauto | exact Hall].
      * rewrite Hdb, <- app_assoc. reflexivity.
      * intros b Hfst. rewrite (Hb b Hfst). cbn. now rewrite orb_true_r.
    + apply IH.
    + exists []. rewrite app_nil_r. cbn. repeat split; auto. discriminate.
    + exists []. rewrite app_nil_r. cbn. repeat split; auto. discriminate.
Qed.

(** The calls that one run of [LoadSymbols] adds to the database. *)
Lemma LoadSymbols_shape db :
  exists added,
    Forall (emitted_from r) added
    /\ match LoadSymbols r db with
       | (Ok b, db') =>
           db' = db ++ added ++ [Index]
           /\ b = negb (Nat.eqb (length added) 0)
       | (_, db') => db' = db ++ added
       end.
Proof.
  unfold LoadSymbols.
  destruct (GetSectionByName r symtab_name 0) as [sec| |]; cbn [with_res];
    try (exists []; rewrite app_nil_r; split; [constructor | reflexivity]).
  destruct (Z.eqb_spec sec (-1)).
  { exists []. split; [constructor|]. split; reflexivity. }
  destruct (section r sec) as [s| |]; cbn [with_res];
    try (exists []; rewrite app_nil_r; split; [constructor | reflexivity]).
  destruct (GetSectionDataPtr r (to_int32 (sh_link s))) as [stringBase| |];
    cbn [with_res];
    try (exists []; rewrite app_nil_r; split; [constructor | reflexivity]).
  destruct (GetSectionDataPtr r sec) as [symtab| |]; cbn [with_res];
    try (exists []; rewrite app_nil_r; split; [constructor | reflexivity]).
  destruct (symbol_loop_shape stringBase symtab
              (Z.to_nat (sh_size s / sizeof_Sym)) 0 db false)
    as (added & Hall & Hdb & Hb).
  exists added. split; [exact Hall|].
  destruct (symbol_loop r stringBase symtab
              (Z.to_nat (sh_size s / sizeof_Sym)) 0 db false)
    as [[b| |] db'] eqn:E; cbn [fst snd] in *.
  - split; [rewrite Hdb, app_assoc; reflexivity | exact (Hb b eq_refl)].
  - exact Hdb.
  - exact Hdb.
Qed.

End SymbolExtraction.

Lemma emitted_not_Index {D : Declarations} r added :
  Forall (emitted_from r) added -> index_calls added = 0%nat.
Proof.
  unfold index_calls. induction 1 as [|c l Hc _ IH]; [reflexivity|].
  destruct c; [exact IH | destruct Hc].
Qed.

Lemma index_calls_app l1 l2 :
  index_calls (l1 ++ l2) = (index_calls l1 + index_calls l2)%nat.
Proof. unfold index_calls. now rewrite filter_app, length_app. Qed.

Lemma symbol_loop_all_skipped {D : Declarations} r stringBase symtab n :
  forall sym db hasSymbols,
  (forall k, sym <= k < sym + Z.of_nat n ->
             symbol_entry r stringBase symtab k = Ok None) ->
  symbol_loop r stringBase symtab n sym db hasSymbols = (Ok hasSymbols, db).
Proof.
  induction n as [|n IH]; intros sym db hasSymbols Hskip; cbn [symbol_loop].
  - reflexivity.
  - rewrite (Hskip sym) by lia. cbn [with_res].
    apply IH. intros k Hk. apply Hskip. lia.
Qed.

(** C5.  Whatever the image is, every symbol that one run of [LoadSymbols]
    adds to the database has a size that is not zero and comes from a record
    whose type nibble (the low four bits of [st_info]) is [STT_OBJECT], and
    then it is classified [Data], or [STT_FUNC], and then it is classified
    [Function].  This holds of the calls made before a fault too. *)
Theorem LoadSymbols_emits_only_sized_objects_and_functions
    {D : Declarations} (r : ElfReader) (db : PPCSymbolDB) :
  exists new,
    snd (LoadSymbols r db) = db ++ new
    /\ forall value size name type,
         In (AddKnownSymbol value size name type) new ->
         size <> 0
         /\ exists off s,
              load_Sym (m_bytes r) off = Ok s
              /\ size = swap32 (st_size s)
              /\ ((Z.land (st_info s) 0xF = STT_OBJECT /\ type = Data)
                  \/ (Z.land (st_info s) 0xF = STT_FUNC /\ type = Function)).
Proof.
  destruct (LoadSymbols_shape r db) as (added & Hall & Hshape).
  assert (Hnew : exists tail,
             snd (LoadSymbols r db) = db ++ added ++ tail
             /\ (tail = [] \/ tail = [Index])).
  { destruct (LoadSymbols r db) as [[b| |] db']; cbn [snd].
    - exists [Index]. destruct Hshape as [-> _]. auto.
    - exists []. rewrite app_nil_r. auto.
    - exists []. rewrite app_nil_r. auto. }
  destruct Hnew as (tail & Hsnd & Htail).
  exists (added ++ tail). split; [exact Hsnd|].
  intros value size name type Hin.
  apply in_app_or in Hin. destruct Hin as [Hin|Hin].
  - rewrite Forall_forall in Hall. exact (Hall _ Hin).
  - destruct Htail as [->| ->]; [destruct Hin|].
    destruct Hin as [Hin|[]]. discriminate.
Qed.

Lemma symbol_loop_completes {D : Declarations} r stringBase symtab n :
  forall sym db hasSymbols,
  (forall k, sym <= k < sym + Z.of_nat n ->
             exists c, symbol_entry r stringBase symtab k = Ok c) ->
  exists b db',
    symbol_loop r stringBase symtab n sym db hasSymbols = (Ok b, db').
Proof.
  induction n as [|n IH]; intros sym db hasSymbols Hread; cbn [symbol_loop].
  - eauto.
  - destruct (Hread sym ltac:(lia)) as (c & ->). cbn [with_res].
    destruct c; apply IH; intros k Hk; apply Hread; lia.
Qed.

(** A symbol table is in place and each of its records can be gone
    through. *)
Lemma LoadSymbols_readable {D : Declarations} r db sec s stringBase symtab :
  GetSectionByName r symtab_name 0 = Ok sec ->
  sec <> -1 ->
  section r sec = Ok s ->
  GetSectionDataPtr r (to_int32 (sh_link s)) = Ok stringBase ->
  GetSectionDataPtr r sec = Ok symtab ->
  (forall sym, 0 <= sym < sh_size s / sizeof_Sym ->
               exists c, symbol_entry r stringBase symtab sym = Ok c) ->
  exists b added,
    LoadSymbols r db = (Ok b, db ++ added ++ [Index])
    /\ Forall (emitted_from r) added
    /\ b = negb (Nat.eqb (length added) 0)
    /\ ((forall sym, 0 <= sym < sh_size s / sizeof_Sym ->
                     symbol_entry r stringBase symtab sym = Ok None) ->
        added = []).
Proof.
  intros Hsec Hne Hs Hsb Hst Hread.
  assert (Hrun : exists b db', LoadSymbols r db = (Ok b, db')).
  { unfold LoadSymbols. rewrite Hsec. cbn [with_res].
    destruct (Z.eqb_spec sec (-1)); [contradiction|].
    rewrite Hs. cbn [with_res]. rewrite Hsb. cbn [with_res].
    rewrite Hst. cbn [with_res].
    destruct (symbol_loop_completes r stringBase symtab
                (Z.to_nat (sh_size s / sizeof_Sym)) 0 db false)
      as (b & db' & ->); [|eauto].
    intros k Hk. apply Hread.
    destruct (Z_lt_le_dec (sh_size s / sizeof_Sym) 0); lia. }
  destruct Hrun as (b & db' & Hrun).
  destruct (LoadSymbols_shape r db) as (added & Hall & Hshape).
  rewrite Hrun in Hshape. destruct Hshape as [-> ->].
  exists (negb (Nat.eqb (length added) 0)), added.
  split; [exact Hrun|]. split; [exact Hall|]. split; [reflexivity|].
  intros Hskip.
  assert (Hrun' : LoadSymbols r db = (Ok false, db ++ [Index])).
  { unfold LoadSymbols. rewrite Hsec. cbn [with_res].
    destruct (Z.eqb_spec sec (-1)); [contradiction|].
    rewrite Hs. cbn [with_res]. rewrite Hsb. cbn [with_res].
    rewrite Hst. cbn [with_res].
    rewrite symbol_loop_all_skipped; [reflexivity|].
    intros k Hk. apply Hskip.
    destruct (Z_lt_le_dec (sh_size s / sizeof_Sym) 0); lia. }
  rewrite Hrun in Hrun'. injection Hrun' as _ Hdb.
  apply app_inv_head in Hdb.
  change [Index] with ([] ++ [Index]) in Hdb at 2.
  apply app_inv_tail in Hdb. exact Hdb.
Qed.

(** C8.  The result of [LoadSymbols] tells whether a symbol was added.  When
    no section is called [.symtab] the call completes with [false], without
    a fault, having added no symbol.  When the table is in place and its
    records can be gone through, the call completes and its result is
    [true] exactly when at least one symbol was added; the same holds of
    every call that completes. *)
Theorem LoadSymbols_returns_whether_emitted
    {D : Declarations} (r : ElfReader) (db : PPCSymbolDB) :
  (GetSectionByName r symtab_name 0 = Ok (-1) ->
   LoadSymbols r db = (Ok false, db ++ [Index]))
  /\ (forall sec s stringBase symtab,
        GetSectionByName r symtab_name 0 = Ok sec ->
        sec <> -1 ->
        section r sec = Ok s ->
        GetSectionDataPtr r (to_int32 (sh_link s)) = Ok stringBase ->
        GetSectionDataPtr r sec = Ok symtab ->
        (forall sym, 0 <= sym < sh_size s / sizeof_Sym ->
                     exists c, symbol_entry r stringBase symtab sym = Ok c) ->
        exists b added,
          LoadSymbols r db = (Ok b, db ++ added ++ [Index])
          /\ Forall (emitted_from r) added
          /\ (b = true <-> added <> []))
  /\ forall b db',
       LoadSymbols r db = (Ok b, db') ->
       exists added,
         db' = db ++ added ++ [Index]
         /\ Forall (emitted_from r) added
         /\ (b = true <-> added <> []).
Proof.
  assert (Hiff : forall added : list db_call,
            negb (Nat.eqb (length added) 0) = true <-> added <> []).
  { intros [|c added]; cbn; split; congruence. }
  split; [|split].
  - intros Habsent. unfold LoadSymbols. rewrite Habsent. reflexivity.
  - intros sec s stringBase symtab Hsec Hne Hs Hsb Hst Hread.
    destruct (LoadSymbols_readable r db sec s stringBase symtab
                Hsec Hne Hs Hsb Hst Hread)
      as (b & added & Hrun & Hall & -> & _).
    exists (negb (Nat.eqb (length added) 0)), added. auto.
  - intros b db' Hrun.
    destruct (LoadSymbols_shape r db) as (added & Hall & Hshape).
    rewrite Hrun in Hshape. destruct Hshape as [-> ->].
    exists added. auto.
Qed.

(** C10.  [LoadSymbols] asks the database to index exactly once, and that
    is its last call, made after every symbol was added.  This is so when
    [.symtab] is absent (no symbol is added then), when the table is in
    place and its records can be gone through (no symbol is added if every
    record is skipped), and of every call that completes. *)
Theorem LoadSymbols_indexes_once
    {D : Declarations} (r : ElfReader) (db : PPCSymbolDB) :
  (GetSectionByName r symtab_name 0 = Ok (-1) ->
   LoadSymbols r db = (Ok false, db ++ [Index]))
  /\ (forall sec s stringBase symtab,
        GetSectionByName r symtab_name 0 = Ok sec ->
        sec <> -1 ->
        section r sec = Ok s ->
        GetSectionDataPtr r (to_int32 (sh_link s)) = Ok stringBase ->
        GetSectionDataPtr r sec = Ok symtab ->
        (forall sym, 0 <= sym < sh_size s / sizeof_Sym ->
                     exists c, symbol_entry r stringBase symtab sym = Ok c) ->
        exists b added,
          LoadSymbols r db = (Ok b, db ++ added ++ [Index])
          /\ index_calls added = 0%nat
          /\ index_calls (added ++ [Index]) = 1%nat
          /\ ((forall sym, 0 <= sym < sh_size s / sizeof_Sym ->
                           symbol_entry r stringBase symtab sym = Ok None) ->
              added = []))
  /\ forall b db',
       LoadSymbols r db = (Ok b, db') ->
       exists added,
         db' = db ++ added ++ [Index]
         /\ index_calls added = 0%nat
         /\ index_calls (added ++ [Index]) = 1%nat.
Proof.
  split; [|split].
  - intros Habsent. unfold LoadSymbols. rewrite Habsent. reflexivity.
  - intros sec s stringBase symtab Hsec Hne Hs Hsb Hst Hread.
    destruct (LoadSymbols_readable r db sec s stringBase symtab
                Hsec Hne Hs Hsb Hst Hread)
      as (b & added & Hrun & Hall & _ & Hskip).
    exists b, added. pose proof (emitted_not_Index r added Hall) as H0.
    repeat split; auto.
    rewrite index_calls_app, H0. reflexivity.
  - intros b db' Hrun.
    destruct (LoadSymbols_shape r db) as (added & Hall & Hshape).
    rewrite Hrun in Hshape. destruct Hshape as [-> _].
    exists added. pose proof (emitted_not_Index r added Hall) as H0.
    repeat split; auto.
    rewrite index_calls_app, H0. reflexivity.
Qed.

(** The symbols of the fixture: the null symbol, the section symbol and the
    function of size zero are left out. *)
Example fixture_symbols_run :
  LoadSymbols (reader_of fixture_symbols) []
  = (Ok true,
     [AddKnownSymbol 0x80004000 32 [x6d; x61; x69; x6e] Function;
      AddKnownSymbol 0x80005000 4 [x64; x61; x74; x61] Data;
      Index]).
Proof. vm_compute. reflexivity. Qed.

Lemma fixture_symbols_readable :
  forall sym,
    0 <= sym < sh_size (decode_Shdr
                          (firstn 40 (skipn 220
                             (m_bytes (reader_of fixture_symbols)))))
               / sizeof_Sym ->
    exists c,
      symbol_entry (reader_of fixture_symbols) (Some 79) (Some 100) sym
      = Ok c.
Proof.
  intros sym Hsym.
  assert (Hn : sh_size (decode_Shdr
                          (firstn 40 (skipn 220
                             (m_bytes (reader_of fixture_symbols)))))
               / sizeof_Sym = 5) by (vm_compute; reflexivity).
  rewrite Hn in Hsym.
  exists (match symbol_entry (reader_of fixture_symbols)
                  (Some 79) (Some 100) sym with
          | Ok c => c
          | _ => None
          end).
  assert (Hcases : sym = 0 \/ sym = 1 \/ sym = 2 \/ sym = 3 \/ sym = 4)
    by lia.
  destruct Hcases as [->|[->|[->|[->| ->]]]]; vm_compute; reflexivity.
Defined.

Lemma LoadSymbols_returns_whether_emitted_witness :
  LoadSymbols (reader_of fixture_bss) [] = (Ok false, [] ++ [Index])
  /\ (exists b added,
        LoadSymbols (reader_of fixture_symbols) []
        = (Ok b, [] ++ added ++ [Index])
        /\ Forall (emitted_from (reader_of fixture_symbols)) added
        /\ (b = true <-> added <> []))
  /\ exists added,
       snd (LoadSymbols (reader_of fixture_symbols) [])
       = [] ++ added ++ [Index]
       /\ Forall (emitted_from (reader_of fixture_symbols)) added
       /\ (true = true <-> added <> []).
Proof.
  split; [|split].
  - apply (proj1 (LoadSymbols_returns_whether_emitted
                    (reader_of fixture_bss) [])).
    vm_compute. reflexivity.
  - apply (proj1 (proj2 (LoadSymbols_returns_whether_emitted
                           (reader_of fixture_symbols) []))
             1 (decode_Shdr
                  (firstn 40 (skipn 220
                     (m_bytes (reader_of fixture_symbols)))))
             (Some 79) (Some 100)).
    + vm_compute. reflexivity.
    + discriminate.
    + vm_compute. reflexivity.
    + vm_compute. reflexivity.
    + vm_compute. reflexivity.
    + exact fixture_symbols_readable.
  - apply (proj2 (proj2 (LoadSymbols_returns_whether_emitted
                           (reader_of fixture_symbols) [])) true).
    vm_compute. reflexivity.
Defined.

Lemma LoadSymbols_indexes_once_witness :
  LoadSymbols (reader_of fixture_bss) [] = (Ok false, [] ++ [Index])
  /\ (exists b added,
        LoadSymbols (reader_of fixture_symbols) []
        = (Ok b, [] ++ added ++ [Index])
        /\ index_calls added = 0%nat
        /\ index_calls (added ++ [Index]) = 1%nat)
  /\ exists added,
       snd (LoadSymbols (reader_of fixture_symbols) [])
       = [] ++ added ++ [Index]
       /\ index_calls added = 0%nat
       /\ index_calls (added ++ [Index]) = 1%nat.
Proof.
  split; [|split].
  - apply (proj1 (LoadSymbols_indexes_once (reader_of fixture_bss) [])).
    vm_compute. reflexivity.
  - destruct (proj1 (proj2 (LoadSymbols_indexes_once
                              (reader_of fixture_symbols) []))
                1 (decode_Shdr
                     (firstn 40 (skipn 220
                        (m_bytes (reader_of fixture_symbols)))))
                (Some 79) (Some 100))
      as (b & added & Hrun & H0 & H1 & _).
    + vm_compute. reflexivity.
    + discriminate.
    + vm_compute. reflexivity.
    + vm_compute. reflexivity.
    + vm_compute. reflexivity.
    + exact fixture_symbols_readable.
    + exists b, added. auto.
  - apply (proj2 (proj2 (LoadSymbols_indexes_once
                           (reader_of fixture_symbols) [])) true).
    vm_compute. reflexivity.
Defined.

(** ** Lookup of a section by name *)

Lemma get8_skipn buf off b rest :
  0 <= off -> skipn (Z.to_nat off) buf = b :: rest ->
  get8 buf off = Ok b /\ skipn (Z.to_nat (off + 1)) buf = rest.
Proof.
  intros Hoff Hsk.
  assert (Hlen : off + 1 <= blen buf).
  { unfold blen. pose proof (length_skipn (Z.to_nat off) buf) as Hl.
    rewrite Hsk in Hl. cbn [length] in Hl. lia. }
  split.
  - unfold get8. rewrite slice_ok by lia. rewrite Hsk. reflexivity.
  - replace (Z.to_nat (off + 1)) with (1 + Z.to_nat off)%nat by lia.
    rewrite <- skipn_skipn, Hsk. reflexivity.
Qed.

Lemma strcmp_eq_take name :
  forall buf off s,
  0 <= off -> ~ In x00 name ->
  take_cstr (skipn (Z.to_nat off) buf) = Some s ->
  exists b, strcmp_eq name buf off = Ok b /\ (b = true <-> s = name).
Proof.
  induction name as [|c name IH]; intros buf off s Hoff Hnul Htake.
  - destruct (skipn (Z.to_nat off) buf) as [|b rest] eqn:Hsk;
      [discriminate|].
    destruct (get8_skipn _ _ _ _ Hoff Hsk) as [Hget _].
    cbn [strcmp_eq]. rewrite Hget. cbn [bind].
    exists (Byte.eqb b x00). split; [reflexivity|].
    cbn [take_cstr] in Htake.
    destruct (Byte.eqb b x00).
    + injection Htake as <-. tauto.
    + destruct (take_cstr rest); [|discriminate]. injection Htake as <-.
      split; discriminate.
  - destruct (skipn (Z.to_nat off) buf) as [|b rest] eqn:Hsk;
      [discriminate|].
    destruct (get8_skipn _ _ _ _ Hoff Hsk) as [Hget Hrest].
    cbn [strcmp_eq]. rewrite Hget. cbn [bind].
    assert (Hc : Byte.eqb c x00 = false).
    { destruct (Byte.eqb c x00) eqn:Ec; [|reflexivity].
      apply Byte.byte_dec_bl in Ec. subst c. exfalso. apply Hnul. now left. }
    rewrite Hc. cbn [take_cstr] in Htake.
    destruct (Byte.eqb b x00) eqn:Eb0.
    + injection Htake as <-.
      apply Byte.byte_dec_bl in Eb0. subst b.
      destruct (Byte.eqb x00 c) eqn:E0c.
      { apply Byte.byte_dec_bl in E0c. subst c. discriminate. }
      exists false. split; [reflexivity|]. split; discriminate.
    + destruct (take_cstr rest) as [s'|] eqn:Hrec; [|discriminate].
      injection Htake as <-.
      destruct (Byte.eqb b c) eqn:Ebc.
      * apply Byte.byte_dec_bl in Ebc. subst c.
        destruct (IH buf (off + 1) s') as (b' & Hcmp & Hiff).
        -- lia.
        -- intros Hin. apply Hnul. now right.
        -- rewrite Hrest. exact Hrec.
        -- exists b'. split; [exact Hcmp|]. rewrite Hiff.
           split; [intros ->; reflexivity | intros [= ->]; reflexivity].
      * exists false. split; [reflexivity|]. split; [discriminate|].
        intros [= -> _]. rewrite (Byte.byte_dec_lb eq_refl) in Ebc.
        discriminate.
Qed.

Lemma cstring_inv buf off s :
  cstring buf off = Ok s ->
  0 <= off /\ take_cstr (skipn (Z.to_nat off) buf) = Some s.
Proof.
  unfold cstring.
  destruct (Z.leb_spec 0 off); cbn [andb]; [|discriminate].
  destruct (off <? blen buf); [|discriminate].
  destruct (take_cstr (skipn (Z.to_nat off) buf)); [|discriminate].
  intros [= ->]. auto.
Qed.

Section SectionLookup.

Context {D : Declarations}.
Variable r : ElfReader.
Variable name : list byte.
Hypothesis name_is_a_string : ~ In x00 name.

(** The test of the loop of [GetSectionByName] decides whether the resolved
    name is [name]. *)
Lemma section_test j nm :
  resolved_name r j = Ok nm ->
  exists secname,
    GetSectionName r j = Ok secname
    /\ match secname with
       | Some p =>
           exists b, strcmp_eq name (m_bytes r) p = Ok b
                     /\ (b = true <-> nm = Some name)
       | None => nm = None
       end
    /\ (nm <> None ->
        exists s, section r j = Ok s /\ sh_type s <> SHT_NULL).
Proof.
  unfold resolved_name, GetSectionName. intros H.
  bind_inv H. rename a into s. rewrite E. cbn [bind].
  destruct (Z.eqb_spec (sh_type s) SHT_NULL) as [Hnull|Hnn].
  - injection H as <-. exists None. repeat split; auto. contradiction.
  - bind_inv H. rename a into h. rewrite E0. cbn [bind].
    bind_inv H. rename a into table. rewrite E1. cbn [bind].
    destruct table as [t|].
    + bind_inv H. rename a into str. injection H as <-.
      exists (Some (t + to_int32 (sh_name s))). split; [reflexivity|].
      split; [|intros _; eauto].
      apply cstring_inv in E2. destruct E2 as [Hoff Htake].
      destruct (strcmp_eq_take name _ _ _ Hoff name_is_a_string Htake)
        as (b & Hcmp & Hiff).
      exists b. split; [exact Hcmp|]. rewrite Hiff.
      split; [intros ->; reflexivity | intros [= ->]; reflexivity].
    + injection H as <-. exists None. repeat split; auto. contradiction.
Qed.

Lemma section_scan_first n :
  forall i,
  (forall j, i <= j < i + Z.of_nat n -> exists nm, resolved_name r j = Ok nm) ->
  exists found,
    section_scan r name n i = Ok found
    /\ ((found = -1
         /\ forall j, i <= j < i + Z.of_nat n ->
                      resolved_name r j <> Ok (Some name))
        \/ (i <= found < i + Z.of_nat n
            /\ resolved_name r found = Ok (Some name)
            /\ (forall j, i <= j < found ->
                          resolved_name r j <> Ok (Some name))
            /\ exists s, section r found = Ok s /\ sh_type s <> SHT_NULL)).
Proof.
  induction n as [|n IH]; intros i Hread.
  - exists (-1). split; [reflexivity|]. left. split; [reflexivity|].
    intros j Hj. lia.
  - destruct (Hread i ltac:(lia)) as (nm & Hnm).
    destruct (section_test i nm Hnm) as (secname & Hget & Htest & Htype).
    assert (Hrest : forall j, i + 1 <= j < i + 1 + Z.of_nat n ->
                              exists nm', resolved_name r j = Ok nm').
    { intros j Hj. apply Hread. lia. }
    destruct (IH (i + 1) Hrest) as (found & Hscan & Hfound).
    assert (Hnext : nm <> Some name ->
              exists found',
                Ok found = Ok found'
                /\ ((found' = -1
                     /\ forall j, i <= j < i + Z.of_nat (S n) ->
                                  resolved_name r j <> Ok (Some name))
                    \/ (i <= found' < i + Z.of_nat (S n)
                        /\ resolved_name r found' = Ok (Some name)
                        /\ (forall j, i <= j < found' ->
                                      resolved_name r j <> Ok (Some name))
                        /\ exists s, section r found' = Ok s
                                     /\ sh_type s <> SHT_NULL))).
    { intros Hneq. exists found. split; [reflexivity|].
      assert (Hi : resolved_name r i <> Ok (Some name))
        by (rewrite Hnm; intros [= ->]; contradiction).
      destruct Hfound as [[-> Hnone] | (Hrange & Hname & Hbefore & Hs)].
      - left. split; [reflexivity|]. intros j Hj.
        destruct (Z.eq_dec j i) as [->|]; [exact Hi | apply Hnone; lia].
      - right. split; [lia|]. split; [exact Hname|]. split; [|exact Hs].
        intros j Hj.
        destruct (Z.eq_dec j i) as [->|]; [exact Hi | apply Hbefore; lia]. }
    cbn [section_scan]. rewrite Hget. cbn [bind].
    destruct secname as [p|].
    + destruct Htest as (b & Hcmp & Hiff). rewrite Hcmp. cbn [bind].
      destruct b.
      * exists i. split; [reflexivity|]. right.
        assert (Heq : nm = Some name) by (apply Hiff; reflexivity).
        subst nm. split; [lia|]. split; [exact Hnm|]. split.
        -- intros j Hj. lia.
        -- apply Htype. discriminate.
      * rewrite Hscan. apply Hnext. intros Heq. apply Hiff in Heq.
        discriminate.
    + rewrite Hscan. apply Hnext. subst nm. discriminate.
Qed.

End SectionLookup.

(** C6.  [GetSectionByName name firstSection] returns the first index at or
    after [firstSection] of a section whose resolved name is exactly [name]
    (byte for byte), and [-1], its "none", when no section from
    [firstSection] on has that name; the section it returns is never of type
    null.  The names of the sections looked at are assumed readable, that
    is, terminated inside the buffer. *)
Theorem GetSectionByName_first_match
    {D : Declarations} (r : ElfReader) (name : list byte)
    (firstSection : Z) (h : Elf32_Ehdr) :
  header r = Ok h ->
  0 <= firstSection ->
  ~ In x00 name ->
  (forall j, firstSection <= j < e_shnum h ->
             exists nm, resolved_name r j = Ok nm) ->
  exists found,
    GetSectionByName r name firstSection = Ok found
    /\ ((found = -1
         /\ forall j, firstSection <= j < e_shnum h ->
                      resolved_name r j <> Ok (Some name))
        \/ (firstSection <= found < e_shnum h
            /\ resolved_name r found = Ok (Some name)
            /\ (forall j, firstSection <= j < found ->
                          resolved_name r j <> Ok (Some name))
            /\ exists s, section r found = Ok s /\ sh_type s <> SHT_NULL)).
Proof.
  intros Hh Hfirst Hname Hread.
  unfold GetSectionByName. rewrite Hh. cbn [bind].
  destruct (Z_lt_le_dec firstSection (e_shnum h)) as [Hlt|Hge].
  - destruct (section_scan_first r name Hname
                (Z.to_nat (e_shnum h - firstSection)) firstSection)
      as (found & Hscan & Hfound).
    + intros j Hj. apply Hread. lia.
    + exists found. split; [exact Hscan|].
      replace (firstSection + Z.of_nat (Z.to_nat (e_shnum h - firstSection)))
        with (e_shnum h) in Hfound by lia.
      exact Hfound.
  - replace (Z.to_nat (e_shnum h - firstSection)) with 0%nat by lia.
    exists (-1). split; [reflexivity|]. left. split; [reflexivity|].
    intros j Hj. lia.
Qed.

Lemma GetSectionByName_first_match_witness :
  exists found,
    GetSectionByName (reader_of fixture_symbols)
      [x2e; x73; x74; x72; x74; x61; x62] 0 = Ok found
    /\ ((found = -1
         /\ forall j,
              0 <= j < e_shnum (header_of (reader_of fixture_symbols)) ->
              resolved_name (reader_of fixture_symbols) j
              <> Ok (Some [x2e; x73; x74; x72; x74; x61; x62]))
        \/ (0 <= found < e_shnum (header_of (reader_of fixture_symbols))
            /\ resolved_name (reader_of fixture_symbols) found
               = Ok (Some [x2e; x73; x74; x72; x74; x61; x62])
            /\ (forall j, 0 <= j < found ->
                          resolved_name (reader_of fixture_symbols) j
                          <> Ok (Some [x2e; x73; x74; x72; x74; x61; x62]))
            /\ exists s, section (reader_of fixture_symbols) found = Ok s
                         /\ sh_type s <> SHT_NULL)).
Proof.
  apply (GetSectionByName_first_match (reader_of fixture_symbols)
           [x2e; x73; x74; x72; x74; x61; x62] 0
           (header_of (reader_of fixture_symbols))).
  - vm_compute. reflexivity.
  - lia.
  - cbn [In]. intros H.
    repeat (destruct H as [H|H]; [discriminate H|]). exact H.
  - intros j Hj.
    assert (Hn : e_shnum (header_of (reader_of fixture_symbols)) = 4)
      by (vm_compute; reflexivity).
    rewrite Hn in Hj.
    exists (match resolved_name (reader_of fixture_symbols) j with
            | Ok nm => nm
            | _ => None
            end).
    assert (Hcases : j = 0 \/ j = 1 \/ j = 2 \/ j = 3) by lia.
    destruct Hcases as [->|[->|[->| ->]]]; vm_compute; reflexivity.
Defined.

(** ** The memory image *)

Lemma wrap_wrap_sub x a : Memory.wrap (Memory.wrap x - a) = Memory.wrap (x - a).
Proof. unfold Memory.wrap. apply Zminus_mod_idemp_l. Qed.

Lemma wrap_sub_wrap x a : Memory.wrap (x - Memory.wrap a) = Memory.wrap (x - a).
Proof. unfold Memory.wrap. apply Zminus_mod_idemp_r. Qed.

Lemma wrap_small k : 0 <= k < 4294967296 -> Memory.wrap k = k.
Proof. intros H. unfold Memory.wrap. apply Z.mod_small. exact H. Qed.

Lemma wrap_offset a k : Memory.wrap (Memory.wrap (a + k) - a) = Memory.wrap k.
Proof. rewrite wrap_wrap_sub. f_equal. lia. Qed.

Lemma read_CopyToEmu a src m x :
  Memory.read (Memory.CopyToEmu a src m) x =
  if Memory.wrap (x - a) <? blen src
  then nth (Z.to_nat (Memory.wrap (x - a))) src x00
  else Memory.read m x.
Proof.
  unfold Memory.read, Memory.CopyToEmu. cbn [Memory.cells].
  rewrite wrap_wrap_sub. reflexivity.
Qed.

Lemma read_Memset a v n m x :
  Memory.read (Memory.Memset a v n m) x =
  if Memory.wrap (x - a) <? n then z2b v else Memory.read m x.
Proof.
  unfold Memory.read, Memory.Memset. cbn [Memory.cells].
  rewrite wrap_wrap_sub. reflexivity.
Qed.

Lemma wrap_eq_sub x y a :
  Memory.wrap x = Memory.wrap y -> Memory.wrap (x - a) = Memory.wrap (y - a).
Proof.
  intros H. rewrite <- (wrap_wrap_sub x), <- (wrap_wrap_sub y), H.
  reflexivity.
Qed.

Lemma load_Phdr_wf buf off p :
  load_Phdr buf off = Ok p ->
  is_u32 (p_vaddr p) /\ is_u32 (p_offset p)
  /\ is_u32 (p_filesz p) /\ is_u32 (p_memsz p).
Proof.
  unfold load_Phdr. intros H. bind_inv H. injection H as <-.
  cbn [decode_Phdr p_vaddr p_offset p_filesz p_memsz].
  repeat split; apply u32_at_range.
Qed.

(** ** Loading the segments *)

Section SegmentLoading.

Context {D : Declarations}.
Variable r : ElfReader.
Variable only_in_mem1 : bool.

Lemma load_segment_loaded i p bytes m :
  segment r i = Ok p ->
  segment_loaded only_in_mem1 p = true ->
  slice (m_bytes r) (p_offset p) (p_filesz p) = Ok bytes ->
  load_segment r only_in_mem1 i m = (Ok tt, segment_written p bytes m).
Proof.
  intros Hseg Hld Hsl. unfold load_segment, GetSegmentPtr.
  rewrite Hseg. cbn [with_res bind].
  unfold segment_loaded, segment_skipped in Hld.
  apply andb_true_iff in Hld. destruct Hld as [Hty Hsk].
  rewrite Hty. apply negb_true_iff in Hsk. rewrite Hsk.
  rewrite (copy_source_slice _ _ _ _ Hsl). reflexivity.
Qed.

Lemma load_segment_not_loaded i p m :
  segment r i = Ok p ->
  segment_loaded only_in_mem1 p = false ->
  load_segment r only_in_mem1 i m = (Ok tt, m).
Proof.
  intros Hseg Hld. unfold load_segment, GetSegmentPtr.
  rewrite Hseg. cbn [with_res bind].
  unfold segment_loaded, segment_skipped in Hld.
  destruct (p_type p =? PT_LOAD); [|reflexivity].
  cbn [andb] in Hld. apply negb_false_iff in Hld. rewrite Hld. reflexivity.
Qed.



Lemma written_calls p bytes m :
  Memory.calls (segment_written p bytes m)
  = Memory.calls m ++ segment_calls p bytes.
Proof.
  unfold segment_written, segment_calls.
  destruct (p_filesz p <? p_memsz p); cbn [Memory.calls Memory.Memset
    Memory.CopyToEmu]; [rewrite <- app_assoc|]; reflexivity.
Qed.

Lemma written_image p bytes m :
  is_u32 (p_filesz p) -> is_u32 (p_memsz p) ->
  blen bytes = p_filesz p ->
  segment_image p bytes (segment_written p bytes m).
Proof.
  unfold is_u32. intros Hf Hm Hlen.
  unfold segment_image, segment_written. split.
  - intros k Hk.
    assert (Hcopy : Memory.read (Memory.CopyToEmu (p_vaddr p) bytes m)
                      (p_vaddr p + k) = nth (Z.to_nat k) bytes x00).
    { rewrite read_CopyToEmu.
      replace (p_vaddr p + k - p_vaddr p) with k by lia.
      rewrite wrap_small by lia.
      destruct (Z.ltb_spec k (blen bytes)); [reflexivity | lia]. }
    destruct (Z.ltb_spec (p_filesz p) (p_memsz p)); [|exact Hcopy].
    rewrite read_Memset. unfold to_u32.
    fold (Memory.wrap (p_vaddr p + p_filesz p)).
    rewrite wrap_sub_wrap.
    replace (p_vaddr p + k - (p_vaddr p + p_filesz p))
      with (k - p_filesz p) by lia.
    assert (Hw : Memory.wrap (k - p_filesz p) = k - p_filesz p + 4294967296).
    { unfold Memory.wrap. symmetry.
      apply Z.mod_unique with (q := -1); lia. }
    rewrite Hw.
    destruct (Z.ltb_spec (k - p_filesz p + 4294967296)
                (p_memsz p - p_filesz p));
      [lia | exact Hcopy].
  - intros k Hk.
    destruct (Z.ltb_spec (p_filesz p) (p_memsz p)); [|lia].
    rewrite read_Memset. unfold to_u32.
    fold (Memory.wrap (p_vaddr p + p_filesz p)).
    rewrite wrap_sub_wrap.
    replace (p_vaddr p + k - (p_vaddr p + p_filesz p))
      with (k - p_filesz p) by lia.
    rewrite wrap_small by lia.
    destruct (Z.ltb_spec (k - p_filesz p) (p_memsz p - p_filesz p)); [|lia].
    rewrite <- (z2b_b2z x00). reflexivity.
Qed.

(** Loading [p] leaves alone the addresses it does not write. *)
Lemma written_frame p bytes m a :
  is_u32 (p_filesz p) -> is_u32 (p_memsz p) ->
  blen bytes = p_filesz p ->
  segment_loaded only_in_mem1 p = true ->
  ~ segment_writes only_in_mem1 p a ->
  Memory.read (segment_written p bytes m) a = Memory.read m a.
Proof.
  unfold is_u32. intros Hf Hm Hlen Hld Hnw. unfold segment_written.
  assert (Hout : forall k, 0 <= k < Z.max (p_filesz p) (p_memsz p) ->
                           Memory.wrap (a - p_vaddr p) <> k).
  { intros k Hk Heq. apply Hnw. split; [exact Hld|]. exists k.
    split; [exact Hk|].
    rewrite <- Heq. unfold Memory.wrap.
    rewrite Zplus_mod_idemp_r. f_equal. lia. }
  assert (Hpos : 0 <= Memory.wrap (a - p_vaddr p) < 4294967296)
    by (unfold Memory.wrap; apply Z.mod_pos_bound; lia).
  assert (Hcopy : Memory.read (Memory.CopyToEmu (p_vaddr p) bytes m) a
                  = Memory.read m a).
  { rewrite read_CopyToEmu.
    destruct (Z.ltb_spec (Memory.wrap (a - p_vaddr p)) (blen bytes));
      [|reflexivity].
    exfalso. apply (Hout (Memory.wrap (a - p_vaddr p))); lia. }
  destruct (Z.ltb_spec (p_filesz p) (p_memsz p)); [|exact Hcopy].
  rewrite read_Memset. unfold to_u32.
  fold (Memory.wrap (p_vaddr p + p_filesz p)). rewrite wrap_sub_wrap.
  destruct (Z.ltb_spec (Memory.wrap (a - (p_vaddr p + p_filesz p)))
              (p_memsz p - p_filesz p)) as [Hin|]; [|exact Hcopy].
  exfalso.
  assert (Hk : 0 <= Memory.wrap (a - (p_vaddr p + p_filesz p)))
    by (unfold Memory.wrap; apply Z.mod_pos_bound; lia).
  apply (Hout (Memory.wrap (a - (p_vaddr p + p_filesz p)) + p_filesz p));
    [lia|].
  unfold Memory.wrap in *.
  replace (a - p_vaddr p)
    with ((a - (p_vaddr p + p_filesz p)) + p_filesz p) by lia.
  rewrite <- Zplus_mod_idemp_l. apply Z.mod_small. lia.
Qed.

End SegmentLoading.

Section WholeLoad.

Context {D : Declarations}.
Variable r : ElfReader.
Variable only_in_mem1 : bool.

Lemma load_segments_app n1 :
  forall n2 i m,
  load_segments r only_in_mem1 (n1 + n2) i m =
  match load_segments r only_in_mem1 n1 i m with
  | (Ok _, m1) => load_segments r only_in_mem1 n2 (i + Z.of_nat n1) m1
  | (Fault, m1) => (Fault, m1)
  | (OutOfFuel, m1) => (OutOfFuel, m1)
  end.
Proof.
  induction n1 as [|n1 IH]; intros n2 i m.
  - cbn [load_segments Nat.add]. f_equal. lia.
  - cbn [load_segments Nat.add].
    destruct (load_segment r only_in_mem1 i m) as [[[]| |] m1];
      [|reflexivity|reflexivity].
    rewrite IH.
    replace (i + 1 + Z.of_nat n1) with (i + Z.of_nat (S n1)) by lia.
    reflexivity.
Qed.

Lemma load_segment_in_file i m :
  segment_in_file r only_in_mem1 i ->
  exists p,
    segment r i = Ok p
    /\ ((segment_loaded only_in_mem1 p = false
         /\ load_segment r only_in_mem1 i m = (Ok tt, m))
        \/ (segment_loaded only_in_mem1 p = true
            /\ exists bytes,
                 slice (m_bytes r) (p_offset p) (p_filesz p) = Ok bytes
                 /\ blen bytes = p_filesz p
                 /\ load_segment r only_in_mem1 i m
                    = (Ok tt, segment_written p bytes m))).
Proof.
  intros (p & Hseg & Hfile). exists p. split; [exact Hseg|].
  destruct (segment_loaded only_in_mem1 p) eqn:Hld.
  - right. split; [reflexivity|].
    destruct (load_Phdr_wf _ _ _ Hseg) as (_ & Ho & Hf & _).
    unfold is_u32 in *. specialize (Hfile eq_refl).
    pose proof (slice_ok (m_bytes r) (p_offset p) (p_filesz p)
                  ltac:(lia) ltac:(lia) Hfile) as Hsl.
    eexists. split; [exact Hsl|]. split.
    + unfold blen. rewrite (slice_length _ _ _ _ Hsl). lia.
    + apply load_segment_loaded; assumption.
  - left. split; [reflexivity|].
    apply load_segment_not_loaded with (p := p); assumption.
Qed.

Lemma load_segments_ok n :
  forall i m,
  (forall j, i <= j < i + Z.of_nat n -> segment_in_file r only_in_mem1 j) ->
  fst (load_segments r only_in_mem1 n i m) = Ok tt.
Proof.
  induction n as [|n IH]; intros i m Hfile; cbn [load_segments].
  - reflexivity.
  - destruct (load_segment_in_file i m (Hfile i ltac:(lia)))
      as (p & _ & [[_ ->] | (_ & bytes & _ & _ & ->)]);
      apply IH; intros j Hj; apply Hfile; lia.
Qed.

Lemma load_segments_frame n a :
  forall i m,
  (forall j, i <= j < i + Z.of_nat n -> segment_in_file r only_in_mem1 j) ->
  (forall j q, i <= j < i + Z.of_nat n -> segment r j = Ok q ->
               ~ segment_writes only_in_mem1 q a) ->
  Memory.read (snd (load_segments r only_in_mem1 n i m)) a = Memory.read m a.
Proof.
  induction n as [|n IH]; intros i m Hfile Hnw; cbn [load_segments].
  - reflexivity.
  - destruct (load_segment_in_file i m (Hfile i ltac:(lia)))
      as (p & Hseg & [[_ ->] | (Hld & bytes & _ & Hlen & ->)]).
    + apply IH; intros; [apply Hfile | eapply Hnw; eauto]; lia.
    + rewrite IH.
      * destruct (load_Phdr_wf _ _ _ Hseg) as (_ & _ & Hf & Hm).
        apply written_frame with (only_in_mem1 := only_in_mem1); auto.
        apply (Hnw i p); [lia | exact Hseg].
      * intros j Hj. apply Hfile. lia.
      * intros j q Hj Hq. apply (Hnw j q); [lia | exact Hq].
Qed.

Lemma memory_after_step i m :
  0 <= i ->
  (forall j, 0 <= j < i -> segment_in_file r only_in_mem1 j) ->
  memory_after r only_in_mem1 (i + 1) m
  = snd (load_segment r only_in_mem1 i (memory_after r only_in_mem1 i m)).
Proof.
  intros Hi Hfile. unfold memory_after.
  replace (Z.to_nat (i + 1)) with (Z.to_nat i + 1)%nat by lia.
  rewrite load_segments_app.
  pose proof (load_segments_ok (Z.to_nat i) 0 m) as Hok.
  destruct (load_segments r only_in_mem1 (Z.to_nat i) 0 m) as [[[]| |] m1];
    cbn [fst snd] in *;
    try (specialize (Hok ltac:(intros j Hj; apply Hfile; lia));
         discriminate).
  cbn [load_segments]. replace (0 + Z.of_nat (Z.to_nat i)) with i by lia.
  destruct (load_segment r only_in_mem1 i m1) as [[[]| |] m2]; reflexivity.
Qed.

Lemma memory_after_rest i n m :
  0 <= i <= n ->
  (forall j, 0 <= j < i -> segment_in_file r only_in_mem1 j) ->
  memory_after r only_in_mem1 n m
  = snd (load_segments r only_in_mem1 (Z.to_nat (n - i)) i
           (memory_after r only_in_mem1 i m)).
Proof.
  intros Hi Hfile. unfold memory_after.
  replace (Z.to_nat n) with (Z.to_nat i + Z.to_nat (n - i))%nat by lia.
  rewrite load_segments_app.
  pose proof (load_segments_ok (Z.to_nat i) 0 m) as Hok.
  destruct (load_segments r only_in_mem1 (Z.to_nat i) 0 m) as [[[]| |] m1];
    cbn [fst snd] in *;
    try (specialize (Hok ltac:(intros j Hj; apply Hfile; lia));
         discriminate).
  replace (0 + Z.of_nat (Z.to_nat i)) with i by lia. reflexivity.
Qed.

End WholeLoad.

(** C2.  On an executable image whose segments lie in the buffer,
    [LoadIntoMemory] completes with [true], and for every [LOAD] program
    header that the primary-region restriction does not skip it makes exactly
    these calls, in this order: a copy of the [filesz] bytes found in the
    buffer at the segment's file offset to its virtual address and, when
    [memsz > filesz], a zero fill of the [memsz - filesz] bytes that follow.
    Once the segment is loaded, the bytes [[0, filesz)] at the virtual
    address are the file bytes and the bytes [[filesz, memsz)] are zero; this
    is still so at the end of the load unless a later segment writes over
    them. *)
Theorem LoadIntoMemory_copies_and_zero_fills
    {D : Declarations} (r : ElfReader) (only_in_mem1 : bool)
    (m : Memory.image) (h : Elf32_Ehdr) :
  bRelocate r = false ->
  header r = Ok h ->
  (forall i, 0 <= i < e_phnum h -> segment_in_file r only_in_mem1 i) ->
  exists m',
    LoadIntoMemory r only_in_mem1 m = (Ok true, m')
    /\ m' = memory_after r only_in_mem1 (e_phnum h) m
    /\ forall i p,
         0 <= i < e_phnum h ->
         segment r i = Ok p ->
         segment_loaded only_in_mem1 p = true ->
         exists bytes,
           slice (m_bytes r) (p_offset p) (p_filesz p) = Ok bytes
           /\ Memory.calls (memory_after r only_in_mem1 (i + 1) m)
              = Memory.calls (memory_after r only_in_mem1 i m)
                ++ segment_calls p bytes
           /\ segment_image p bytes (memory_after r only_in_mem1 (i + 1) m)
           /\ ((forall j q k,
                  i < j < e_phnum h ->
                  segment r j = Ok q ->
                  0 <= k < Z.max (p_filesz p) (p_memsz p) ->
                  ~ segment_writes only_in_mem1 q (p_vaddr p + k)) ->
               segment_image p bytes m').
Proof.
  intros Hrel Hh Hfile.
  exists (memory_after r only_in_mem1 (e_phnum h) m).
  split; [|split; [reflexivity|]].
  - unfold LoadIntoMemory, memory_after. rewrite Hrel, Hh. cbn [with_res].
    pose proof (load_segments_ok r only_in_mem1 (Z.to_nat (e_phnum h)) 0 m)
      as Hok.
    destruct (load_segments r only_in_mem1 (Z.to_nat (e_phnum h)) 0 m)
      as [[[]| |] m1]; cbn [fst snd] in *;
      try (specialize (Hok ltac:(intros j Hj; apply Hfile; lia));
           discriminate).
    reflexivity.
  - intros i p Hi Hseg Hld.
    assert (Hbefore : forall j, 0 <= j < i -> segment_in_file r only_in_mem1 j)
      by (intros j Hj; apply Hfile; lia).
    destruct (load_segment_in_file r only_in_mem1 i
                (memory_after r only_in_mem1 i m) (Hfile i Hi))
      as (p' & Hseg' & Hcase).
    rewrite Hseg in Hseg'. injection Hseg' as <-.
    destruct Hcase as [[Hnl _] | (_ & bytes & Hsl & Hlen & Hstep)];
      [congruence|].
    destruct (load_Phdr_wf _ _ _ Hseg) as (_ & _ & Hf & Hm).
    assert (Hafter : memory_after r only_in_mem1 (i + 1) m
                     = segment_written p bytes
                         (memory_after r only_in_mem1 i m)).
    { rewrite memory_after_step by (auto; lia). rewrite Hstep. reflexivity. }
    assert (Himg : segment_image p bytes
                     (memory_after r only_in_mem1 (i + 1) m)).
    { rewrite Hafter. apply written_image; assumption. }
    exists bytes. split; [exact Hsl|]. split; [|split; [exact Himg|]].
    + rewrite Hafter. apply written_calls.
    + intros Hlater.
      assert (Hkeep : forall k,
                0 <= k < Z.max (p_filesz p) (p_memsz p) ->
                Memory.read (memory_after r only_in_mem1 (e_phnum h) m)
                  (p_vaddr p + k)
                = Memory.read (memory_after r only_in_mem1 (i + 1) m)
                    (p_vaddr p + k)).
      { intros k Hk.
        rewrite (memory_after_rest r only_in_mem1 (i + 1) (e_phnum h) m)
          by (try lia; intros j Hj; apply Hfile; lia).
        apply load_segments_frame.
        - intros j Hj. apply Hfile. lia.
        - intros j q Hj Hq. apply (Hlater j q k); [lia | exact Hq | exact Hk]. }
      destruct Himg as [Hfilebytes Hzero]. unfold is_u32 in Hf, Hm. split.
      * intros k Hk. rewrite Hkeep by lia. apply Hfilebytes. exact Hk.
      * intros k Hk. rewrite Hkeep by lia. apply Hzero. exact Hk.
Qed.

Lemma fixture_bss_segments_in_file :
  forall i, 0 <= i < e_phnum (header_of (reader_of fixture_bss)) ->
            segment_in_file (reader_of fixture_bss) false i.
Proof.
  intros i Hi.
  assert (Hn : e_phnum (header_of (reader_of fixture_bss)) = 2)
    by (vm_compute; reflexivity).
  rewrite Hn in Hi.
  exists (segment_of (reader_of fixture_bss) i).
  assert (Hcases : i = 0 \/ i = 1) by lia.
  destruct Hcases as [-> | ->].
  - split; [vm_compute; reflexivity|]. intros _. vm_compute. discriminate.
  - split; [vm_compute; reflexivity|]. intros _. vm_compute. discriminate.
Defined.

Lemma LoadIntoMemory_copies_and_zero_fills_witness :
  exists m',
    LoadIntoMemory (reader_of fixture_bss) false blank_memory = (Ok true, m')
    /\ m' = memory_after (reader_of fixture_bss) false
              (e_phnum (header_of (reader_of fixture_bss))) blank_memory
    /\ forall i p,
         0 <= i < e_phnum (header_of (reader_of fixture_bss)) ->
         segment (reader_of fixture_bss) i = Ok p ->
         segment_loaded false p = true ->
         exists bytes,
           slice (m_bytes (reader_of fixture_bss)) (p_offset p) (p_filesz p)
           = Ok bytes
           /\ Memory.calls
                (memory_after (reader_of fixture_bss) false (i + 1)
                   blank_memory)
              = Memory.calls
                  (memory_after (reader_of fixture_bss) false i blank_memory)
                ++ segment_calls p bytes
           /\ segment_image p bytes
                (memory_after (reader_of fixture_bss) false (i + 1)
                   blank_memory)
           /\ ((forall j q k,
                  i < j < e_phnum (header_of (reader_of fixture_bss)) ->
                  segment (reader_of fixture_bss) j = Ok q ->
                  0 <= k < Z.max (p_filesz p) (p_memsz p) ->
                  ~ segment_writes false q (p_vaddr p + k)) ->
               segment_image p bytes m').
Proof.
  apply (LoadIntoMemory_copies_and_zero_fills
           (reader_of fixture_bss) false blank_memory
           (header_of (reader_of fixture_bss))).
  - vm_compute. reflexivity.
  - vm_compute. reflexivity.
  - exact fixture_bss_segments_in_file.
Defined.

(** The scenario of the specification: sixteen bytes [0xAA] at
    [0x80004000], then sixteen zero bytes, in a memory that held [0x55]
    everywhere. *)
Example fixture_bss_scenario :
  let m := {| Memory.cells := fun _ => x55; Memory.calls := [] |} in
  let m' := snd (LoadIntoMemory (reader_of fixture_bss) false m) in
  fst (LoadIntoMemory (reader_of fixture_bss) false m) = Ok true
  /\ map (fun k => Memory.read m' (0x80004000 + Z.of_nat k)) (seq 0 34)
     = repeat xaa 16 ++ repeat x00 16 ++ [x55; x55]
  /\ Memory.calls m'
     = [Memory.Copy 0x80004000 (repeat xaa 16);
        Memory.Fill 0x80004010 0 16].
Proof. vm_compute. repeat split; reflexivity. Qed.

(** ** Segments that end past the buffer *)






(** The segment without file bytes of [fixture_empty_segment] is loaded
    although its file offset is past the end of the file, and the load goes
    on to the next segment. *)
Example fixture_empty_segment_loaded :
  blen (m_bytes (reader_of fixture_empty_segment))
  < p_offset (segment_of (reader_of fixture_empty_segment) 0)
  /\ fst (LoadIntoMemory (reader_of fixture_empty_segment) false
            blank_memory) = Ok true
  /\ Memory.calls
       (snd (LoadIntoMemory (reader_of fixture_empty_segment) false
               blank_memory))
     = [Memory.Copy 0x4000 []; Memory.Fill 0x4000 0 8;
        Memory.Copy 0x5000 [xde; xad; xbe; xef]].
Proof. vm_compute. repeat split; reflexivity. Qed.

(** ** The console heuristic *)

Lemma get32_ok buf off :
  0 <= off -> off + 4 <= blen buf -> exists w, get32 buf off = Ok w.
Proof.
  intros H1 H2. unfold get32. rewrite slice_ok by lia. cbn [bind]. eauto.
Qed.

Lemma scan_words_spec buf code n :
  forall j,
  0 <= code -> 0 <= j -> code + 4 * (j + Z.of_nat n) <= blen buf ->
  exists b,
    scan_words buf code n j = Ok b
    /\ (b = true <->
        exists k w, j <= k < j + Z.of_nat n
                    /\ get32 buf (code + 4 * k) = Ok w
                    /\ hid4_match w = true).
Proof.
  induction n as [|n IH]; intros j Hc Hj Hlen; cbn [scan_words].
  - exists false. split; [reflexivity|]. split; [discriminate|].
    intros (k & w & Hk & _). lia.
  - destruct (get32_ok buf (code + 4 * j)) as (w & Hw); [lia | lia |].
    rewrite Hw. cbn [bind].
    destruct (hid4_match w) eqn:Hm.
    + exists true. split; [reflexivity|]. split; [|reflexivity].
      intros _. exists j, w. repeat split; auto; lia.
    + destruct (IH (j + 1)) as (b & Hscan & Hiff); [lia | lia | lia |].
      exists b. split; [exact Hscan|]. rewrite Hiff. split.
      * intros (k & w' & Hk & Hget & Hm'). exists k, w'.
        repeat split; auto; lia.
      * intros (k & w' & Hk & Hget & Hm').
        destruct (Z.eq_dec k j) as [->|Hne].
        -- rewrite Hw in Hget. injection Hget as <-. congruence.
        -- exists k, w'. repeat split; auto; lia.
Qed.

Lemma scan_segments_spec {D : Declarations} r n :
  forall i,
  (forall k, i <= k < i + Z.of_nat n -> scannable r k) ->
  exists b,
    scan_segments r n i = Ok b
    /\ (b = true <->
        exists k j, i <= k < i + Z.of_nat n /\ matching_word r k j).
Proof.
  induction n as [|n IH]; intros i Hscan; cbn [scan_segments].
  - exists false. split; [reflexivity|]. split; [discriminate|].
    intros (k & j & Hk & _). lia.
  - destruct (IH (i + 1)) as (b' & Hrest & Hiff').
    { intros k Hk. apply Hscan. lia. }
    assert (Hlater : (exists k j, i + 1 <= k < i + 1 + Z.of_nat n
                                  /\ matching_word r k j) ->
                     exists k j, i <= k < i + Z.of_nat (S n)
                                 /\ matching_word r k j).
    { intros (k & j & Hk & Hm). exists k, j. split; [lia | exact Hm]. }
    destruct (Hscan i ltac:(lia)) as (c & Hcode & Hfile).
    rewrite Hcode. cbn [bind]. destruct c.
    + destruct (Hfile eq_refl) as (p & Hseg & Hext).
      unfold GetSegmentPtr, GetSegmentSize. rewrite Hseg. cbn [bind].
      destruct (load_Phdr_wf _ _ _ Hseg) as (_ & Ho & Hf & _).
      unfold is_u32 in *.
      assert (Hq : 0 <= p_filesz p / 4) by (apply Z.div_pos; lia).
      destruct (scan_words_spec (m_bytes r) (p_offset p)
                  (Z.to_nat (p_filesz p / 4)) 0) as (hit & Hwords & Hhit);
        [lia | lia | lia |].
      rewrite Hwords. cbn [bind]. destruct hit.
      * exists true. split; [reflexivity|]. split; [|reflexivity].
        intros _. destruct (proj1 Hhit eq_refl) as (j & w & Hj & Hget & Hm).
        exists i, j. split; [lia|]. exists p, w.
        repeat split; auto; lia.
      * exists b'. split; [exact Hrest|]. rewrite Hiff'. split; [exact Hlater|].
        intros (k & j & Hk & Hm).
        destruct (Z.eq_dec k i) as [->|Hne].
        -- destruct Hm as (p' & w & _ & Hseg' & Hj & Hget & Hm).
           rewrite Hseg in Hseg'. injection Hseg' as <-.
           assert (Hfalse : false = true); [|discriminate].
           apply Hhit. exists j, w. repeat split; auto; lia.
        -- exists k, j. split; [lia | exact Hm].
    + exists b'. split; [exact Hrest|]. rewrite Hiff'. split; [exact Hlater|].
      intros (k & j & Hk & Hm).
      destruct (Z.eq_dec k i) as [->|Hne].
      * destruct Hm as (p' & w & Hc & _). congruence.
      * exists k, j. split; [lia | exact Hm].
Qed.

(** Flipping a bit that the mask leaves out does not change the masked
    word; flipping a bit of the mask does. *)
Lemma land_flip_outside w mask k :
  0 <= k -> Z.testbit mask k = false ->
  Z.land (Z.lxor w (2 ^ k)) mask = Z.land w mask.
Proof.
  intros Hk Hbit. apply Z.bits_inj'. intros n Hn.
  rewrite !Z.land_spec, Z.lxor_spec.
  destruct (Z.eq_dec n k) as [->|Hne].
  - rewrite Hbit, !andb_false_r. reflexivity.
  - rewrite Z.pow2_bits_false by lia. rewrite xorb_false_r. reflexivity.
Qed.

Lemma land_flip_inside w mask k :
  0 <= k -> Z.testbit mask k = true ->
  Z.land (Z.lxor w (2 ^ k)) mask <> Z.land w mask.
Proof.
  intros Hk Hbit Heq. apply (f_equal (fun z => Z.testbit z k)) in Heq.
  rewrite !Z.land_spec, Z.lxor_spec, Hbit, !andb_true_r in Heq.
  rewrite Z.pow2_bits_true in Heq by lia.
  destruct (Z.testbit w k); discriminate.
Qed.

Lemma testbit_above d n :
  0 <= d < 4294967296 -> 32 <= n -> Z.testbit d n = false.
Proof.
  intros [H0 H1] Hn. destruct (Z.eq_dec d 0) as [->|Hne]; [apply Z.bits_0|].
  apply Z.bits_above_log2; [lia|].
  assert (Z.log2 d < 32) by (apply Z.log2_lt_pow2; lia). lia.
Qed.

Lemma testbit_FFFF n : 0 <= n -> Z.testbit 0xFFFF n = (n <? 16).
Proof.
  intros. change 0xFFFF with (Z.ones 16). apply Z.testbit_ones_nonneg; lia.
Qed.

Ltac testbits d Hd :=
  repeat first
    [ rewrite Z.lor_spec
    | rewrite Z.land_spec
    | match goal with
      | |- context [Z.testbit ?a ?i] =>
          first [ rewrite (Z.testbit_neg_r a i) by lia
                | rewrite (testbit_above a i) by (first [exact Hd | lia]) ]
      | |- context [Z.testbit (Z.shiftr ?a ?k) ?i] =>
          rewrite (Z.shiftr_spec a k i) by lia
      | |- context [Z.testbit (Z.shiftl ?a ?k) ?i] =>
          rewrite (Z.shiftl_spec a k i) by lia
      | |- context [Z.testbit 65535 ?i] =>
          rewrite (testbit_FFFF i) by lia
      end ];
  repeat match goal with
         | |- context [?a <? ?b] => destruct (Z.ltb_spec a b); try lia
         end;
  cbn [andb orb];
  rewrite ?andb_true_r, ?andb_false_r, ?orb_false_r, ?orb_true_r;
  cbn [andb orb];
  try reflexivity;
  try (f_equal; lia).

(** [swap32] moves bit [n] of byte [b] to bit [n] of byte [3 - b]. *)
Lemma swap32_testbit d n :
  0 <= d < 4294967296 -> 0 <= n ->
  Z.testbit (swap32 d) n
  = if n <? 8 then Z.testbit d (n + 24)
    else if n <? 16 then Z.testbit d (n + 8)
    else if n <? 24 then Z.testbit d (n - 8)
    else if n <? 32 then Z.testbit d (n - 24)
    else false.
Proof.
  intros Hd Hn. unfold swap32, swap16.
  assert (Hcases : n < 8 \/ 8 <= n < 16 \/ 16 <= n < 24 \/ 24 <= n < 32
                   \/ 32 <= n) by lia.
  destruct Hcases as [H|[H|[H|[H|H]]]]; testbits d Hd.
Qed.

Lemma land_u32 a b :
  0 <= a < 4294967296 -> 0 <= b -> 0 <= Z.land a b < 4294967296.
Proof.
  intros Ha Hb.
  assert (H0 : 0 <= Z.land a b) by (apply Z.land_nonneg; lia).
  split; [exact H0|].
  destruct (Z.eq_dec (Z.land a b) 0) as [->|Hne]; [lia|].
  change 4294967296 with (2 ^ 32). apply Z.log2_lt_pow2; [lia|].
  destruct (Z_lt_le_dec (Z.log2 (Z.land a b)) 32) as [|Hge]; [assumption|].
  exfalso.
  pose proof (Z.bit_log2 (Z.land a b) ltac:(lia)) as Hbit.
  rewrite Z.land_spec, (testbit_above a) in Hbit by lia. discriminate.
Qed.

Lemma swap32_land a b :
  0 <= a < 4294967296 -> 0 <= b < 4294967296 ->
  swap32 (Z.land a b) = Z.land (swap32 a) (swap32 b).
Proof.
  intros Ha Hb.
  assert (Hab : 0 <= Z.land a b < 4294967296) by (apply land_u32; lia).
  apply Z.bits_inj'. intros n Hn.
  rewrite Z.land_spec, !swap32_testbit by (assumption || lia).
  repeat match goal with
         | |- context [?x <? ?y] => destruct (Z.ltb_spec x y); try lia
         end; rewrite ?Z.land_spec; reflexivity.
Qed.

(** The comparison of [IsWii], made on host-order words with swapped
    constants, is the comparison of the stored instruction with the
    constants as written. *)
Lemma hid4_match_instruction w :
  0 <= w < 4294967296 -> hid4_match w = instruction_matches (swap32 w).
Proof.
  intros Hw. unfold hid4_match, instruction_matches, HID4_mask, HID4_pattern.
  assert (Hm : 0 <= swap32 0xfc1fffff < 4294967296)
    by (apply swap32_range; lia).
  destruct (Z.eqb_spec (Z.land (swap32 w) 0xfc1fffff) 0x7c13fba6) as [He|Hne].
  - apply Z.eqb_eq.
    rewrite <- He. rewrite swap32_land by (try apply swap32_range; lia).
    rewrite swap32_involutive by lia. reflexivity.
  - apply Z.eqb_neq. intros He. apply Hne.
    apply (f_equal swap32) in He.
    rewrite swap32_land, !swap32_involutive in He by lia. exact He.
Qed.

(** C7 (as the code has it).  When every segment can be scanned, [IsWii]
    answers [true] exactly when some word of the file bytes of some code
    segment matches the pattern under the mask.  A word that matches still
    matches after one of its bits outside the mask is flipped, and no longer
    matches after one of its bits inside the mask is flipped. *)
Theorem IsWii_matches_under_mask
    {D : Declarations} (r : ElfReader) (n : Z) :
  GetNumSegments r = Ok n ->
  (forall i, 0 <= i < n -> scannable r i) ->
  (exists b,
     IsWii r = Ok b
     /\ (b = true <-> exists i j, 0 <= i < n /\ matching_word r i j))
  /\ (forall w, 0 <= w < 4294967296 ->
                hid4_match w = instruction_matches (swap32 w))
  /\ (forall insn k,
        0 <= k ->
        instruction_matches insn = true ->
        instruction_matches (Z.lxor insn (2 ^ k))
        = negb (Z.testbit 0xfc1fffff k)).
Proof.
  intros Hn Hscan. split; [|split].
  - unfold IsWii. rewrite Hn. cbn [bind].
    destruct (Z_lt_le_dec n 0) as [Hneg|Hpos].
    + replace (Z.to_nat n) with 0%nat by lia. cbn [scan_segments].
      exists false. split; [reflexivity|]. split; [discriminate|].
      intros (i & j & Hi & _). lia.
    + destruct (scan_segments_spec r (Z.to_nat n) 0) as (b & Hrun & Hiff).
      { intros k Hk. apply Hscan. lia. }
      exists b. split; [exact Hrun|]. rewrite Hiff.
      split; intros (i & j & Hi & Hm); exists i, j; (split; [lia | exact Hm]).
  - exact hid4_match_instruction.
  - intros insn k Hk Hm. unfold instruction_matches in *.
    apply Z.eqb_eq in Hm.
    destruct (Z.testbit 0xfc1fffff k) eqn:Hbit; cbn [negb].
    + apply Z.eqb_neq. rewrite <- Hm. apply land_flip_inside; assumption.
    + apply Z.eqb_eq. rewrite <- Hm. apply land_flip_outside; assumption.
Qed.

Lemma fixture_wii_scannable :
  forall i, 0 <= i < 1 -> scannable (reader_of fixture_wii) i.
Proof.
  intros i Hi. assert (i = 0) as -> by lia.
  exists true. split; [vm_compute; reflexivity|]. intros _.
  exists (segment_of (reader_of fixture_wii) 0).
  split; [vm_compute; reflexivity|]. vm_compute. discriminate.
Defined.

Lemma IsWii_matches_under_mask_witness :
  (exists b,
     IsWii (reader_of fixture_wii) = Ok b
     /\ (b = true <->
         exists i j, 0 <= i < 1 /\ matching_word (reader_of fixture_wii) i j))
  /\ (forall w, 0 <= w < 4294967296 ->
                hid4_match w = instruction_matches (swap32 w))
  /\ (forall insn k,
        0 <= k ->
        instruction_matches insn = true ->
        instruction_matches (Z.lxor insn (2 ^ k))
        = negb (Z.testbit 0xfc1fffff k)).
Proof.
  apply (IsWii_matches_under_mask (reader_of fixture_wii) 1).
  - vm_compute. reflexivity.
  - exact fixture_wii_scannable.
Defined.

(** The word [0x7c13fba6] of the fixture, altered in bit 21, which the mask
    leaves out, is still found; altered in bit 0, it is not. *)
Lemma IsWii_bit_outside_mask_counterexample :
  IsWii (reader_of fixture_wii) = Ok true
  /\ fixture_wii = wii_image 0x7c13fba6
  /\ fixture_wii_flipped = wii_image (Z.lxor 0x7c13fba6 (2 ^ 21))
  /\ Z.testbit 0xfc1fffff 21 = false
  /\ IsWii (reader_of fixture_wii_flipped) = Ok true
  /\ IsWii (reader_of fixture_wii_flipped) <> Ok false.
Proof.
  split; [vm_compute; reflexivity|].
  split; [reflexivity|].
  split; [reflexivity|].
  split; [vm_compute; reflexivity|].
  split; [vm_compute; reflexivity|].
  vm_compute. discriminate.
Qed.

Example fixture_wii_broken_not_found :
  Z.testbit 0xfc1fffff 0 = true
  /\ IsWii (reader_of fixture_wii_broken) = Ok false.
Proof. vm_compute. split; reflexivity. Qed.

(** ** Construction *)

Lemma enc16_dec v :
  is_u16 v -> b2z (z2b v) + 256 * b2z (z2b (v / 256)) = v.
Proof.
  unfold is_u16. intros Hv. rewrite !b2z_z2b. Z.div_mod_to_equations; lia.
Qed.

Lemma enc32_dec v :
  is_u32 v ->
  b2z (z2b v) + 256 * b2z (z2b (v / 256)) + 65536 * b2z (z2b (v / 65536))
  + 16777216 * b2z (z2b (v / 16777216)) = v.
Proof.
  unfold is_u32. intros Hv. rewrite !b2z_z2b. Z.div_mod_to_equations; lia.
Qed.

Lemma length_16 {A : Type} (l : list A) :
  length l = 16%nat ->
  exists a0 a1 a2 a3 a4 a5 a6 a7 a8 a9 a10 a11 a12 a13 a14 a15,
    l = [a0; a1; a2; a3; a4; a5; a6; a7; a8; a9; a10; a11; a12; a13; a14; a15].
Proof.
  intros H.
  do 16 (destruct l as [|? l]; [discriminate H|]).
  destruct l; [|discriminate H].
  repeat eexists.
Qed.

Lemma decode_encode_Ehdr h : wf_Ehdr h -> decode_Ehdr (encode_Ehdr h) = h.
Proof.
  intros (Hi & H16 & H32).
  unfold halfwords_Ehdr, words_Ehdr in *. destruct h; cbn in Hi, H16, H32.
  repeat match goal with
         | H : Forall _ (_ :: _) |- _ => inversion H; subst; clear H
         end.
  destruct (length_16 _ Hi)
    as (a0 & a1 & a2 & a3 & a4 & a5 & a6 & a7 & a8 & a9 & a10 & a11 & a12
        & a13 & a14 & a15 & ->).
  unfold decode_Ehdr, encode_Ehdr, encode_Ehdr_fields, enc16, enc32,
    u16_at, u32_at, u8_at.
  cbn [app nth firstn Nat.add e_ident e_type e_machine e_version e_entry
       e_phoff e_shoff e_flags e_ehsize e_phentsize e_phnum e_shentsize
       e_shnum e_shstrndx].
  rewrite !enc32_dec by assumption. rewrite !enc16_dec by assumption.
  reflexivity.
Qed.

Lemma blen_encode_Ehdr h :
  length (e_ident h) = 16%nat -> blen (encode_Ehdr h) = sizeof_Ehdr.
Proof.
  intros Hi. unfold blen, encode_Ehdr, encode_Ehdr_fields.
  rewrite length_app, Hi. reflexivity.
Qed.

Lemma blen_encode_Phdr p : blen (encode_Phdr p) = sizeof_Phdr.
Proof. reflexivity. Qed.

Lemma blen_encode_Shdr s : blen (encode_Shdr s) = sizeof_Shdr.
Proof. reflexivity. Qed.

Lemma load_store_Ehdr buf h buf' :
  wf_Ehdr h -> store_Ehdr buf 0 h = Ok buf' -> load_Ehdr buf' 0 = Ok h.
Proof.
  intros Hwf Hst. unfold store_Ehdr in Hst. unfold load_Ehdr.
  pose proof (slice_splice_same _ _ _ _ Hst) as Hsl.
  rewrite blen_encode_Ehdr in Hsl by apply Hwf.
  rewrite Hsl. cbn [bind]. rewrite decode_encode_Ehdr by exact Hwf.
  reflexivity.
Qed.

Lemma loop_budget_Z : Z.of_nat loop_budget = 65536.
Proof. unfold loop_budget. apply Z2Nat.id. lia. Qed.

Lemma load_Ehdr_counts buf off h :
  load_Ehdr buf off = Ok h -> 0 <= e_phnum h < 65536 /\ 0 <= e_shnum h < 65536.
Proof.
  unfold load_Ehdr. intros H. bind_inv H. injection H as <-.
  cbn [decode_Ehdr e_phnum e_shnum]. split; apply u16_at_range.
Qed.

(** The loops of [Initialize] end before their budget does. *)
Lemma swap_segments_terminates segs fuel :
  forall i buf,
  65536 <= i + Z.of_nat fuel -> swap_segments fuel i segs buf <> OutOfFuel.
Proof.
  induction fuel as [|fuel IH]; intros i buf Hfuel; cbn [swap_segments].
  - destruct (load_Ehdr buf 0) as [h| |] eqn:Hh; cbn [bind];
      [|discriminate|].
    + destruct (load_Ehdr_counts _ _ _ Hh) as [Hn _].
      destruct (Z.ltb_spec i (e_phnum h)); [lia | discriminate].
    + unfold load_Ehdr in Hh. destruct (slice buf 0 sizeof_Ehdr) eqn:Hs;
        try discriminate.
      unfold slice in Hs.
      destruct ((0 <=? 0) && (0 <=? sizeof_Ehdr)
                && (0 + sizeof_Ehdr <=? blen buf)); discriminate.
  - destruct (load_Ehdr buf 0) as [h| |] eqn:Hh; cbn [bind];
      [|discriminate|].
    + destruct (i <? e_phnum h); [|discriminate].
      unfold load_Phdr, store_Phdr, slice, splice.
      repeat match goal with
             | |- context [if ?c then _ else _] => destruct c; cbn [bind]
             end; try discriminate; apply IH; lia.
    + unfold load_Ehdr in Hh. destruct (slice buf 0 sizeof_Ehdr) eqn:Hs;
        try discriminate.
      unfold slice in Hs.
      destruct ((0 <=? 0) && (0 <=? sizeof_Ehdr)
                && (0 + sizeof_Ehdr <=? blen buf)); discriminate.
Qed.

Lemma swap_sections_terminates secs fuel :
  forall i buf,
  65536 <= i + Z.of_nat fuel -> swap_sections fuel i secs buf <> OutOfFuel.
Proof.
  induction fuel as [|fuel IH]; intros i buf Hfuel; cbn [swap_sections].
  - destruct (load_Ehdr buf 0) as [h| |] eqn:Hh; cbn [bind];
      [|discriminate|].
    + destruct (load_Ehdr_counts _ _ _ Hh) as [_ Hn].
      destruct (Z.ltb_spec i (e_shnum h)); [lia | discriminate].
    + unfold load_Ehdr in Hh. destruct (slice buf 0 sizeof_Ehdr) eqn:Hs;
        try discriminate.
      unfold slice in Hs.
      destruct ((0 <=? 0) && (0 <=? sizeof_Ehdr)
                && (0 + sizeof_Ehdr <=? blen buf)); discriminate.
  - destruct (load_Ehdr buf 0) as [h| |] eqn:Hh; cbn [bind];
      [|discriminate|].
    + destruct (i <? e_shnum h); [|discriminate].
      unfold load_Shdr, store_Shdr, slice, splice.
      repeat match goal with
             | |- context [if ?c then _ else _] => destruct c; cbn [bind]
             end; try discriminate; apply IH; lia.
    + unfold load_Ehdr in Hh. destruct (slice buf 0 sizeof_Ehdr) eqn:Hs;
        try discriminate.
      unfold slice in Hs.
      destruct ((0 <=? 0) && (0 <=? sizeof_Ehdr)
                && (0 + sizeof_Ehdr <=? blen buf)); discriminate.
Qed.

Lemma Initialize_terminates ptr : Initialize ptr <> OutOfFuel.
Proof.
  unfold Initialize, load_Ehdr, store_Ehdr, slice, splice.
  repeat match goal with
         | |- context [if ?c then _ else _] => destruct c; cbn [bind]
         end; try discriminate.
  all: match goal with
       | |- context [swap_segments ?f ?i ?s ?b] =>
           pose proof (swap_segments_terminates s f i b
                         ltac:(rewrite loop_budget_Z; lia)) as Hseg;
           destruct (swap_segments f i s b) as [buf2| |]; cbn [bind];
           [|discriminate|contradiction]
       end.
  all: match goal with
       | |- context [swap_sections ?f ?i ?s ?b] =>
           pose proof (swap_sections_terminates s f i b
                         ltac:(rewrite loop_budget_Z; lia)) as Hsec;
           destruct (swap_sections f i s b) as [buf3| |]; cbn [bind];
           [|discriminate|contradiction]
       end.
  all: repeat match goal with
         | |- context [if ?c then _ else _] => destruct c; cbn [bind]
         end; discriminate.
Qed.

(** * Construction in detail, and further properties *)

(** ** The byte order of the normalised structures *)

Lemma swap16_u16_at bs k : swap16 (u16_at bs k) = be16_at bs k.
Proof.
  pose proof (u16_at_range bs k) as Hr. rewrite swap16_arith by exact Hr.
  unfold u16_at, be16_at in *.
  pose proof (u8_at_range bs k). pose proof (u8_at_range bs (k + 1)).
  Z.div_mod_to_equations; lia.
Qed.

Lemma swap32_u32_at bs k : swap32 (u32_at bs k) = be32_at bs k.
Proof.
  pose proof (u32_at_range bs k) as Hr. rewrite swap32_arith by exact Hr.
  unfold u32_at, be32_at in *.
  pose proof (u8_at_range bs k) as H0.
  pose proof (u8_at_range bs (k + 1)) as H1.
  pose proof (u8_at_range bs (k + 2)) as H2.
  pose proof (u8_at_range bs (k + 3)) as H3.
  set (a := u8_at bs k) in *. set (b := u8_at bs (k + 1)) in *.
  set (c := u8_at bs (k + 2)) in *. set (d := u8_at bs (k + 3)) in *.
  replace ((a + 256 * b + 65536 * c + 16777216 * d) mod 65536)
    with (a + 256 * b) by (Z.div_mod_to_equations; lia).
  replace ((a + 256 * b + 65536 * c + 16777216 * d) / 65536)
    with (c + 256 * d) by (Z.div_mod_to_equations; lia).
  rewrite !swap16_arith by lia.
  Z.div_mod_to_equations; lia.
Qed.

Lemma byteswapHeader_decode bs :
  byteswapHeader (decode_Ehdr bs) = file_Ehdr bs.
Proof.
  unfold byteswapHeader, decode_Ehdr, file_Ehdr.
  cbn [e_ident e_type e_machine e_version e_entry e_phoff e_shoff e_flags
       e_ehsize e_phentsize e_phnum e_shentsize e_shnum e_shstrndx].
  rewrite !swap16_u16_at, !swap32_u32_at. reflexivity.
Qed.

Lemma byteswapSegment_decode bs :
  byteswapSegment (decode_Phdr bs) = file_Phdr bs.
Proof.
  unfold byteswapSegment, decode_Phdr, file_Phdr.
  cbn [p_type p_offset p_vaddr p_paddr p_filesz p_memsz p_flags p_align].
  rewrite !swap32_u32_at. reflexivity.
Qed.

Lemma byteswapSection_decode bs :
  byteswapSection (decode_Shdr bs) = file_Shdr bs.
Proof.
  unfold byteswapSection, decode_Shdr, file_Shdr.
  cbn [sh_name sh_type sh_flags sh_addr sh_offset sh_size sh_link sh_info
       sh_addralign sh_entsize].
  rewrite !swap32_u32_at. reflexivity.
Qed.

Ltac split_Forall :=
  repeat match goal with
         | H : Forall _ (_ :: _) |- _ => inversion H; subst; clear H
         end.

Lemma load_Phdr_words buf off p :
  load_Phdr buf off = Ok p -> Forall is_u32 (words_Phdr p).
Proof.
  unfold load_Phdr. intros H. bind_inv H. injection H as <-.
  unfold words_Phdr, decode_Phdr.
  cbn [p_type p_offset p_vaddr p_paddr p_filesz p_memsz p_flags p_align].
  repeat constructor; apply u32_at_range.
Qed.

Lemma load_Shdr_words buf off s :
  load_Shdr buf off = Ok s -> Forall is_u32 (words_Shdr s).
Proof.
  unfold load_Shdr. intros H. bind_inv H. injection H as <-.
  unfold words_Shdr, decode_Shdr.
  cbn [sh_name sh_type sh_flags sh_addr sh_offset sh_size sh_link sh_info
       sh_addralign sh_entsize].
  repeat constructor; apply u32_at_range.
Qed.

Lemma byteswapSegment_words p :
  Forall is_u32 (words_Phdr p) ->
  Forall is_u32 (words_Phdr (byteswapSegment p)).
Proof.
  unfold words_Phdr. destruct p; cbn. intros H. split_Forall.
  repeat constructor; apply swap32_range; assumption.
Qed.

Lemma byteswapSection_words s :
  Forall is_u32 (words_Shdr s) ->
  Forall is_u32 (words_Shdr (byteswapSection s)).
Proof.
  unfold words_Shdr. destruct s; cbn. intros H. split_Forall.
  repeat constructor; apply swap32_range; assumption.
Qed.

Lemma byteswapSegment_involutive p :
  Forall is_u32 (words_Phdr p) -> byteswapSegment (byteswapSegment p) = p.
Proof.
  unfold words_Phdr. destruct p; cbn. intros H. split_Forall.
  unfold byteswapSegment; cbn.
  rewrite !swap32_involutive by assumption. reflexivity.
Qed.

Lemma byteswapSection_involutive s :
  Forall is_u32 (words_Shdr s) -> byteswapSection (byteswapSection s) = s.
Proof.
  unfold words_Shdr. destruct s; cbn. intros H. split_Forall.
  unfold byteswapSection; cbn.
  rewrite !swap32_involutive by assumption. reflexivity.
Qed.

Lemma decode_encode_Phdr p :
  Forall is_u32 (words_Phdr p) -> decode_Phdr (encode_Phdr p) = p.
Proof.
  unfold words_Phdr. destruct p; cbn. intros H. split_Forall.
  unfold decode_Phdr, encode_Phdr, enc32, u32_at, u8_at.
  cbn [app nth Nat.add p_type p_offset p_vaddr p_paddr p_filesz p_memsz
       p_flags p_align].
  rewrite !enc32_dec by assumption. reflexivity.
Qed.

Lemma decode_encode_Shdr s :
  Forall is_u32 (words_Shdr s) -> decode_Shdr (encode_Shdr s) = s.
Proof.
  unfold words_Shdr. destruct s; cbn. intros H. split_Forall.
  unfold decode_Shdr, encode_Shdr, enc32, u32_at, u8_at.
  cbn [app nth Nat.add sh_name sh_type sh_flags sh_addr sh_offset sh_size
       sh_link sh_info sh_addralign sh_entsize].
  rewrite !enc32_dec by assumption. reflexivity.
Qed.

(** X1.  Swapping a program header or a section header twice gives back
    the header that was read: [byteswapSegment] and [byteswapSection] undo
    themselves on every structure read from a buffer. *)
Theorem byteswap_entries_involutive
    (buf : buffer) (off off' : Z) (p : Elf32_Phdr) (s : Elf32_Shdr) :
  load_Phdr buf off = Ok p ->
  load_Shdr buf off' = Ok s ->
  byteswapSegment (byteswapSegment p) = p
  /\ byteswapSection (byteswapSection s) = s.
Proof.
  intros Hp Hs. split.
  - apply byteswapSegment_involutive. eapply load_Phdr_words; eauto.
  - apply byteswapSection_involutive. eapply load_Shdr_words; eauto.
Qed.

Lemma byteswap_entries_involutive_witness :
  byteswapSegment (byteswapSegment (decode_Phdr (bytes_at fixture_full 52 32)))
  = decode_Phdr (bytes_at fixture_full 52 32)
  /\ byteswapSection
       (byteswapSection (decode_Shdr (bytes_at fixture_full 139 40)))
     = decode_Shdr (bytes_at fixture_full 139 40).
Proof.
  apply (byteswap_entries_involutive fixture_full 52 139).
  - vm_compute. reflexivity.
  - vm_compute. reflexivity.
Defined.

(** ** What construction does to the buffer *)

(** The loop over the program headers swaps each entry from [i] on once,
    and leaves the bytes before entry [i] and past the table alone. *)
Lemma swap_segments_spec h segs fuel :
  forall i buf,
  load_Ehdr buf 0 = Ok h ->
  0 <= i ->
  e_phnum h <= i + Z.of_nat fuel ->
  (i < e_phnum h ->
   sizeof_Ehdr <= segs /\ segs + sizeof_Phdr * e_phnum h <= blen buf) ->
  exists buf',
    swap_segments fuel i segs buf = Ok buf'
    /\ blen buf' = blen buf
    /\ (forall off n,
          e_phnum h <= i \/ off + n <= segs + sizeof_Phdr * i
          \/ segs + sizeof_Phdr * e_phnum h <= off ->
          slice buf' off n = slice buf off n)
    /\ (forall k p,
          i <= k < e_phnum h ->
          load_Phdr buf (segs + sizeof_Phdr * k) = Ok p ->
          load_Phdr buf' (segs + sizeof_Phdr * k) = Ok (byteswapSegment p)).
Proof.
  unfold sizeof_Ehdr, sizeof_Phdr.
  induction fuel as [|fuel IH]; intros i buf Hh Hi Hfuel Htab.
  - cbn [swap_segments]. rewrite Hh. cbn [bind].
    destruct (Z.ltb_spec i (e_phnum h)); [lia|].
    exists buf. repeat split; auto. intros k p Hk. lia.
  - cbn [swap_segments]. rewrite Hh. cbn [bind].
    destruct (Z.ltb_spec i (e_phnum h)) as [Hlt|Hge].
    2:{ exists buf. repeat split; auto. intros k p Hk. lia. }
    destruct (Htab Hlt) as [Hlo Hhi]. unfold sizeof_Phdr.
    destruct (load_Phdr buf (segs + 32 * i)) as [p0| |] eqn:Hp0.
    2,3: exfalso; unfold load_Phdr, sizeof_Phdr in Hp0;
         rewrite slice_ok in Hp0 by lia; discriminate.
    cbn [bind].
    pose proof (byteswapSegment_words _ (load_Phdr_words _ _ _ Hp0)) as Hwf.
    unfold store_Phdr.
    destruct (splice_ok buf (segs + 32 * i) (encode_Phdr (byteswapSegment p0)))
      as (buf1 & Hst);
      [lia | rewrite blen_encode_Phdr; unfold sizeof_Phdr; lia |].
    rewrite Hst. cbn [bind].
    pose proof (splice_blen _ _ _ _ Hst) as Hlen.
    assert (Hframe1 : forall off n,
              off + n <= segs + 32 * i \/ segs + 32 * (i + 1) <= off ->
              slice buf1 off n = slice buf off n).
    { intros off n Hd. apply (slice_splice_frame _ _ _ _ off n Hst).
      rewrite blen_encode_Phdr. unfold sizeof_Phdr. lia. }
    destruct (IH (i + 1) buf1) as (buf' & Hrun & Hlen' & Hframe & Hent).
    + unfold load_Ehdr in *. rewrite Hframe1 by (unfold sizeof_Ehdr; lia).
      exact Hh.
    + lia.
    + lia.
    + intros _. rewrite Hlen. lia.
    + exists buf'. split; [exact Hrun|]. split; [lia|]. split.
      * intros off n Hd. rewrite Hframe by lia. apply Hframe1. lia.
      * intros k p Hk Hp.
        destruct (Z.eq_dec k i) as [->|Hne].
        -- rewrite Hp0 in Hp. injection Hp as <-.
           unfold load_Phdr, sizeof_Phdr. rewrite Hframe by lia.
           pose proof (slice_splice_same _ _ _ _ Hst) as Hsame.
           rewrite blen_encode_Phdr in Hsame. unfold sizeof_Phdr in Hsame.
           rewrite Hsame. cbn [bind].
           rewrite decode_encode_Phdr by exact Hwf. reflexivity.
        -- apply Hent; [lia|].
           unfold load_Phdr, sizeof_Phdr in *.
           rewrite Hframe1 by lia. exact Hp.
Qed.

(** The loop over the section headers swaps each entry from [i] on once,
    and leaves the bytes before entry [i] and past the table alone. *)
Lemma swap_sections_spec h secs fuel :
  forall i buf,
  load_Ehdr buf 0 = Ok h ->
  0 <= i ->
  e_shnum h <= i + Z.of_nat fuel ->
  (i < e_shnum h ->
   sizeof_Ehdr <= secs /\ secs + sizeof_Shdr * e_shnum h <= blen buf) ->
  exists buf',
    swap_sections fuel i secs buf = Ok buf'
    /\ blen buf' = blen buf
    /\ (forall off n,
          e_shnum h <= i \/ off + n <= secs + sizeof_Shdr * i
          \/ secs + sizeof_Shdr * e_shnum h <= off ->
          slice buf' off n = slice buf off n)
    /\ (forall k p,
          i <= k < e_shnum h ->
          load_Shdr buf (secs + sizeof_Shdr * k) = Ok p ->
          load_Shdr buf' (secs + sizeof_Shdr * k) = Ok (byteswapSection p)).
Proof.
  unfold sizeof_Ehdr, sizeof_Shdr.
  induction fuel as [|fuel IH]; intros i buf Hh Hi Hfuel Htab.
  - cbn [swap_sections]. rewrite Hh. cbn [bind].
    destruct (Z.ltb_spec i (e_shnum h)); [lia|].
    exists buf. repeat split; auto. intros k p Hk. lia.
  - cbn [swap_sections]. rewrite Hh. cbn [bind].
    destruct (Z.ltb_spec i (e_shnum h)) as [Hlt|Hge].
    2:{ exists buf. repeat split; auto. intros k p Hk. lia. }
    destruct (Htab Hlt) as [Hlo Hhi]. unfold sizeof_Shdr.
    destruct (load_Shdr buf (secs + 40 * i)) as [s0| |] eqn:Hs0.
    2,3: exfalso; unfold load_Shdr, sizeof_Shdr in Hs0;
         rewrite slice_ok in Hs0 by lia; discriminate.
    cbn [bind].
    pose proof (byteswapSection_words _ (load_Shdr_words _ _ _ Hs0)) as Hwf.
    unfold store_Shdr.
    destruct (splice_ok buf (secs + 40 * i) (encode_Shdr (byteswapSection s0)))
      as (buf1 & Hst);
      [lia | rewrite blen_encode_Shdr; unfold sizeof_Shdr; lia |].
    rewrite Hst. cbn [bind].
    pose proof (splice_blen _ _ _ _ Hst) as Hlen.
    assert (Hframe1 : forall off n,
              off + n <= secs + 40 * i \/ secs + 40 * (i + 1) <= off ->
              slice buf1 off n = slice buf off n).
    { intros off n Hd. apply (slice_splice_frame _ _ _ _ off n Hst).
      rewrite blen_encode_Shdr. unfold sizeof_Shdr. lia. }
    destruct (IH (i + 1) buf1) as (buf' & Hrun & Hlen' & Hframe & Hent).
    + unfold load_Ehdr in *. rewrite Hframe1 by (unfold sizeof_Ehdr; lia).
      exact Hh.
    + lia.
    + lia.
    + intros _. rewrite Hlen. lia.
    + exists buf'. split; [exact Hrun|]. split; [lia|]. split.
      * intros off n Hd. rewrite Hframe by lia. apply Hframe1. lia.
      * intros k p Hk Hp.
        destruct (Z.eq_dec k i) as [->|Hne].
        -- rewrite Hs0 in Hp. injection Hp as <-.
           unfold load_Shdr, sizeof_Shdr. rewrite Hframe by lia.
           pose proof (slice_splice_same _ _ _ _ Hst) as Hsame.
           rewrite blen_encode_Shdr in Hsame. unfold sizeof_Shdr in Hsame.
           rewrite Hsame. cbn [bind].
           rewrite decode_encode_Shdr by exact Hwf. reflexivity.
        -- apply Hent; [lia|].
           unfold load_Shdr, sizeof_Shdr in *.
           rewrite Hframe1 by lia. exact Hp.
Qed.

Lemma load_Ehdr_file ptr raw :
  load_Ehdr ptr 0 = Ok raw -> byteswapHeader raw = file_header ptr.
Proof.
  unfold load_Ehdr, file_header, bytes_at. intros H.
  destruct (slice ptr 0 sizeof_Ehdr) as [bs| |]; try discriminate.
  cbn [bind] in H. injection H as <-. apply byteswapHeader_decode.
Qed.

Lemma load_Ehdr_ok ptr :
  sizeof_Ehdr <= blen ptr -> exists raw, load_Ehdr ptr 0 = Ok raw.
Proof.
  intros H. unfold load_Ehdr. unfold sizeof_Ehdr in *.
  rewrite slice_ok by lia. cbn [bind]. eauto.
Qed.

(** Storing the swapped header leaves the identification bytes and
    everything past the header as they were. *)
Lemma store_header_frame ptr raw buf1 off n :
  load_Ehdr ptr 0 = Ok raw ->
  store_Ehdr ptr 0 (byteswapHeader raw) = Ok buf1 ->
  off + n <= 16 \/ sizeof_Ehdr <= off ->
  slice buf1 off n = slice ptr off n.
Proof.
  intros Hraw Hst Hd. unfold store_Ehdr in Hst.
  pose proof (load_Ehdr_wf _ _ _ Hraw) as (Hid & _ & _).
  destruct Hd as [Hident|Hpast].
  - apply slice_ext; [eapply splice_blen; eauto|].
    intros k Hk. rewrite (splice_nth _ _ _ _ _ Hst).
    change (Z.to_nat 0) with 0%nat. cbn [Nat.leb andb].
    assert (Hlen : length (encode_Ehdr (byteswapHeader raw)) = 52%nat).
    { unfold encode_Ehdr. rewrite length_app.
      cbn [byteswapHeader e_ident]. rewrite Hid. reflexivity. }
    rewrite Hlen. destruct (Nat.ltb_spec k (0 + 52)); [|lia].
    rewrite Nat.sub_0_r. unfold encode_Ehdr.
    cbn [byteswapHeader e_ident].
    rewrite app_nth1 by lia.
    unfold load_Ehdr in Hraw.
    destruct (slice ptr 0 sizeof_Ehdr) as [bs| |] eqn:Hs; try discriminate.
    cbn [bind] in Hraw. injection Hraw as <-. cbn [decode_Ehdr e_ident].
    rewrite nth_firstn. destruct (Nat.ltb_spec k 16); [|lia].
    rewrite (slice_nth _ _ _ _ k Hs) by (unfold sizeof_Ehdr; lia).
    reflexivity.
  - apply (slice_splice_frame _ _ _ _ off n Hst).
    rewrite blen_encode_Ehdr by (cbn [byteswapHeader e_ident]; exact Hid).
    lia.
Qed.

(** What [Initialize] makes of an image whose tables are in place. *)
Lemma Initialize_spec ptr :
  tables_in_image ptr ->
  exists r,
    Initialize ptr = Ok r
    /\ header r = Ok (file_header ptr)
    /\ segments r = e_phoff (file_header ptr)
    /\ sections r = e_shoff (file_header ptr)
    /\ entryPoint r = e_entry (file_header ptr)
    /\ bRelocate r = negb (e_type (file_header ptr) =? ET_EXEC)
    /\ blen (m_bytes r) = blen ptr
    /\ (forall off n,
          off + n <= 16 \/ sizeof_Ehdr <= off ->
          outside_table off n (e_phoff (file_header ptr))
            (e_phnum (file_header ptr)) sizeof_Phdr ->
          outside_table off n (e_shoff (file_header ptr))
            (e_shnum (file_header ptr)) sizeof_Shdr ->
          slice (m_bytes r) off n = slice ptr off n)
    /\ (tables_apart ptr ->
        (forall i p,
           0 <= i < e_phnum (file_header ptr) ->
           load_Phdr ptr (e_phoff (file_header ptr) + sizeof_Phdr * i) = Ok p ->
           segment r i = Ok (byteswapSegment p))
        /\ (forall j s,
              0 <= j < e_shnum (file_header ptr) ->
              load_Shdr ptr (e_shoff (file_header ptr) + sizeof_Shdr * j)
              = Ok s ->
              section r j = Ok (byteswapSection s))).
Proof.
  intros (Hlen & Hph & Hsh).
  destruct (load_Ehdr_ok ptr Hlen) as (raw & Hraw).
  pose proof (load_Ehdr_file _ _ Hraw) as Hfile.
  set (h := file_header ptr) in *.
  pose proof (load_Ehdr_wf _ _ _ Hraw) as Hwf0.
  pose proof (byteswapHeader_wf _ Hwf0) as Hwf. rewrite Hfile in Hwf.
  destruct (splice_ok ptr 0 (encode_Ehdr h)) as (buf1 & Hst);
    [lia | rewrite blen_encode_Ehdr by apply Hwf; lia |].
  pose proof (splice_blen _ _ _ _ Hst) as Hlen1.
  pose proof (load_store_Ehdr ptr h buf1 Hwf Hst) as Hh1.
  assert (Hframe1 : forall off n,
            off + n <= 16 \/ sizeof_Ehdr <= off ->
            slice buf1 off n = slice ptr off n).
  { intros off n Hd. apply (store_header_frame ptr raw); auto.
    rewrite Hfile. exact Hst. }
  destruct (load_Ehdr_counts _ _ _ Hh1) as [Hpn Hsn].
  destruct (swap_segments_spec h (e_phoff h) loop_budget 0 buf1)
    as (buf2 & Hrun2 & Hlen2 & Hframe2 & Hent2);
    [exact Hh1 | lia | rewrite loop_budget_Z; lia | |].
  { intros Hlt. destruct Hph as [H0 | Hin]; [lia|]. rewrite Hlen1. exact Hin. }
  assert (Hh2 : load_Ehdr buf2 0 = Ok h).
  { unfold load_Ehdr in *. rewrite Hframe2; [exact Hh1|].
    destruct Hph as [H0 | Hin]; [left; lia | right; left; lia]. }
  destruct (swap_sections_spec h (e_shoff h) loop_budget 0 buf2)
    as (buf3 & Hrun3 & Hlen3 & Hframe3 & Hent3);
    [exact Hh2 | lia | rewrite loop_budget_Z; lia | |].
  { intros Hlt. destruct Hsh as [H0 | Hin]; [lia|].
    rewrite Hlen2, Hlen1. exact Hin. }
  assert (Hh3 : load_Ehdr buf3 0 = Ok h).
  { unfold load_Ehdr in *. rewrite Hframe3; [exact Hh2|].
    destruct Hsh as [H0 | Hin]; [left; lia | right; left; lia]. }
  eexists. split.
  { unfold Initialize. rewrite Hraw. cbn [bind]. rewrite Hfile.
    unfold store_Ehdr. rewrite Hst. cbn [bind].
    rewrite Hh1. cbn [bind]. rewrite Hrun2. cbn [bind].
    rewrite Hrun3. cbn [bind]. rewrite Hh3. cbn [bind]. reflexivity. }
  unfold header, segment, section.
  cbn [m_bytes segments sections entryPoint bRelocate].
  split; [exact Hh3|]. do 4 (split; [reflexivity|]).
  split; [lia|]. split.
  - intros off n Hd Hp Hs.
    rewrite Hframe3, Hframe2, Hframe1; auto.
    + unfold outside_table in Hp. lia.
    + unfold outside_table in Hs. lia.
  - intros Hapart. split.
    + intros i p Hi Hp.
      assert (Hin : sizeof_Ehdr <= e_phoff h
                    /\ e_phoff h + sizeof_Phdr * e_phnum h <= blen ptr)
        by (destruct Hph as [H0 | Hin]; [lia | exact Hin]).
      unfold load_Phdr at 1. rewrite Hframe3.
      * apply (Hent2 i p); [lia|].
        unfold load_Phdr in *. rewrite Hframe1; [exact Hp|].
        right. unfold sizeof_Phdr, sizeof_Ehdr in *. lia.
      * unfold tables_apart, outside_table in Hapart. fold h in Hapart.
        unfold sizeof_Phdr, sizeof_Shdr in *. lia.
    + intros j s Hj Hs.
      assert (Hin : sizeof_Ehdr <= e_shoff h
                    /\ e_shoff h + sizeof_Shdr * e_shnum h <= blen ptr)
        by (destruct Hsh as [H0 | Hin]; [lia | exact Hin]).
      apply (Hent3 j s); [lia|].
      unfold load_Shdr in *. rewrite Hframe2, Hframe1; [exact Hs | |].
      * right. unfold sizeof_Shdr, sizeof_Ehdr in *. lia.
      * unfold tables_apart, outside_table in Hapart. fold h in Hapart.
        unfold sizeof_Phdr, sizeof_Shdr in *. lia.
Qed.

(** C3 (as the code has it).  [Initialize] checks neither the length of the
    buffer nor its identification bytes, and has no failure to report.  On
    every buffer that holds the header and whose program-header and
    section-header tables, as the normalised header declares them, lie in
    the buffer past the header, it completes, whatever the identification
    bytes are: the header is normalised, the tables are located, and the
    entry point and the relocatable flag are taken from the normalised
    header.  When moreover the two tables do not overlap each other, every
    entry of both tables is normalised: the reader finds there the entry of
    the buffer with each of its words swapped once. *)
Theorem Initialize_does_not_validate (ptr : buffer) (raw : Elf32_Ehdr) :
  load_Ehdr ptr 0 = Ok raw ->
  table_in_buffer (e_phoff (byteswapHeader raw)) (e_phnum (byteswapHeader raw))
    sizeof_Phdr (blen ptr) ->
  table_in_buffer (e_shoff (byteswapHeader raw)) (e_shnum (byteswapHeader raw))
    sizeof_Shdr (blen ptr) ->
  exists r,
    Initialize ptr = Ok r
    /\ header r = Ok (byteswapHeader raw)
    /\ e_ident (byteswapHeader raw) = firstn 16 ptr
    /\ segments r = e_phoff (byteswapHeader raw)
    /\ sections r = e_shoff (byteswapHeader raw)
    /\ entryPoint r = e_entry (byteswapHeader raw)
    /\ bRelocate r = negb (e_type (byteswapHeader raw) =? ET_EXEC)
    /\ (e_phnum (byteswapHeader raw) = 0
        \/ outside_table (e_phoff (byteswapHeader raw))
             (sizeof_Phdr * e_phnum (byteswapHeader raw))
             (e_shoff (byteswapHeader raw)) (e_shnum (byteswapHeader raw))
             sizeof_Shdr ->
        (forall i,
           0 <= i < e_phnum (byteswapHeader raw) ->
           exists p,
             load_Phdr ptr (e_phoff (byteswapHeader raw) + sizeof_Phdr * i)
             = Ok p
             /\ segment r i = Ok (byteswapSegment p))
        /\ (forall j,
              0 <= j < e_shnum (byteswapHeader raw) ->
              exists s,
                load_Shdr ptr (e_shoff (byteswapHeader raw) + sizeof_Shdr * j)
                = Ok s
                /\ section r j = Ok (byteswapSection s))).
Proof.
  intros Hraw Hph Hsh.
  pose proof (load_Ehdr_file _ _ Hraw) as Hfile.
  assert (Hlen : sizeof_Ehdr <= blen ptr).
  { unfold load_Ehdr in Hraw. destruct (slice ptr 0 sizeof_Ehdr) eqn:Hs;
      try discriminate.
    apply slice_inv in Hs. lia. }
  assert (Hident : e_ident (byteswapHeader raw) = firstn 16 ptr).
  { cbn [byteswapHeader e_ident].
    unfold load_Ehdr in Hraw. destruct (slice ptr 0 sizeof_Ehdr) eqn:Hs;
      try discriminate.
    cbn [bind] in Hraw. apply Ok_inj in Hraw. subst raw.
    cbn [decode_Ehdr e_ident].
    apply slice_inv in Hs. destruct Hs as (_ & _ & _ & ->).
    cbn [Z.to_nat skipn]. rewrite firstn_firstn. reflexivity. }
  assert (Htab : tables_in_image ptr).
  { unfold tables_in_image. rewrite <- Hfile. auto. }
  destruct (Initialize_spec ptr Htab)
    as (r & Hinit & Hh & Hsegs & Hsecs & Hentry & Hrel & _ & _ & Hents).
  unfold tables_apart in Hents. rewrite <- Hfile in Hh, Hsegs, Hsecs, Hentry,
    Hrel, Hents.
  set (h := byteswapHeader raw) in *.
  exists r. do 7 (split; [assumption|]).
  intros Hapart. destruct (Hents Hapart) as [Hp Hs].
  destruct (load_Ehdr_counts _ _ _ Hh) as [Hpn Hsn]. split.
  - intros i Hi.
    destruct Hph as [H0 | [Hlo Hhi]]; [lia|].
    unfold sizeof_Ehdr, sizeof_Phdr in *.
    assert (Hload : exists p, load_Phdr ptr (e_phoff h + 32 * i) = Ok p).
    { unfold load_Phdr, sizeof_Phdr. rewrite slice_ok by lia.
      cbn [bind]. eauto. }
    destruct Hload as (p & Hload). exists p. split; [exact Hload|].
    apply Hp; [lia | exact Hload].
  - intros j Hj.
    destruct Hsh as [H0 | [Hlo Hhi]]; [lia|].
    unfold sizeof_Ehdr, sizeof_Shdr in *.
    assert (Hload : exists s, load_Shdr ptr (e_shoff h + 40 * j) = Ok s).
    { unfold load_Shdr, sizeof_Shdr. rewrite slice_ok by lia.
      cbn [bind]. eauto. }
    destruct Hload as (s & Hload). exists s. split; [exact Hload|].
    apply Hs; [lia | exact Hload].
Qed.

Lemma Initialize_does_not_validate_witness :
  exists r,
    Initialize fixture_bad_ident = Ok r
    /\ header r
       = Ok (byteswapHeader (decode_Ehdr (firstn 52 fixture_bad_ident)))
    /\ e_ident (byteswapHeader (decode_Ehdr (firstn 52 fixture_bad_ident)))
       = firstn 16 fixture_bad_ident
    /\ segments r
       = e_phoff (byteswapHeader (decode_Ehdr (firstn 52 fixture_bad_ident)))
    /\ sections r
       = e_shoff (byteswapHeader (decode_Ehdr (firstn 52 fixture_bad_ident)))
    /\ entryPoint r
       = e_entry (byteswapHeader (decode_Ehdr (firstn 52 fixture_bad_ident)))
    /\ bRelocate r
       = negb (e_type (byteswapHeader
                         (decode_Ehdr (firstn 52 fixture_bad_ident)))
               =? ET_EXEC)
    /\ (e_phnum (byteswapHeader (decode_Ehdr (firstn 52 fixture_bad_ident)))
        = 0
        \/ outside_table
             (e_phoff (byteswapHeader
                         (decode_Ehdr (firstn 52 fixture_bad_ident))))
             (sizeof_Phdr
              * e_phnum (byteswapHeader
                           (decode_Ehdr (firstn 52 fixture_bad_ident))))
             (e_shoff (byteswapHeader
                         (decode_Ehdr (firstn 52 fixture_bad_ident))))
             (e_shnum (byteswapHeader
                         (decode_Ehdr (firstn 52 fixture_bad_ident))))
             sizeof_Shdr ->
        (forall i,
           0 <= i
           < e_phnum (byteswapHeader
                        (decode_Ehdr (firstn 52 fixture_bad_ident))) ->
           exists p,
             load_Phdr fixture_bad_ident
               (e_phoff (byteswapHeader
                           (decode_Ehdr (firstn 52 fixture_bad_ident)))
                + sizeof_Phdr * i)
             = Ok p
             /\ segment r i = Ok (byteswapSegment p))
        /\ (forall j,
              0 <= j
              < e_shnum (byteswapHeader
                           (decode_Ehdr (firstn 52 fixture_bad_ident))) ->
              exists s,
                load_Shdr fixture_bad_ident
                  (e_shoff (byteswapHeader
                              (decode_Ehdr (firstn 52 fixture_bad_ident)))
                   + sizeof_Shdr * j)
                = Ok s
                /\ section r j = Ok (byteswapSection s))).
Proof.
  apply (Initialize_does_not_validate fixture_bad_ident).
  - vm_compute. reflexivity.
  - right. vm_compute. split; discriminate.
  - left. vm_compute. reflexivity.
Defined.

(** An image without the ELF32 identification is constructed, classified
    as an executable and loaded. *)
Lemma Initialize_bad_ident_counterexample :
  ~ has_elf32_ident fixture_bad_ident
  /\ Initialize fixture_bad_ident = Ok (reader_of fixture_bad_ident)
  /\ bRelocate (reader_of fixture_bad_ident) = false
  /\ entryPoint (reader_of fixture_bad_ident) = 0x80004000
  /\ fst (LoadIntoMemory (reader_of fixture_bad_ident) false blank_memory)
     = Ok true.
Proof.
  split.
  - intros [Hsig _]. vm_compute in Hsig. discriminate.
  - vm_compute. repeat split; reflexivity.
Qed.

Lemma u8_at_bytes_at ptr size k :
  0 <= size <= blen ptr -> (k < Z.to_nat size)%nat ->
  u8_at (bytes_at ptr 0 size) k = u8_at ptr k.
Proof.
  intros Hsize Hk. unfold bytes_at, u8_at.
  pose proof (slice_ok ptr 0 size ltac:(lia) ltac:(lia) ltac:(lia)) as Hs.
  rewrite Hs. rewrite (slice_nth _ _ _ _ k Hs) by exact Hk. reflexivity.
Qed.

Lemma load_Phdr_file ptr off :
  0 <= off -> off + sizeof_Phdr <= blen ptr ->
  load_Phdr ptr off = Ok (decode_Phdr (bytes_at ptr off sizeof_Phdr)).
Proof.
  intros H0 H1. unfold load_Phdr, bytes_at. unfold sizeof_Phdr in *.
  rewrite slice_ok by lia. reflexivity.
Qed.

Lemma load_Shdr_file ptr off :
  0 <= off -> off + sizeof_Shdr <= blen ptr ->
  load_Shdr ptr off = Ok (decode_Shdr (bytes_at ptr off sizeof_Shdr)).
Proof.
  intros H0 H1. unfold load_Shdr, bytes_at. unfold sizeof_Shdr in *.
  rewrite slice_ok by lia. reflexivity.
Qed.

Lemma fixture_full_tables : tables_in_image fixture_full.
Proof.
  split; [vm_compute; discriminate|]. split.
  - right. vm_compute. split; discriminate.
  - right. vm_compute. split; discriminate.
Defined.

Lemma fixture_full_apart : tables_apart fixture_full.
Proof. right. right. left. vm_compute. discriminate. Defined.

(** X2.  When the image holds its header and the two tables that the
    header declares lie in the image past the header (a table without
    entries lies anywhere), the header that the reader works with is the
    header of the file read most significant byte first: after
    [Initialize], the entry point is the big-endian word at offset 24, the
    image is relocatable exactly when the big-endian half-word at offset 16
    is not [ET_EXEC], and the two counts are the big-endian half-words at
    offsets 44 and 48.  A table that starts inside the header is another
    matter: swapping its entries rewrites the header
    ([fixture_overlap_loses_its_count]). *)
Theorem Initialize_header_is_big_endian (ptr : buffer) :
  tables_in_image ptr ->
  exists r,
    Initialize ptr = Ok r
    /\ header r = Ok (file_header ptr)
    /\ entryPoint r = be32_at ptr 24
    /\ bRelocate r = negb (be16_at ptr 16 =? ET_EXEC)
    /\ GetNumSegments r = Ok (be16_at ptr 44)
    /\ GetNumSections r = Ok (be16_at ptr 48).
Proof.
  intros Htab.
  destruct (Initialize_spec ptr Htab)
    as (r & Hinit & Hh & _ & _ & Hentry & Hrel & _).
  destruct Htab as (Hlen & _). unfold sizeof_Ehdr in Hlen.
  exists r. split; [exact Hinit|]. split; [exact Hh|].
  unfold GetNumSegments, GetNumSections. rewrite Hh, Hentry, Hrel.
  cbn [bind]. unfold file_header, file_Ehdr, sizeof_Ehdr.
  cbn [e_entry e_type e_phnum e_shnum].
  unfold be32_at, be16_at.
  rewrite !u8_at_bytes_at by (cbn; lia).
  repeat split; reflexivity.
Qed.

Lemma Initialize_header_is_big_endian_witness :
  exists r,
    Initialize fixture_full = Ok r
    /\ header r = Ok (file_header fixture_full)
    /\ entryPoint r = be32_at fixture_full 24
    /\ bRelocate r = negb (be16_at fixture_full 16 =? ET_EXEC)
    /\ GetNumSegments r = Ok (be16_at fixture_full 44)
    /\ GetNumSections r = Ok (be16_at fixture_full 48).
Proof.
  apply (Initialize_header_is_big_endian fixture_full).
  exact fixture_full_tables.
Defined.

(** X3.  When the two tables do not overlap, [Initialize] leaves every
    program header and every section header of the reader equal to the
    entry of the file read most significant byte first: each entry is
    normalised exactly once. *)
Theorem Initialize_normalises_tables (ptr : buffer) :
  tables_in_image ptr ->
  tables_apart ptr ->
  exists r,
    Initialize ptr = Ok r
    /\ (forall i,
          0 <= i < e_phnum (file_header ptr) ->
          segment r i
          = Ok (file_Phdr
                  (bytes_at ptr
                     (e_phoff (file_header ptr) + sizeof_Phdr * i)
                     sizeof_Phdr)))
    /\ (forall j,
          0 <= j < e_shnum (file_header ptr) ->
          section r j
          = Ok (file_Shdr
                  (bytes_at ptr
                     (e_shoff (file_header ptr) + sizeof_Shdr * j)
                     sizeof_Shdr))).
Proof.
  intros Htab Hapart.
  destruct (Initialize_spec ptr Htab)
    as (r & Hinit & _ & _ & _ & _ & _ & _ & _ & Hent).
  destruct (Hent Hapart) as [Hseg Hsec].
  destruct Htab as (_ & Hph & Hsh).
  exists r. split; [exact Hinit|]. split.
  - intros i Hi. rewrite <- byteswapSegment_decode.
    apply Hseg; [exact Hi|]. apply load_Phdr_file.
    + destruct Hph as [H0 | Hin]; unfold sizeof_Ehdr, sizeof_Phdr in *; lia.
    + destruct Hph as [H0 | Hin]; unfold sizeof_Ehdr, sizeof_Phdr in *; lia.
  - intros j Hj. rewrite <- byteswapSection_decode.
    apply Hsec; [exact Hj|]. apply load_Shdr_file.
    + destruct Hsh as [H0 | Hin]; unfold sizeof_Ehdr, sizeof_Shdr in *; lia.
    + destruct Hsh as [H0 | Hin]; unfold sizeof_Ehdr, sizeof_Shdr in *; lia.
Qed.

Lemma Initialize_normalises_tables_witness :
  exists r,
    Initialize fixture_full = Ok r
    /\ (forall i,
          0 <= i < e_phnum (file_header fixture_full) ->
          segment r i
          = Ok (file_Phdr
                  (bytes_at fixture_full
                     (e_phoff (file_header fixture_full) + sizeof_Phdr * i)
                     sizeof_Phdr)))
    /\ (forall j,
          0 <= j < e_shnum (file_header fixture_full) ->
          section r j
          = Ok (file_Shdr
                  (bytes_at fixture_full
                     (e_shoff (file_header fixture_full) + sizeof_Shdr * j)
                     sizeof_Shdr))).
Proof.
  apply (Initialize_normalises_tables fixture_full).
  - exact fixture_full_tables.
  - exact fixture_full_apart.
Defined.

(** X4.  When the image holds its header and the two tables that the
    header declares lie in the image past the header, [Initialize] writes
    nowhere but in the thirty-six bytes of header fields and in the two
    tables: the identification bytes and every byte past the header that
    belongs to neither table are left as they were, and the buffer keeps
    its length.  A table that starts inside the header is another matter:
    swapping its entries can rewrite the identification bytes
    ([fixture_table_over_ident_rewritten]). *)
Theorem Initialize_touches_only_header_and_tables (ptr : buffer) :
  tables_in_image ptr ->
  exists r,
    Initialize ptr = Ok r
    /\ blen (m_bytes r) = blen ptr
    /\ forall off n,
         off + n <= 16 \/ sizeof_Ehdr <= off ->
         outside_table off n (e_phoff (file_header ptr))
           (e_phnum (file_header ptr)) sizeof_Phdr ->
         outside_table off n (e_shoff (file_header ptr))
           (e_shnum (file_header ptr)) sizeof_Shdr ->
         slice (m_bytes r) off n = slice ptr off n.
Proof.
  intros Htab.
  destruct (Initialize_spec ptr Htab)
    as (r & Hinit & _ & _ & _ & _ & _ & Hlen & Hframe & _).
  exists r. auto.
Qed.

Lemma Initialize_touches_only_header_and_tables_witness :
  exists r,
    Initialize fixture_full = Ok r
    /\ blen (m_bytes r) = blen fixture_full
    /\ forall off n,
         off + n <= 16 \/ sizeof_Ehdr <= off ->
         outside_table off n (e_phoff (file_header fixture_full))
           (e_phnum (file_header fixture_full)) sizeof_Phdr ->
         outside_table off n (e_shoff (file_header fixture_full))
           (e_shnum (file_header fixture_full)) sizeof_Shdr ->
         slice (m_bytes r) off n = slice fixture_full off n.
Proof.
  apply (Initialize_touches_only_header_and_tables fixture_full).
  exact fixture_full_tables.
Defined.

Lemma swap_segments_blen segs fuel :
  forall i buf buf',
  swap_segments fuel i segs buf = Ok buf' -> blen buf' = blen buf.
Proof.
  induction fuel as [|fuel IH]; intros i buf buf' H; cbn [swap_segments] in H.
  - bind_inv H. destruct (i <? e_phnum a); [discriminate|].
    injection H as <-. reflexivity.
  - bind_inv H. destruct (i <? e_phnum a).
    + bind_inv H. bind_inv H. apply IH in H. rewrite H.
      unfold store_Phdr in E1. eapply splice_blen; eauto.
    + injection H as <-. reflexivity.
Qed.

Lemma swap_sections_blen secs fuel :
  forall i buf buf',
  swap_sections fuel i secs buf = Ok buf' -> blen buf' = blen buf.
Proof.
  induction fuel as [|fuel IH]; intros i buf buf' H; cbn [swap_sections] in H.
  - bind_inv H. destruct (i <? e_shnum a); [discriminate|].
    injection H as <-. reflexivity.
  - bind_inv H. destruct (i <? e_shnum a).
    + bind_inv H. bind_inv H. apply IH in H. rewrite H.
      unfold store_Shdr in E1. eapply splice_blen; eauto.
    + injection H as <-. reflexivity.
Qed.

(** X5.  Whatever the image is, even when a table overlaps the header so
    that swapping an entry changes the counts that bound the loops,
    [Initialize] comes to an end within its loops' budget (the counts are
    16-bit), and the buffer it leaves has the length it had. *)
Theorem Initialize_ends_and_keeps_length (ptr : buffer) :
  Initialize ptr <> OutOfFuel
  /\ forall r, Initialize ptr = Ok r -> blen (m_bytes r) = blen ptr.
Proof.
  split; [apply Initialize_terminates|].
  intros r H. unfold Initialize in H.
  bind_inv H. bind_inv H. bind_inv H. bind_inv H. bind_inv H. bind_inv H.
  injection H as <-. cbn [m_bytes].
  apply swap_sections_blen in E3. apply swap_segments_blen in E2.
  unfold store_Ehdr in E0. apply splice_blen in E0. lia.
Qed.

Lemma Initialize_ends_and_keeps_length_witness :
  Initialize fixture_overlap <> OutOfFuel
  /\ blen (m_bytes (reader_of fixture_overlap)) = blen fixture_overlap.
Proof.
  destruct (Initialize_ends_and_keeps_length fixture_overlap) as [Hend Hlen].
  split; [exact Hend|]. apply Hlen. vm_compute. reflexivity.
Defined.

(** Swapping the entry of [fixture_overlap] swaps the count with it: the
    file declares one program header and the reader ends with none. *)
Example fixture_overlap_loses_its_count :
  e_phnum (file_header fixture_overlap) = 1
  /\ GetNumSegments (reader_of fixture_overlap) = Ok 0.
Proof. vm_compute. split; reflexivity. Qed.

(** The only program header of [fixture_table_over_ident] lies over the
    first thirty-two bytes of the image: swapping it reverses the
    signature. *)
Example fixture_table_over_ident_rewritten :
  firstn 4 fixture_table_over_ident = [x7f; x45; x4c; x46]
  /\ Initialize fixture_table_over_ident
     = Ok (reader_of fixture_table_over_ident)
  /\ firstn 4 (m_bytes (reader_of fixture_table_over_ident))
     = [x46; x4c; x45; x7f].
Proof. vm_compute. repeat split; reflexivity. Qed.

(** ** More on the lookup of a section *)

Section SectionScan.

Context {D : Declarations}.
Variable r : ElfReader.
Variable name : list byte.

(** An index that the scan returns is one it went through, and the test
    of the loop held there. *)
Lemma section_scan_sound n :
  forall i found,
  section_scan r name n i = Ok found ->
  found = -1
  \/ (i <= found < i + Z.of_nat n
      /\ exists p s,
           section r found = Ok s
           /\ sh_type s <> SHT_NULL
           /\ GetSectionName r found = Ok (Some p)
           /\ strcmp_eq name (m_bytes r) p = Ok true).
Proof.
  induction n as [|n IH]; intros i found H; cbn [section_scan] in H.
  - injection H as <-. now left.
  - bind_inv H. rename a into secname.
    assert (Hrest : section_scan r name n (i + 1) = Ok found ->
                    found = -1
                    \/ (i <= found < i + Z.of_nat (S n)
                        /\ exists p s,
                             section r found = Ok s
                             /\ sh_type s <> SHT_NULL
                             /\ GetSectionName r found = Ok (Some p)
                             /\ strcmp_eq name (m_bytes r) p = Ok true)).
    { intros Hscan. destruct (IH _ _ Hscan) as [->|(Hr & Hp)]; [now left|].
      right. split; [lia | exact Hp]. }
    destruct secname as [p|]; [|auto].
    bind_inv H. destruct a; [|auto].
    injection H as <-. right. split; [lia|].
    pose proof E as Hname. unfold GetSectionName in Hname.
    bind_inv Hname. rename a into s.
    destruct (Z.eqb_spec (sh_type s) SHT_NULL); [discriminate|].
    exists p, s. auto.
Qed.

(** A scan that goes on past [i] is the scan that starts after [i]. *)
Lemma section_scan_skip d :
  forall n i found,
  section_scan r name (d + n) i = Ok found ->
  i + Z.of_nat d <= found ->
  section_scan r name n (i + Z.of_nat d) = Ok found.
Proof.
  induction d as [|d IH]; intros n i found H Hle.
  - cbn [Nat.add] in H. replace (i + Z.of_nat 0) with i by lia. exact H.
  - cbn [Nat.add section_scan] in H. bind_inv H. rename a into secname.
    replace (i + Z.of_nat (S d)) with (i + 1 + Z.of_nat d) by lia.
    destruct secname as [p|].
    + bind_inv H. destruct a.
      * injection H as <-. lia.
      * apply IH; [exact H | lia].
    + apply IH; [exact H | lia].
Qed.

(** With no string table to read names from, no section has a name. *)
Lemma section_scan_nameless h n :
  forall i,
  header r = Ok h ->
  GetSectionDataPtr r (e_shstrndx h) = Ok None ->
  (forall j, i <= j < i + Z.of_nat n -> exists s, section r j = Ok s) ->
  section_scan r name n i = Ok (-1).
Proof.
  induction n as [|n IH]; intros i Hh Hnull Hread; cbn [section_scan].
  - reflexivity.
  - destruct (Hread i ltac:(lia)) as (s & Hs).
    assert (Hname : GetSectionName r i = Ok None).
    { unfold GetSectionName. rewrite Hs. cbn [bind].
      destruct (sh_type s =? SHT_NULL); [reflexivity|].
      rewrite Hh. cbn [bind]. rewrite Hnull. reflexivity. }
    rewrite Hname. cbn [bind]. apply IH; auto.
    intros j Hj. apply Hread. lia.
Qed.

End SectionScan.

(** X6.  An index that [GetSectionByName] returns, if it is not [-1], lies
    in the section table from [firstSection] on, and the section there is
    not of type null and has a name that [strcmp] finds equal to the one
    asked for.  No assumption is made on the image. *)
Theorem GetSectionByName_result_in_table
    {D : Declarations} (r : ElfReader) (name : list byte)
    (firstSection found : Z) (h : Elf32_Ehdr) :
  header r = Ok h ->
  GetSectionByName r name firstSection = Ok found ->
  found = -1
  \/ (firstSection <= found < e_shnum h
      /\ exists p s,
           section r found = Ok s
           /\ sh_type s <> SHT_NULL
           /\ GetSectionName r found = Ok (Some p)
           /\ strcmp_eq name (m_bytes r) p = Ok true).
Proof.
  intros Hh H. unfold GetSectionByName in H. rewrite Hh in H. cbn [bind] in H.
  destruct (section_scan_sound r name _ _ _ H) as [->|(Hr & Hp)];
    [now left|].
  right. split; [lia | exact Hp].
Qed.

Lemma GetSectionByName_result_in_table_witness :
  2 = -1
  \/ (0 <= 2 < e_shnum (header_of (reader_of fixture_symbols))
      /\ exists p s,
           section (reader_of fixture_symbols) 2 = Ok s
           /\ sh_type s <> SHT_NULL
           /\ GetSectionName (reader_of fixture_symbols) 2 = Ok (Some p)
           /\ strcmp_eq [x2e; x73; x74; x72; x74; x61; x62]
                (m_bytes (reader_of fixture_symbols)) p = Ok true).
Proof.
  apply (GetSectionByName_result_in_table (reader_of fixture_symbols)
           [x2e; x73; x74; x72; x74; x61; x62] 0 2
           (header_of (reader_of fixture_symbols))).
  - vm_compute. reflexivity.
  - vm_compute. reflexivity.
Defined.

(** X7.  A search can be resumed: when [GetSectionByName] finds a section
    from [firstSection], it finds the same section from every index
    between [firstSection] and that section, the section itself
    included. *)
Theorem GetSectionByName_resumes
    {D : Declarations} (r : ElfReader) (name : list byte)
    (firstSection found k : Z) :
  GetSectionByName r name firstSection = Ok found ->
  firstSection <= k <= found ->
  GetSectionByName r name k = Ok found.
Proof.
  intros H Hk. unfold GetSectionByName in *.
  bind_inv H. rename a into h. rewrite E. cbn [bind].
  destruct (Z_lt_le_dec found (e_shnum h)) as [Hlt|Hge].
  - replace (Z.to_nat (e_shnum h - firstSection))
      with (Z.to_nat (k - firstSection) + Z.to_nat (e_shnum h - k))%nat
      in H by lia.
    apply section_scan_skip in H; [|lia].
    replace (firstSection + Z.of_nat (Z.to_nat (k - firstSection)))
      with k in H by lia.
    exact H.
  - unfold header in E. destruct (load_Ehdr_counts _ _ _ E) as [_ Hn].
    destruct (section_scan_sound r name _ _ _ H) as [->|(Hr & _)]; lia.
Qed.

Lemma GetSectionByName_resumes_witness :
  GetSectionByName (reader_of fixture_symbols)
    [x2e; x73; x74; x72; x74; x61; x62] 2 = Ok 2.
Proof.
  apply (GetSectionByName_resumes (reader_of fixture_symbols)
           [x2e; x73; x74; x72; x74; x61; x62] 0 2 2).
  - vm_compute. reflexivity.
  - lia.
Defined.

(** X8.  When the section-header string table cannot be read (the pointer
    to its data is null) and the section headers can, no name is found:
    [GetSectionByName] answers [-1] for every name, and [LoadSymbols]
    therefore adds no symbol, asks for the index and returns [false]. *)
Theorem no_string_table_no_section
    {D : Declarations} (r : ElfReader) (h : Elf32_Ehdr) :
  header r = Ok h ->
  GetSectionDataPtr r (e_shstrndx h) = Ok None ->
  (forall j, 0 <= j < e_shnum h -> exists s, section r j = Ok s) ->
  (forall name firstSection,
     0 <= firstSection ->
     GetSectionByName r name firstSection = Ok (-1))
  /\ forall db, LoadSymbols r db = (Ok false, db ++ [Index]).
Proof.
  intros Hh Hnull Hread.
  assert (Hnone : forall name firstSection,
            0 <= firstSection ->
            GetSectionByName r name firstSection = Ok (-1)).
  { intros name firstSection Hfirst. unfold GetSectionByName.
    rewrite Hh. cbn [bind].
    apply (section_scan_nameless r name h); auto.
    intros j Hj. apply Hread. lia. }
  split; [exact Hnone|].
  intros db. unfold LoadSymbols. rewrite Hnone by lia. reflexivity.
Qed.

Lemma fixture_nameless_sections :
  forall j, 0 <= j < e_shnum (header_of (reader_of fixture_nameless)) ->
            exists s, section (reader_of fixture_nameless) j = Ok s.
Proof.
  intros j Hj.
  assert (Hn : e_shnum (header_of (reader_of fixture_nameless)) = 4)
    by (vm_compute; reflexivity).
  rewrite Hn in Hj.
  exists (match section (reader_of fixture_nameless) j with
          | Ok s => s
          | _ => decode_Shdr []
          end).
  assert (Hcases : j = 0 \/ j = 1 \/ j = 2 \/ j = 3) by lia.
  destruct Hcases as [->|[->|[->| ->]]]; vm_compute; reflexivity.
Defined.

Lemma no_string_table_no_section_witness :
  (forall name firstSection,
     0 <= firstSection ->
     GetSectionByName (reader_of fixture_nameless) name firstSection
     = Ok (-1))
  /\ forall db,
       LoadSymbols (reader_of fixture_nameless) db = (Ok false, db ++ [Index]).
Proof.
  apply (no_string_table_no_section (reader_of fixture_nameless)
           (header_of (reader_of fixture_nameless))).
  - vm_compute. reflexivity.
  - vm_compute. reflexivity.
  - exact fixture_nameless_sections.
Defined.

(** ** More on the loading of segments *)

Section SegmentSteps.

Context {D : Declarations}.
Variable r : ElfReader.
Variable only_in_mem1 : bool.

(** What a turn of the loop does is settled by the image alone: either it
    leaves every memory as it is, or it loads one and the same segment into
    every memory. *)
Lemma load_segment_cases i :
  (exists out, forall m, load_segment r only_in_mem1 i m = (out, m))
  \/ (exists p bytes,
        segment r i = Ok p
        /\ segment_loaded only_in_mem1 p = true
        /\ copy_source (m_bytes r) (p_offset p) (p_filesz p) = Ok bytes
        /\ forall m,
             load_segment r only_in_mem1 i m
             = (Ok tt, segment_written p bytes m)).
Proof.
  unfold load_segment, GetSegmentPtr.
  destruct (segment r i) as [p| |] eqn:Hseg; cbn [with_res bind];
    [|left; eauto|left; eauto].
  destruct (segment_loaded only_in_mem1 p) eqn:Hld.
  - pose proof Hld as Hld'. unfold segment_loaded, segment_skipped in Hld'.
    apply andb_true_iff in Hld'. destruct Hld' as [Hty Hsk].
    apply negb_true_iff in Hsk. rewrite Hty, Hsk.
    destruct (copy_source (m_bytes r) (p_offset p) (p_filesz p))
      as [bytes| |] eqn:Hsl; cbn [with_res]; [|left; eauto|left; eauto].
    right. exists p, bytes. repeat split; auto.
  - left. exists (Ok tt). intros m.
    unfold segment_loaded, segment_skipped in Hld.
    destruct (p_type p =? PT_LOAD); [|reflexivity].
    cbn [andb] in Hld. apply negb_false_iff in Hld. rewrite Hld. reflexivity.
Qed.

(** Every call made during the loop belongs to a segment that is loaded. *)
Lemma load_segments_calls_from n :
  forall i m c,
  In c (Memory.calls (snd (load_segments r only_in_mem1 n i m))) ->
  In c (Memory.calls m)
  \/ exists j p bytes,
       i <= j < i + Z.of_nat n
       /\ segment r j = Ok p
       /\ segment_loaded only_in_mem1 p = true
       /\ copy_source (m_bytes r) (p_offset p) (p_filesz p) = Ok bytes
       /\ In c (segment_calls p bytes).
Proof.
  induction n as [|n IH]; intros i m c Hin; cbn [load_segments] in Hin.
  - now left.
  - destruct (load_segment_cases i)
      as [(out & Hsame) | (p & bytes & Hseg & Hld & Hsl & Hstep)].
    + rewrite Hsame in Hin. destruct out as [[]| |]; cbn [snd] in Hin;
        [|now left|now left].
      destruct (IH _ _ _ Hin) as [Hm | (j & q & bs & Hj & Hq)];
        [now left|].
      right. exists j, q, bs. split; [lia | exact Hq].
    + rewrite Hstep in Hin.
      destruct (IH _ _ _ Hin) as [Hm | (j & q & bs & Hj & Hq)].
      * rewrite written_calls in Hm. apply in_app_or in Hm.
        destruct Hm as [Hm | Hm]; [now left|].
        right. exists i, p, bytes. repeat split; auto; lia.
      * right. exists j, q, bs. split; [lia | exact Hq].
Qed.

(** The loop leaves alone every address that no segment it loads covers. *)
Lemma load_segments_frame_any n a :
  forall i m,
  (forall j p, i <= j < i + Z.of_nat n -> segment r j = Ok p ->
               ~ segment_writes only_in_mem1 p a) ->
  Memory.read (snd (load_segments r only_in_mem1 n i m)) a = Memory.read m a.
Proof.
  induction n as [|n IH]; intros i m Hnw; cbn [load_segments].
  - reflexivity.
  - assert (Hrest : forall m1,
              Memory.read (snd (load_segments r only_in_mem1 n (i + 1) m1)) a
              = Memory.read m1 a).
    { intros m1. apply IH. intros j p Hj. apply Hnw. lia. }
    destruct (load_segment_cases i)
      as [(out & Hsame) | (p & bytes & Hseg & Hld & Hsl & Hstep)].
    + rewrite Hsame. destruct out as [[]| |]; cbn [snd]; auto.
    + rewrite Hstep, Hrest.
      destruct (load_Phdr_wf _ _ _ Hseg) as (_ & _ & Hf & Hm).
      apply written_frame with (only_in_mem1 := only_in_mem1); auto.
      * eapply copy_source_blen; eauto.
      * apply (Hnw i p); [lia | exact Hseg].
Qed.

(** No segment to load: the loop ends well and the memory is as it was. *)
Lemma load_segments_nothing n :
  forall i m,
  (forall j, i <= j < i + Z.of_nat n ->
             exists p, segment r j = Ok p
                       /\ segment_loaded only_in_mem1 p = false) ->
  load_segments r only_in_mem1 n i m = (Ok tt, m).
Proof.
  induction n as [|n IH]; intros i m Hno; cbn [load_segments].
  - reflexivity.
  - destruct (Hno i ltac:(lia)) as (p & Hseg & Hld).
    rewrite (load_segment_not_loaded r only_in_mem1 i p m Hseg Hld).
    apply IH. intros j Hj. apply Hno. lia.
Qed.

End SegmentSteps.

(** X9.  [LoadIntoMemory] changes no byte of memory outside the segments
    it loads: an address that lies in the range [[vaddr, vaddr +
    max(filesz, memsz))] of no [LOAD] program header that is not skipped
    reads after the call what it read before, whether the call ends well or
    in a fault. *)
Theorem LoadIntoMemory_writes_only_segments
    {D : Declarations} (r : ElfReader) (only_in_mem1 : bool)
    (m : Memory.image) (h : Elf32_Ehdr) (a : Z) :
  header r = Ok h ->
  (forall i p, 0 <= i < e_phnum h -> segment r i = Ok p ->
               ~ segment_writes only_in_mem1 p a) ->
  Memory.read (snd (LoadIntoMemory r only_in_mem1 m)) a = Memory.read m a.
Proof.
  intros Hh Hnw. unfold LoadIntoMemory.
  destruct (bRelocate r); [reflexivity|].
  rewrite Hh. cbn [with_res].
  pose proof (load_segments_frame_any r only_in_mem1
                (Z.to_nat (e_phnum h)) a 0 m) as Hframe.
  destruct (load_segments r only_in_mem1 (Z.to_nat (e_phnum h)) 0 m)
    as [[[]| |] m1]; cbn [snd] in *; apply Hframe;
    intros j p Hj; apply Hnw; lia.
Qed.

(** X10.  Every call that [LoadIntoMemory] makes on the memory belongs to a
    [LOAD] program header of the image: a copy is always of the file bytes
    of such a segment to its virtual address, which is below
    [REALRAM_SIZE] when the load is restricted to the primary region, and
    a fill is always with zero, of [memsz - filesz > 0] bytes, right after
    the copied bytes.  This holds of a load that ends in a fault too. *)
Theorem LoadIntoMemory_calls_belong_to_segments
    {D : Declarations} (r : ElfReader) (only_in_mem1 : bool)
    (m : Memory.image) (h : Elf32_Ehdr) (c : Memory.call) :
  header r = Ok h ->
  In c (Memory.calls (snd (LoadIntoMemory r only_in_mem1 m))) ->
  In c (Memory.calls m)
  \/ exists i p bytes,
       0 <= i < e_phnum h
       /\ segment r i = Ok p
       /\ p_type p = PT_LOAD
       /\ (only_in_mem1 = true -> p_vaddr p < REALRAM_SIZE)
       /\ copy_source (m_bytes r) (p_offset p) (p_filesz p) = Ok bytes
       /\ (c = Memory.Copy (p_vaddr p) bytes
           \/ (p_filesz p < p_memsz p
               /\ c = Memory.Fill (to_u32 (p_vaddr p + p_filesz p)) 0
                        (p_memsz p - p_filesz p))).
Proof.
  intros Hh Hin. unfold LoadIntoMemory in Hin.
  destruct (bRelocate r); [now left|].
  rewrite Hh in Hin. cbn [with_res] in Hin.
  assert (Hin' : In c (Memory.calls
                         (snd (load_segments r only_in_mem1
                                 (Z.to_nat (e_phnum h)) 0 m)))).
  { destruct (load_segments r only_in_mem1 (Z.to_nat (e_phnum h)) 0 m)
      as [[[]| |] m1]; exact Hin. }
  destruct (load_segments_calls_from r only_in_mem1 _ _ _ _ Hin')
    as [Hm | (j & p & bytes & Hj & Hseg & Hld & Hsl & Hc)]; [now left|].
  right. exists j, p, bytes.
  unfold segment_loaded, segment_skipped in Hld.
  apply andb_true_iff in Hld. destruct Hld as [Hty Hsk].
  apply negb_true_iff in Hsk.
  split; [lia|]. split; [exact Hseg|].
  split; [apply Z.eqb_eq; exact Hty|]. split.
  - intros ->. cbn [andb] in Hsk.
    destruct (Z.leb_spec REALRAM_SIZE (p_vaddr p)); [discriminate | lia].
  - split; [exact Hsl|]. unfold segment_calls in Hc.
    destruct Hc as [<- | Hc]; [now left|].
    destruct (Z.ltb_spec (p_filesz p) (p_memsz p)); [|destruct Hc].
    destruct Hc as [<- | []]. right. auto.
Qed.

(** X11.  An executable image in which no program header is to be loaded
    (none at all, none of type [LOAD], or all of them skipped by the
    restriction to the primary region) is loaded with success, and the
    memory is left exactly as it was. *)
Theorem LoadIntoMemory_nothing_to_load
    {D : Declarations} (r : ElfReader) (only_in_mem1 : bool)
    (m : Memory.image) (h : Elf32_Ehdr) :
  bRelocate r = false ->
  header r = Ok h ->
  (forall i, 0 <= i < e_phnum h ->
             exists p, segment r i = Ok p
                       /\ segment_loaded only_in_mem1 p = false) ->
  LoadIntoMemory r only_in_mem1 m = (Ok true, m).
Proof.
  intros Hrel Hh Hno. unfold LoadIntoMemory. rewrite Hrel, Hh.
  cbn [with_res].
  rewrite load_segments_nothing; [reflexivity|].
  intros j Hj. apply Hno. lia.
Qed.

Lemma fixture_overlay_untouched :
  forall i p,
    0 <= i < e_phnum (header_of (reader_of fixture_overlay)) ->
    segment (reader_of fixture_overlay) i = Ok p ->
    ~ segment_writes false p 0x5000.
Proof.
  intros i p Hi Hp (Hld & k & Hk & Heq).
  assert (Hn : e_phnum (header_of (reader_of fixture_overlay)) = 3)
    by (vm_compute; reflexivity).
  rewrite Hn in Hi.
  assert (Hseg : segment (reader_of fixture_overlay) i
                 = Ok (segment_of (reader_of fixture_overlay) i)).
  { assert (Hcases : i = 0 \/ i = 1 \/ i = 2) by lia.
    destruct Hcases as [->|[->| ->]]; vm_compute; reflexivity. }
  rewrite Hseg in Hp. apply Ok_inj in Hp. subst p.
  assert (Hcases : i = 0 \/ i = 1 \/ i = 2) by lia.
  destruct Hcases as [->|[->| ->]].
  - assert (Hv : p_vaddr (segment_of (reader_of fixture_overlay) 0) = 0x4000)
      by (vm_compute; reflexivity).
    assert (Hmax : Z.max (p_filesz (segment_of (reader_of fixture_overlay) 0))
                     (p_memsz (segment_of (reader_of fixture_overlay) 0))
                   = 16) by (vm_compute; reflexivity).
    rewrite Hmax in Hk. rewrite Hv in Heq. unfold Memory.wrap in Heq.
    rewrite !Z.mod_small in Heq by lia. lia.
  - assert (Hv : p_vaddr (segment_of (reader_of fixture_overlay) 1) = 0x4004)
      by (vm_compute; reflexivity).
    assert (Hmax : Z.max (p_filesz (segment_of (reader_of fixture_overlay) 1))
                     (p_memsz (segment_of (reader_of fixture_overlay) 1))
                   = 4) by (vm_compute; reflexivity).
    rewrite Hmax in Hk. rewrite Hv in Heq. unfold Memory.wrap in Heq.
    rewrite !Z.mod_small in Heq by lia. lia.
  - vm_compute in Hld. discriminate Hld.
Defined.

Lemma LoadIntoMemory_writes_only_segments_witness :
  Memory.read
    (snd (LoadIntoMemory (reader_of fixture_overlay) false blank_memory))
    0x5000
  = Memory.read blank_memory 0x5000.
Proof.
  apply (LoadIntoMemory_writes_only_segments (reader_of fixture_overlay)
           false blank_memory (header_of (reader_of fixture_overlay))).
  - vm_compute. reflexivity.
  - exact fixture_overlay_untouched.
Defined.

Lemma LoadIntoMemory_calls_belong_to_segments_witness :
  In (Memory.Fill 0x4008 0 8) (Memory.calls blank_memory)
  \/ exists i p bytes,
       0 <= i < e_phnum (header_of (reader_of fixture_overlay))
       /\ segment (reader_of fixture_overlay) i = Ok p
       /\ p_type p = PT_LOAD
       /\ (false = true -> p_vaddr p < REALRAM_SIZE)
       /\ copy_source (m_bytes (reader_of fixture_overlay))
            (p_offset p) (p_filesz p) = Ok bytes
       /\ (Memory.Fill 0x4008 0 8 = Memory.Copy (p_vaddr p) bytes
           \/ (p_filesz p < p_memsz p
               /\ Memory.Fill 0x4008 0 8
                  = Memory.Fill (to_u32 (p_vaddr p + p_filesz p)) 0
                      (p_memsz p - p_filesz p))).
Proof.
  apply (LoadIntoMemory_calls_belong_to_segments (reader_of fixture_overlay)
           false blank_memory (header_of (reader_of fixture_overlay))).
  - vm_compute. reflexivity.
  - vm_compute. right. left. reflexivity.
Defined.

Lemma fixture_bss_all_skipped :
  forall i,
    0 <= i < e_phnum (header_of (reader_of fixture_bss)) ->
    exists p, segment (reader_of fixture_bss) i = Ok p
              /\ segment_loaded true p = false.
Proof.
  intros i Hi.
  assert (Hn : e_phnum (header_of (reader_of fixture_bss)) = 2)
    by (vm_compute; reflexivity).
  rewrite Hn in Hi.
  exists (segment_of (reader_of fixture_bss) i).
  assert (Hcases : i = 0 \/ i = 1) by lia.
  destruct Hcases as [-> | ->]; split; vm_compute; reflexivity.
Defined.

Lemma LoadIntoMemory_nothing_to_load_witness :
  LoadIntoMemory (reader_of fixture_bss) true blank_memory
  = (Ok true, blank_memory).
Proof.
  apply (LoadIntoMemory_nothing_to_load (reader_of fixture_bss) true
           blank_memory (header_of (reader_of fixture_bss))).
  - vm_compute. reflexivity.
  - vm_compute. reflexivity.
  - exact fixture_bss_all_skipped.
Defined.

(** ** Loading twice *)

Lemma written_dichotomy p bytes a :
  (forall m, Memory.read (segment_written p bytes m) a = Memory.read m a)
  \/ (exists v, forall m, Memory.read (segment_written p bytes m) a = v).
Proof.
  unfold segment_written.
  destruct (p_filesz p <? p_memsz p).
  - destruct (Memory.wrap (a - to_u32 (p_vaddr p + p_filesz p))
              <? p_memsz p - p_filesz p) eqn:Hfill.
    + right. exists (z2b 0). intros m. rewrite read_Memset, Hfill.
      reflexivity.
    + destruct (Memory.wrap (a - p_vaddr p) <? blen bytes) eqn:Hcopy.
      * right. eexists. intros m.
        rewrite read_Memset, Hfill, read_CopyToEmu, Hcopy. reflexivity.
      * left. intros m.
        rewrite read_Memset, Hfill, read_CopyToEmu, Hcopy. reflexivity.
  - destruct (Memory.wrap (a - p_vaddr p) <? blen bytes) eqn:Hcopy.
    + right. eexists. intros m. rewrite read_CopyToEmu, Hcopy. reflexivity.
    + left. intros m. rewrite read_CopyToEmu, Hcopy. reflexivity.
Qed.

Section LoadingTwice.

Context {D : Declarations}.
Variable r : ElfReader.
Variable only_in_mem1 : bool.

(** Whether the loop ends well does not depend on the memory. *)
Lemma load_segments_outcome n :
  forall i m1 m2,
  fst (load_segments r only_in_mem1 n i m1)
  = fst (load_segments r only_in_mem1 n i m2).
Proof.
  induction n as [|n IH]; intros i m1 m2; cbn [load_segments].
  - reflexivity.
  - destruct (load_segment_cases r only_in_mem1 i)
      as [(out & Hsame) | (p & bytes & _ & _ & _ & Hstep)].
    + rewrite !Hsame. destruct out as [[]| |]; auto.
    + rewrite !Hstep. apply IH.
Qed.

(** At each address, the loop either keeps what every memory holds or
    leaves one and the same byte in every memory. *)
Lemma load_segments_dichotomy n a :
  forall i,
  (forall m, Memory.read (snd (load_segments r only_in_mem1 n i m)) a
             = Memory.read m a)
  \/ (exists v,
        forall m,
          Memory.read (snd (load_segments r only_in_mem1 n i m)) a = v).
Proof.
  induction n as [|n IH]; intros i; cbn [load_segments].
  - left. reflexivity.
  - destruct (load_segment_cases r only_in_mem1 i)
      as [(out & Hsame) | (p & bytes & _ & _ & _ & Hstep)].
    + destruct out as [[]| |].
      * destruct (IH (i + 1)) as [Hkeep | (v & Hfix)].
        -- left. intros m. rewrite Hsame. apply Hkeep.
        -- right. exists v. intros m. rewrite Hsame. apply Hfix.
      * left. intros m. rewrite Hsame. reflexivity.
      * left. intros m. rewrite Hsame. reflexivity.
    + destruct (IH (i + 1)) as [Hkeep | (v & Hfix)].
      * destruct (written_dichotomy p bytes a) as [Hk | (v & Hf)].
        -- left. intros m. rewrite Hstep, Hkeep. apply Hk.
        -- right. exists v. intros m. rewrite Hstep, Hkeep. apply Hf.
      * right. exists v. intros m. rewrite Hstep. apply Hfix.
Qed.

Lemma load_segments_twice n i m a :
  Memory.read
    (snd (load_segments r only_in_mem1 n i
            (snd (load_segments r only_in_mem1 n i m)))) a
  = Memory.read (snd (load_segments r only_in_mem1 n i m)) a.
Proof.
  destruct (load_segments_dichotomy n a i) as [Hkeep | (v & Hfix)].
  - apply Hkeep.
  - rewrite !Hfix. reflexivity.
Qed.

End LoadingTwice.

(** X12.  Loading an image a second time changes nothing in what the memory
    holds: after [LoadIntoMemory] has run, a second run with the same flag
    ends the same way and leaves every address reading what it read after
    the first, also when segments overlap or when the load ends in a
    fault. *)
Theorem LoadIntoMemory_twice
    {D : Declarations} (r : ElfReader) (only_in_mem1 : bool)
    (m : Memory.image) :
  fst (LoadIntoMemory r only_in_mem1
         (snd (LoadIntoMemory r only_in_mem1 m)))
  = fst (LoadIntoMemory r only_in_mem1 m)
  /\ forall a,
       Memory.read
         (snd (LoadIntoMemory r only_in_mem1
                 (snd (LoadIntoMemory r only_in_mem1 m)))) a
       = Memory.read (snd (LoadIntoMemory r only_in_mem1 m)) a.
Proof.
  unfold LoadIntoMemory.
  destruct (bRelocate r); [split; reflexivity|].
  destruct (header r) as [h| |]; cbn [with_res]; try (split; reflexivity).
  set (n := Z.to_nat (e_phnum h)).
  assert (Hsnd : forall m0,
            snd (match load_segments r only_in_mem1 n 0 m0 with
                 | (Ok _, m') => (Ok true, m')
                 | (Fault, m') => (Fault, m')
                 | (OutOfFuel, m') => (OutOfFuel, m')
                 end)
            = snd (load_segments r only_in_mem1 n 0 m0)).
  { intros m0. destruct (load_segments r only_in_mem1 n 0 m0)
      as [[[]| |] m1]; reflexivity. }
  split.
  - rewrite Hsnd.
    pose proof (load_segments_outcome r only_in_mem1 n 0
                  (snd (load_segments r only_in_mem1 n 0 m)) m) as Hout.
    destruct (load_segments r only_in_mem1 n 0
                (snd (load_segments r only_in_mem1 n 0 m)))
      as [[[]| |] m2];
      destruct (load_segments r only_in_mem1 n 0 m) as [[[]| |] m1];
      cbn [fst] in *; congruence.
  - intros a. rewrite !Hsnd. apply load_segments_twice.
Qed.

(** Where the two loaded segments of [fixture_overlay] overlap, the later
    one prevails; the bytes past the file bytes of the first are zero. *)
Example fixture_overlay_loaded :
  map (fun k =>
         Memory.read
           (snd (LoadIntoMemory (reader_of fixture_overlay) false
                   blank_memory))
           (0x4000 + Z.of_nat k)) (seq 0 16)
  = [x11; x22; x33; x44; xaa; xbb; xcc; xdd;
     x00; x00; x00; x00; x00; x00; x00; x00].
Proof. vm_compute. reflexivity. Qed.

(** ** The symbols, one record after the other *)

Lemma load_Sym_value_range buf off s :
  load_Sym buf off = Ok s -> 0 <= st_value s < 4294967296.
Proof.
  unfold load_Sym. intros H. bind_inv H. apply Ok_inj in H. subst s.
  apply u32_at_range.
Qed.

Lemma to_int32_zero x : 0 <= x < 4294967296 -> to_int32 x = 0 -> x = 0.
Proof.
  intros Hx H0. pose proof (to_u32_to_int32 x) as H. rewrite H0 in H.
  unfold to_u32 in H. rewrite Z.mod_0_l in H by lia.
  rewrite Z.mod_small in H by lia. lia.
Qed.

Lemma to_u32_relocated v a :
  to_u32 (to_int32 (to_int32 v + a)) = (v + a) mod 4294967296.
Proof.
  rewrite to_u32_to_int32. pose proof (to_u32_to_int32 v) as H.
  unfold to_u32 in H.
  rewrite <- Z.add_mod_idemp_l, H, Z.add_mod_idemp_l by lia. reflexivity.
Qed.

Lemma ascending_from_weaken lo lo' l :
  lo' <= lo -> ascending_from lo l -> ascending_from lo' l.
Proof.
  destruct l as [|k l]; cbn; [auto|]. intros ? [? ?]. split; [lia | auto].
Qed.

Section SymbolOrder.

Context {D : Declarations}.
Variable r : ElfReader.
Variables stringBase symtab : Z.

Lemma symbol_entry_symbol sym c :
  symbol_entry r (Some stringBase) (Some symtab) sym = Ok (Some c)
  <-> symbol_of r stringBase symtab sym c.
Proof.
  unfold symbol_entry, symbol_of. split.
  - intros H. bind_inv H. rename a into s. exists s.
    split; [exact E|].
    pose proof (swap32_range _ (load_Sym_size_range _ _ _ E)) as Hsz.
    pose proof (swap32_range _ (load_Sym_value_range _ _ _ E)) as Hval.
    destruct (Z.eqb_spec (to_int32 (swap32 (st_size s))) 0) as [|Hnz];
      [discriminate|].
    bind_inv H. rename a into value'.
    assert (Hsize : to_u32 (to_int32 (swap32 (st_size s)))
                    = swap32 (st_size s))
      by (rewrite to_u32_to_int32; apply Z.mod_small; exact Hsz).
    assert (Hne : swap32 (st_size s) <> 0).
    { intros H0. apply Hnz. rewrite H0. reflexivity. }
    assert (Haddr : if bRelocate r
                    then exists a,
                           sectionAddrs (swap16 (st_shndx s)) = Ok a
                           /\ to_u32 value'
                              = (swap32 (st_value s) + a) mod 4294967296
                    else to_u32 value' = swap32 (st_value s)).
    { destruct (bRelocate r).
      - bind_inv E0. apply Ok_inj in E0. subst value'.
        exists a. split; [exact E1|]. apply to_u32_relocated.
      - apply Ok_inj in E0. subst value'. rewrite to_u32_to_int32.
        apply Z.mod_small. exact Hval. }
    destruct (Z.eqb_spec (Z.land (st_info s) 15) STT_OBJECT) as [Hobj|Hnobj].
    + bind_inv H. apply Ok_inj in H. injection H as <-.
      rewrite Hsize. repeat split; auto.
    + destruct (Z.eqb_spec (Z.land (st_info s) 15) STT_FUNC) as [Hfun|Hnfun];
        [|discriminate].
      bind_inv H. apply Ok_inj in H. injection H as <-.
      rewrite Hsize. repeat split; auto.
  - intros (s & Hload & Hc). rewrite Hload. cbn [bind].
    destruct c as [value size name type|]; [|destruct Hc].
    destruct Hc as (Hsize & Hne & Htype & Hname & Haddr).
    pose proof (swap32_range _ (load_Sym_size_range _ _ _ Hload)) as Hsz.
    pose proof (swap32_range _ (load_Sym_value_range _ _ _ Hload)) as Hval.
    destruct (Z.eqb_spec (to_int32 (swap32 (st_size s))) 0) as [H0|_].
    { apply to_int32_zero in H0; [congruence | exact Hsz]. }
    assert (Hsize' : to_u32 (to_int32 (swap32 (st_size s))) = size).
    { rewrite to_u32_to_int32, Hsize. apply Z.mod_small. exact Hsz. }
    assert (Hv : exists value',
               (if bRelocate r
                then a <- sectionAddrs (swap16 (st_shndx s)) ;;
                     Ok (to_int32 (to_int32 (swap32 (st_value s)) + a))
                else Ok (to_int32 (swap32 (st_value s)))) = Ok value'
               /\ to_u32 value' = value).
    { destruct (bRelocate r).
      - destruct Haddr as (a & Ha & ->). rewrite Ha. cbn [bind].
        eexists. split; [reflexivity|]. apply to_u32_relocated.
      - eexists. split; [reflexivity|]. rewrite to_u32_to_int32, Haddr.
        apply Z.mod_small. exact Hval. }
    destruct Hv as (value' & -> & Hvalue). cbn [bind].
    rewrite Hname. cbn [bind]. rewrite Hsize', Hvalue.
    destruct Htype as [[Ht ->]|[Ht ->]]; rewrite Ht; reflexivity.
Qed.

Lemma symbol_loop_order n :
  forall sym db hasSymbols,
  exists idxs added,
    snd (symbol_loop r (Some stringBase) (Some symtab) n sym db hasSymbols)
    = db ++ added
    /\ ascending_from sym idxs
    /\ Forall (fun k => sym <= k < sym + Z.of_nat n) idxs
    /\ Forall2 (symbol_of r stringBase symtab) idxs added
    /\ (forall res,
          fst (symbol_loop r (Some stringBase) (Some symtab) n sym db
                 hasSymbols) = Ok res ->
          forall k c,
            sym <= k < sym + Z.of_nat n ->
            symbol_of r stringBase symtab k c -> In k idxs).
Proof.
  induction n as [|n IH]; intros sym db hasSymbols; cbn [symbol_loop].
  - exists [], []. rewrite app_nil_r. cbn [fst snd].
    repeat split; auto; try constructor. intros res _ k c Hk _. lia.
  - destruct (symbol_entry r (Some stringBase) (Some symtab) sym)
      as [[c|]| |] eqn:E; cbn [with_res].
    + destruct (IH (sym + 1) (db ++ [c]) true)
        as (idxs & added & Hdb & Hasc & Hup & Hall & Hin).
      exists (sym :: idxs), (c :: added).
      split; [rewrite Hdb, <- app_assoc; reflexivity|].
      split; [cbn; split; [lia | exact Hasc]|].
      split.
      { constructor; [lia|]. eapply Forall_impl; [|exact Hup].
        cbn beta. intros k Hk. lia. }
      split; [constructor; [apply symbol_entry_symbol; exact E | exact Hall]|].
      intros res Hres k c' Hk Hsym.
      destruct (Z.eq_dec k sym) as [->|Hne]; [left; reflexivity|].
      right. apply (Hin res Hres k c'); [lia | exact Hsym].
    + destruct (IH (sym + 1) db hasSymbols)
        as (idxs & added & Hdb & Hasc & Hup & Hall & Hin).
      exists idxs, added.
      split; [exact Hdb|].
      split; [apply (ascending_from_weaken (sym + 1)); [lia | exact Hasc]|].
      split.
      { eapply Forall_impl; [|exact Hup]. cbn beta. intros k Hk. lia. }
      split; [exact Hall|].
      intros res Hres k c' Hk Hsym.
      destruct (Z.eq_dec k sym) as [->|Hne].
      * apply symbol_entry_symbol in Hsym. congruence.
      * apply (Hin res Hres k c'); [lia | exact Hsym].
    + exists [], []. rewrite app_nil_r. cbn [fst snd].
      repeat split; auto; try constructor. discriminate.
    + exists [], []. rewrite app_nil_r. cbn [fst snd].
      repeat split; auto; try constructor. discriminate.
Qed.

End SymbolOrder.

(** X13.  When the image has a [.symtab] section whose data and whose
    linked string section's data are there, the symbols that one run of
    [LoadSymbols] adds are records of that table in increasing order of
    their index, each added with the size, the classification, the name and
    the address of its record; the indexing call, if made, comes last.  When
    the run completes, every record that describes a symbol was added: none
    is left out and none is added twice. *)
Theorem LoadSymbols_adds_records_in_order
    {D : Declarations} (r : ElfReader) (db : PPCSymbolDB)
    (sec : Z) (s : Elf32_Shdr) (stringBase symtab : Z) :
  GetSectionByName r symtab_name 0 = Ok sec ->
  sec <> -1 ->
  section r sec = Ok s ->
  GetSectionDataPtr r (to_int32 (sh_link s)) = Ok (Some stringBase) ->
  GetSectionDataPtr r sec = Ok (Some symtab) ->
  exists idxs added tail,
    snd (LoadSymbols r db) = db ++ added ++ tail
    /\ (tail = [] \/ tail = [Index])
    /\ ascending_from 0 idxs
    /\ Forall (fun k => k < sh_size s / sizeof_Sym) idxs
    /\ Forall2 (symbol_of r stringBase symtab) idxs added
    /\ (forall res,
          fst (LoadSymbols r db) = Ok res ->
          tail = [Index]
          /\ forall k c,
               0 <= k < sh_size s / sizeof_Sym ->
               symbol_of r stringBase symtab k c -> In k idxs).
Proof.
  intros Hsec Hne Hs Hstr Htab.
  unfold LoadSymbols. rewrite Hsec. cbn [with_res].
  destruct (Z.eqb_spec sec (-1)) as [|_]; [contradiction|].
  rewrite Hs. cbn [with_res]. rewrite Hstr. cbn [with_res].
  rewrite Htab. cbn [with_res].
  destruct (symbol_loop_order r stringBase symtab
              (Z.to_nat (sh_size s / sizeof_Sym)) 0 db false)
    as (idxs & added & Hdb & Hasc & Hup & Hall & Hin).
  assert (Hup' : Forall (fun k => k < sh_size s / sizeof_Sym) idxs).
  { eapply Forall_impl; [|exact Hup]. cbn beta. intros k Hk. lia. }
  destruct (symbol_loop r (Some stringBase) (Some symtab)
              (Z.to_nat (sh_size s / sizeof_Sym)) 0 db false)
    as [[b| |] db'] eqn:E; cbn [fst snd] in *.
  - exists idxs, added, [Index]. rewrite Hdb, app_assoc.
    repeat split; auto.
    intros k c Hk Hsym. apply (Hin b eq_refl k c); [lia | exact Hsym].
  - exists idxs, added, []. rewrite Hdb, app_nil_r.
    repeat split; auto; discriminate.
  - exists idxs, added, []. rewrite Hdb, app_nil_r.
    repeat split; auto; discriminate.
Qed.

Lemma LoadSymbols_adds_records_in_order_witness :
  exists idxs added tail,
    snd (LoadSymbols (reader_of fixture_symbols) []) = [] ++ added ++ tail
    /\ (tail = [] \/ tail = [Index])
    /\ ascending_from 0 idxs
    /\ Forall (fun k =>
                 k < sh_size (decode_Shdr
                                (firstn 40 (skipn 220
                                   (m_bytes (reader_of fixture_symbols)))))
                     / sizeof_Sym) idxs
    /\ Forall2 (symbol_of (reader_of fixture_symbols) 79 100) idxs added
    /\ (forall res,
          fst (LoadSymbols (reader_of fixture_symbols) []) = Ok res ->
          tail = [Index]
          /\ forall k c,
               0 <= k < sh_size (decode_Shdr
                                   (firstn 40 (skipn 220
                                      (m_bytes (reader_of fixture_symbols)))))
                        / sizeof_Sym ->
               symbol_of (reader_of fixture_symbols) 79 100 k c ->
               In k idxs).
Proof.
  apply (LoadSymbols_adds_records_in_order (reader_of fixture_symbols) [] 1
           (decode_Shdr
              (firstn 40 (skipn 220 (m_bytes (reader_of fixture_symbols)))))
           79 100).
  - vm_compute. reflexivity.
  - discriminate.
  - vm_compute. reflexivity.
  - vm_compute. reflexivity.
  - vm_compute. reflexivity.
Defined.

(** ** The words that the heuristic accepts *)

Lemma land_register_field insn :
  Z.land insn 0x03e00000 = (insn / 2 ^ 21) mod 32 * 2 ^ 21.
Proof.
  rewrite <- Z.shiftl_mul_pow2, <- Z.shiftr_div_pow2 by lia.
  change 32 with (2 ^ 5). rewrite <- Z.land_ones by lia.
  change 0x03e00000 with (Z.shiftl (Z.ones 5) 21).
  apply Z.bits_inj'. intros n Hn.
  rewrite Z.land_spec, !Z.shiftl_spec, Z.land_spec by lia.
  destruct (Z_lt_le_dec n 21) as [Hlt|Hge].
  - rewrite (Z.testbit_neg_r (Z.ones 5)), !andb_false_r by lia. reflexivity.
  - rewrite Z.shiftr_spec by lia. replace (n - 21 + 21) with n by lia.
    reflexivity.
Qed.

Lemma land_mask_split insn :
  0 <= insn < 4294967296 ->
  insn = Z.land insn 0xfc1fffff + Z.land insn 0x03e00000.
Proof.
  intros Hi.
  rewrite Z.add_nocarry_lxor.
  - rewrite Z.lxor_lor.
    + rewrite <- Z.land_lor_distr_r.
      change (Z.lor 0xfc1fffff 0x03e00000) with (Z.ones 32).
      rewrite Z.land_ones by lia. symmetry. apply Z.mod_small.
      change (2 ^ 32) with 4294967296. lia.
    + rewrite Z.land_assoc, (Z.land_comm (Z.land insn 0xfc1fffff) insn),
        Z.land_assoc, Z.land_diag, <- Z.land_assoc.
      change (Z.land 0xfc1fffff 0x03e00000) with 0. apply Z.land_0_r.
  - rewrite Z.land_assoc, (Z.land_comm (Z.land insn 0xfc1fffff) insn),
      Z.land_assoc, Z.land_diag, <- Z.land_assoc.
    change (Z.land 0xfc1fffff 0x03e00000) with 0. apply Z.land_0_r.
Qed.

Lemma instruction_matches_registers (d : nat) :
  (d < 32)%nat ->
  instruction_matches (0x7c13fba6 + Z.of_nat d * 2 ^ 21) = true.
Proof.
  intros Hd.
  do 32 (destruct d as [|d]; [vm_compute; reflexivity|]). lia.
Qed.

(** X14.  The words that [IsWii] looks for are the thirty-two encodings
    of one instruction with any register operand: a host-order word read
    from the file is accepted exactly when, read most significant byte
    first, it is [0x7c13fba6] with any value [d] of the five-bit field at
    bits 21 to 25. *)
Theorem IsWii_accepts_every_register (w : Z) :
  0 <= w < 4294967296 ->
  (hid4_match w = true
   <-> exists d, 0 <= d < 32 /\ swap32 w = 0x7c13fba6 + d * 2 ^ 21).
Proof.
  intros Hw. rewrite hid4_match_instruction by exact Hw.
  pose proof (swap32_range w Hw) as Hi.
  split.
  - unfold instruction_matches. intros Hm. apply Z.eqb_eq in Hm.
    exists ((swap32 w / 2 ^ 21) mod 32).
    split; [apply Z.mod_pos_bound; lia|].
    rewrite <- land_register_field, <- Hm.
    apply land_mask_split. exact Hi.
  - intros (d & Hd & ->).
    replace d with (Z.of_nat (Z.to_nat d)) by lia.
    apply instruction_matches_registers. lia.
Qed.

Lemma IsWii_accepts_every_register_witness :
  hid4_match 0xa6fb737c = true
  <-> exists d, 0 <= d < 32
                /\ swap32 0xa6fb737c = 0x7c13fba6 + d * 2 ^ 21.
Proof.
  apply (IsWii_accepts_every_register 0xa6fb737c). lia.
Defined.

(** ** The scan stops at the first hit and checks no extent *)

Lemma scan_words_first_match buf code n :
  forall j0 j w,
  0 <= code -> 0 <= j0 -> j0 <= j < j0 + Z.of_nat n ->
  get32 buf (code + 4 * j) = Ok w -> hid4_match w = true ->
  scan_words buf code n j0 = Ok true.
Proof.
  induction n as [|n IH]; intros j0 j w Hc Hj0 Hj Hget Hm;
    cbn [scan_words]; [lia|].
  destruct (Z.eq_dec j j0) as [->|Hne].
  - rewrite Hget. cbn [bind]. rewrite Hm. reflexivity.
  - assert (Hin : code + 4 * j + 4 <= blen buf).
    { unfold get32 in Hget. bind_inv Hget. apply slice_inv in E. lia. }
    destruct (get32_ok buf (code + 4 * j0)) as (w0 & Hw0); [lia | lia |].
    rewrite Hw0. cbn [bind]. destruct (hid4_match w0); [reflexivity|].
    apply (IH (j0 + 1) j w); auto; lia.
Qed.

Lemma scan_words_overrun buf code n :
  forall j0,
  0 <= code -> 0 <= j0 -> code + 4 * j0 <= blen buf ->
  blen buf < code + 4 * (j0 + Z.of_nat n) ->
  (forall j w, j0 <= j < j0 + Z.of_nat n ->
               get32 buf (code + 4 * j) = Ok w -> hid4_match w = false) ->
  scan_words buf code n j0 = Fault.
Proof.
  induction n as [|n IH]; intros j0 Hc Hj0 Hin Hout Hno;
    cbn [scan_words]; [lia|].
  destruct (Z_le_gt_dec (code + 4 * j0 + 4) (blen buf)) as [Hle|Hgt].
  - destruct (get32_ok buf (code + 4 * j0)) as (w0 & Hw0); [lia | lia |].
    rewrite Hw0. cbn [bind]. rewrite (Hno j0 w0) by (assumption || lia).
    apply IH; try lia. intros j w Hj. apply Hno. lia.
  - unfold get32. rewrite slice_fault by lia. reflexivity.
Qed.

Section ScanEdges.

Context {D : Declarations}.
Variable r : ElfReader.

Lemma scan_segments_first_match n :
  forall i0 i j,
  i0 <= i < i0 + Z.of_nat n ->
  (forall k, i0 <= k < i -> scannable r k) ->
  matching_word r i j ->
  scan_segments r n i0 = Ok true.
Proof.
  induction n as [|n IH]; intros i0 i j Hi Hscan Hm;
    cbn [scan_segments]; [lia|].
  destruct (Z.eq_dec i i0) as [->|Hne].
  - destruct Hm as (p & w & Hcode & Hseg & Hj & Hget & Hw).
    rewrite Hcode. cbn [bind]. unfold GetSegmentPtr, GetSegmentSize.
    rewrite Hseg. cbn [bind].
    destruct (load_Phdr_wf _ _ _ Hseg) as (_ & Ho & _). unfold is_u32 in Ho.
    rewrite (scan_words_first_match _ _ _ 0 j w); auto; lia.
  - destruct (Hscan i0 ltac:(lia)) as (c & Hcode & Hfile).
    rewrite Hcode. cbn [bind].
    assert (Hrest : scan_segments r n (i0 + 1) = Ok true).
    { apply (IH (i0 + 1) i j); [lia | | exact Hm].
      intros k Hk. apply Hscan. lia. }
    destruct c; [|exact Hrest].
    destruct (Hfile eq_refl) as (p & Hseg & Hext).
    unfold GetSegmentPtr, GetSegmentSize. rewrite Hseg. cbn [bind].
    destruct (load_Phdr_wf _ _ _ Hseg) as (_ & Ho & Hf & _).
    unfold is_u32 in *.
    assert (Hq : 0 <= p_filesz p / 4) by (apply Z.div_pos; lia).
    destruct (scan_words_spec (m_bytes r) (p_offset p)
                (Z.to_nat (p_filesz p / 4)) 0) as (hit & Hwords & _);
      [lia | lia | lia |].
    rewrite Hwords. cbn [bind]. destruct hit; [reflexivity | exact Hrest].
Qed.

Lemma scan_segments_overrun n :
  forall i0 i p,
  i0 <= i < i0 + Z.of_nat n ->
  (forall k, i0 <= k < i ->
             scannable r k /\ forall j, ~ matching_word r k j) ->
  IsCodeSegment r i = Ok true ->
  segment r i = Ok p ->
  4 <= p_filesz p ->
  blen (m_bytes r) < p_offset p + 4 * (p_filesz p / 4) ->
  (forall j, ~ matching_word r i j) ->
  scan_segments r n i0 = Fault.
Proof.
  induction n as [|n IH]; intros i0 i p Hi Hscan Hcode Hseg Hsz Hout Hno;
    cbn [scan_segments]; [lia|].
  destruct (Z.eq_dec i i0) as [->|Hne].
  - rewrite Hcode. cbn [bind]. unfold GetSegmentPtr, GetSegmentSize.
    rewrite Hseg. cbn [bind].
    destruct (load_Phdr_wf _ _ _ Hseg) as (_ & Ho & Hf & _).
    unfold is_u32 in *.
    assert (Hq : 0 < p_filesz p / 4)
      by (apply Z.div_str_pos; lia).
    assert (Hwords : scan_words (m_bytes r) (p_offset p)
                       (Z.to_nat (p_filesz p / 4)) 0 = Fault).
    { destruct (Z_le_gt_dec (p_offset p) (blen (m_bytes r))) as [Hle|Hgt].
      - apply scan_words_overrun; try lia.
        intros j w Hj Hget. destruct (hid4_match w) eqn:Hw; [|reflexivity].
        exfalso. apply (Hno j). exists p, w. repeat split; auto; lia.
      - destruct (Z.to_nat (p_filesz p / 4)) as [|m] eqn:Hm; [lia|].
        cbn [scan_words]. unfold get32.
        rewrite slice_fault by lia. reflexivity. }
    rewrite Hwords. reflexivity.
  - destruct (Hscan i0 ltac:(lia)) as ((c & Hc0 & Hfile) & Hno0).
    rewrite Hc0. cbn [bind].
    assert (Hrest : scan_segments r n (i0 + 1) = Fault).
    { apply (IH (i0 + 1) i p); auto; try lia.
      intros k Hk. apply Hscan. lia. }
    destruct c; [|exact Hrest].
    destruct (Hfile eq_refl) as (p0 & Hseg0 & Hext).
    unfold GetSegmentPtr, GetSegmentSize. rewrite Hseg0. cbn [bind].
    destruct (load_Phdr_wf _ _ _ Hseg0) as (_ & Ho & Hf & _).
    unfold is_u32 in *.
    assert (Hq : 0 <= p_filesz p0 / 4) by (apply Z.div_pos; lia).
    destruct (scan_words_spec (m_bytes r) (p_offset p0)
                (Z.to_nat (p_filesz p0 / 4)) 0) as (hit & Hwords & Hhit);
      [lia | lia | lia |].
    rewrite Hwords. cbn [bind]. destruct hit; [|exact Hrest].
    exfalso. destruct (proj1 Hhit eq_refl) as (j & w & Hj & Hget & Hw).
    apply (Hno0 j). exists p0, w. repeat split; auto; lia.
Qed.

End ScanEdges.

(** X15.  [IsWii] answers [true] at the first word that matches: when
    the segments before segment [i] can be scanned and word [j] of code
    segment [i] matches, the answer is [true] whatever the later words of
    that segment and the later segments are, even if they lie outside the
    file. *)
Theorem IsWii_stops_at_first_match
    {D : Declarations} (r : ElfReader) (n i j : Z) :
  GetNumSegments r = Ok n ->
  0 <= i < n ->
  (forall k, 0 <= k < i -> scannable r k) ->
  matching_word r i j ->
  IsWii r = Ok true.
Proof.
  intros Hn Hi Hscan Hm. unfold IsWii. rewrite Hn. cbn [bind].
  apply (scan_segments_first_match r (Z.to_nat n) 0 i j);
    [lia | exact Hscan | exact Hm].
Qed.

Lemma IsWii_stops_at_first_match_witness :
  IsWii (reader_of fixture_wii_cut) = Ok true.
Proof.
  apply (IsWii_stops_at_first_match (reader_of fixture_wii_cut) 2 0 1).
  - vm_compute. reflexivity.
  - lia.
  - intros k Hk. lia.
  - exists (segment_of (reader_of fixture_wii_cut) 0), HID4_pattern.
    split; [vm_compute; reflexivity|].
    split; [vm_compute; reflexivity|].
    split; [vm_compute; split; [discriminate | reflexivity]|].
    split; vm_compute; reflexivity.
Defined.

(** X16.  [IsWii] checks no extent: when the segments before code
    segment [i] can be scanned and hold no match, and segment [i] declares
    at least one word and more words than the file holds, none of those in
    the file matching, the scan reads past the end of the buffer. *)
Theorem IsWii_reads_past_the_end
    {D : Declarations} (r : ElfReader) (n i : Z) (p : Elf32_Phdr) :
  GetNumSegments r = Ok n ->
  0 <= i < n ->
  (forall k, 0 <= k < i ->
             scannable r k /\ forall j, ~ matching_word r k j) ->
  IsCodeSegment r i = Ok true ->
  segment r i = Ok p ->
  4 <= p_filesz p ->
  blen (m_bytes r) < p_offset p + 4 * (p_filesz p / 4) ->
  (forall j, ~ matching_word r i j) ->
  IsWii r = Fault.
Proof.
  intros Hn Hi Hscan Hcode Hseg Hsz Hout Hno.
  unfold IsWii. rewrite Hn. cbn [bind].
  apply (scan_segments_overrun r (Z.to_nat n) 0 i p); auto. lia.
Qed.

Lemma fixture_wii_cut_plain_no_match :
  forall j, ~ matching_word (reader_of fixture_wii_cut_plain) 0 j.
Proof.
  intros j (p & w & _ & Hseg & Hj & Hget & Hw).
  assert (Hs : segment (reader_of fixture_wii_cut_plain) 0
               = Ok (segment_of (reader_of fixture_wii_cut_plain) 0))
    by (vm_compute; reflexivity).
  rewrite Hs in Hseg. apply Ok_inj in Hseg. subst p.
  assert (Hoff : p_offset (segment_of (reader_of fixture_wii_cut_plain) 0)
                 = 116) by (vm_compute; reflexivity).
  rewrite Hoff in Hget. destruct Hj as [Hj _]. clear Hs Hoff.
  assert (Hlen : blen (m_bytes (reader_of fixture_wii_cut_plain)) = 124)
    by (vm_compute; reflexivity).
  assert (Hin : 116 + 4 * j + 4 <= 124).
  { rewrite <- Hlen. clear - Hget. unfold get32 in Hget. bind_inv Hget.
    apply slice_inv in E. destruct E as (_ & _ & Hb & _). exact Hb. }
  assert (Hcases : j = 0 \/ j = 1) by (clear - Hj Hin; lia).
  destruct Hcases as [-> | ->].
  - assert (Hg : get32 (m_bytes (reader_of fixture_wii_cut_plain))
                   (116 + 4 * 0) = Ok 0x00000060)
      by (vm_compute; reflexivity).
    rewrite Hg in Hget. apply Ok_inj in Hget. subst w.
    vm_compute in Hw. discriminate Hw.
  - assert (Hg : get32 (m_bytes (reader_of fixture_wii_cut_plain))
                   (116 + 4 * 1) = Ok 0x2000804e)
      by (vm_compute; reflexivity).
    rewrite Hg in Hget. apply Ok_inj in Hget. subst w.
    vm_compute in Hw. discriminate Hw.
Defined.

Lemma IsWii_reads_past_the_end_witness :
  IsWii (reader_of fixture_wii_cut_plain) = Fault.
Proof.
  apply (IsWii_reads_past_the_end (reader_of fixture_wii_cut_plain) 2 0
           (segment_of (reader_of fixture_wii_cut_plain) 0)).
  - vm_compute. reflexivity.
  - lia.
  - intros k Hk. lia.
  - vm_compute. reflexivity.
  - vm_compute. reflexivity.
  - vm_compute. discriminate.
  - vm_compute. reflexivity.
  - exact fixture_wii_cut_plain_no_match.
Defined.
